(** * Ultimate_Hashing: the QuantumFortress sponge and its self-healing context

    A shallow embedding of [src/Hashing/QuantumProtection.cpp] and
    [src/Hashing/SelfHeal.cpp], of the input functions of
    [src/Hashing/UniversalData.cpp], of [src/Hashing/Performance.cpp] and of
    the program [src/Hashing/main.cpp].

    Conventions of the embedding:
    - a [uint64_t] is a [Z] in [[0, 2^64)]; every operation that can leave
      that range in C++ is followed by [wrap64];
    - an [int] counter is a [Z]; signed overflow is undefined in C++ and is
      not given a meaning here;
    - a fixed-size C array is a [list], read with [!!!] and written with
      [<[i:=v]>]; the loops of the source only use indices inside the
      arrays, except for the ring of a context whose [currentIndex] has been
      overwritten (see [context_wf]);
    - the messages written to [std::cerr] are left out;
    - [reinterpret_cast<uint8_t*>(qs.state)[i]] is byte [i mod 8] of word
      [i / 8], least significant byte first (the byte order of the x86-64
      targets the project is built for);
    - a file is the list of its bytes, [None] when it cannot be opened, and
      no read fails before the end of the file; the standard input is the
      list of the bytes waiting on it. *)

From Stdlib Require Import ZArith List Lia Bool ZifyNat.
From Stdlib Require Import Strings.Byte.
From stdpp Require Import base numbers list.
From coqutil Require Import Z.bitblast.
From Equations Require Import Equations.
Import ListNotations.

Local Open Scope Z_scope.

Ltac Zify.zify_post_hook ::= Z.div_mod_to_equations.

(** ** Machine integers *)

Definition wrap64 (z : Z) : Z := z mod 2 ^ 64.

Definition u64 (z : Z) : Prop := 0 <= z < 2 ^ 64.

#[global] Instance u64_dec (z : Z) : Decision (u64 z).
Proof. unfold u64. apply _. Defined.

(** ** QuantumProtection.h *)

Definition STATE_WORDS : nat := 32.

Record QFState := mkQFState {
  state : list Z;          (* uint64_t state[STATE_WORDS] *)
  absorbedBytes : Z        (* uint64_t absorbedBytes *)
}.

(** ** QuantumProtection.cpp *)

Definition ROUND_CONSTANTS : list Z :=
  [ 0x0000000000000001; 0x0000000000008082;
    0x800000000000808a; 0x8000000080008000;
    0x000000000000808b; 0x0000000080000001;
    0x8000000080008081; 0x8000000000008009;
    0x000000000000008a; 0x0000000000000088;
    0x0000000080008009; 0x000000008000000a;
    0x000000008000808b; 0x800000000000008b;
    0x8000000000008089; 0x8000000000008003;
    0x8000000000008002; 0x8000000000000080;
    0x000000000000800a; 0x800000008000000a;
    0x8000000080008081; 0x8000000000008080;
    0x0000000080000001; 0x8000000080008008 ].

(** [rotl64(x, n) = (x << n) | (x >> (64 - n))].  The left shift is
    truncated to 64 bits.  For [n = 0] the right shift is by the full width,
    which C++ leaves undefined; on [Z] it yields [0] for a 64-bit [x], so
    the model returns [x] there. *)
Definition rotl64 (x : Z) (n : Z) : Z :=
  Z.lor (wrap64 (Z.shiftl x n)) (Z.shiftr x (64 - n)).

(** The amount by which [rotl64] shifts right. *)
Definition rotl64_right_shift (n : Z) : Z := 64 - n.

Definition qfInit (qs : QFState) : QFState :=
  let s0 := replicate STATE_WORDS 0 in            (* memset *)
  let s1 := <[0%nat := 0x6A09E667F3BCC908]> s0 in
  let s2 := <[1%nat := 0xBB67AE8584CAA73B]> s1 in
  let s3 := <[2%nat := 0x3C6EF372FE94F82B]> s2 in
  let s4 := <[3%nat := 0xA54FF53A5F1D36F1]> s3 in
  mkQFState s4 0.

(** The rotation counts of the permutation, as the source computes them. *)
Definition pair_rot_a (i round : nat) : Z := Z.of_nat ((i + round) mod 63).
Definition pair_rot_b (i round : nat) : Z := Z.of_nat ((i * 3 + round) mod 59).
Definition lane_rot (i round : nat) : Z := Z.of_nat ((i + round) mod 7 + 1).

(** Step 1 of a round: [qs.state[round % STATE_WORDS] ^= ROUND_CONSTANTS[round]]. *)
Definition inject_constant (round : nat) (ws : list Z) : list Z :=
  let j := (round mod STATE_WORDS)%nat in
  <[j := Z.lxor (ws !!! j) (ROUND_CONSTANTS !!! round)]> ws.

(** Body of the loop of step 2, at index [i]. *)
Definition pair_mix_at (round : nat) (ws : list Z) (i : nat) : list Z :=
  let a := ws !!! i in
  let b := ws !!! (i + 1)%nat in
  let a := rotl64 (Z.lxor a b) (pair_rot_a i round) in
  let b := rotl64 (Z.lxor b a) (pair_rot_b i round) in
  <[(i + 1)%nat := b]> (<[i := a]> ws).

(** [for (int i = 0; i < 32; i += 2)] *)
Definition even_indices : list nat := map (fun k => (2 * k)%nat) (seq 0 16).

Definition pair_mix (round : nat) (ws : list Z) : list Z :=
  fold_left (pair_mix_at round) even_indices ws.

(** Body of the loop of step 3, at index [i]. *)
Definition lane_mix_at (round : nat) (ws : list Z) (i : nat) : list Z :=
  <[i := Z.lxor (ws !!! i)
                (rotl64 (ws !!! ((i + 5) mod 32)%nat) (lane_rot i round))]> ws.

Definition lane_mix (round : nat) (ws : list Z) : list Z :=
  fold_left (lane_mix_at round) (seq 0 32) ws.

Definition qfRound (ws : list Z) (round : nat) : list Z :=
  lane_mix round (pair_mix round (inject_constant round ws)).

Definition qfPermutation (qs : QFState) : QFState :=
  mkQFState (fold_left qfRound (seq 0 24) (state qs)) (absorbedBytes qs).

(** *** Byte view of the state ([reinterpret_cast<uint8_t*>(qs.state)]) *)

#[global] Instance byte_inhabited : Inhabited byte := populate x00.

Definition byte_val (b : byte) : Z := Z.of_N (Byte.to_N b).

Definition byte_of_Z (z : Z) : byte :=
  match Byte.of_N (Z.to_N z) with
  | Some b => b
  | None => x00
  end.

Definition lane_shift (i : nat) : Z := 8 * Z.of_nat (i mod 8).

Definition get_byte (ws : list Z) (i : nat) : Z :=
  Z.land (Z.shiftr (ws !!! (i / 8)%nat) (lane_shift i)) 0xFF.

Definition set_byte (ws : list Z) (i : nat) (v : Z) : list Z :=
  let w := ws !!! (i / 8)%nat in
  <[(i / 8)%nat :=
      Z.lor (Z.land w (Z.lnot (Z.shiftl 0xFF (lane_shift i))))
            (Z.shiftl v (lane_shift i))]> ws.

(** [reinterpret_cast<uint8_t*>(qs.state)[i] ^= data[i]] *)
Definition xor_byte_at (data : list byte) (ws : list Z) (i : nat) : list Z :=
  set_byte ws i (Z.lxor (get_byte ws i) (byte_val (data !!! i))).

(** [for (size_t i = 0; i < toXor; i++)] *)
Definition xor_bytes (ws : list Z) (data : list byte) (toXor : nat) : list Z :=
  fold_left (xor_byte_at data) (seq 0 toXor) ws.

(** [std::memcpy(out + offset, reinterpret_cast<uint8_t*>(qs.state), toCopy)] *)
Definition copy_bytes (ws : list Z) (toCopy : nat) : list byte :=
  map (fun i => byte_of_Z (get_byte ws i)) (seq 0 toCopy).

Definition rateBytes : nat := 128.

(** *** qfAbsorb

    The loops carry, next to the state, the number of calls of
    [qfPermutation] made so far: the permutation counter that the test
    scenarios observe. *)

Equations? absorb_loop (qs : QFState) (data : list byte) (calls : nat)
  : QFState * nat by wf (length data) lt :=
absorb_loop qs data calls with decide (0 < length data)%nat => {
  | right _ := (qs, calls);
  | left _ with decide (length data < rateBytes)%nat => {
    | left _ :=
        (* toXor = len: a partial block, then break *)
        (mkQFState (xor_bytes (state qs) data (length data)) (absorbedBytes qs),
         calls);
    | right _ :=
        (* toXor = rateBytes: a full block, then the permutation *)
        let qs1 := mkQFState (xor_bytes (state qs) data rateBytes)
                             (absorbedBytes qs) in
        absorb_loop (qfPermutation qs1) (drop rateBytes data) (S calls) } }.
Proof.
  rewrite length_drop. unfold rateBytes in *. lia.
Qed.

Definition qfAbsorb_counted (qs : QFState) (data : list byte) : QFState * nat :=
  let qs0 := mkQFState (state qs)
                       (wrap64 (absorbedBytes qs + Z.of_nat (length data))) in
  absorb_loop qs0 data 0.

Definition qfAbsorb (qs : QFState) (data : list byte) : QFState :=
  fst (qfAbsorb_counted qs data).

(** *** qfSqueeze

    The result lists the bytes written to [out[0 .. outLen)], in order. *)

Equations? squeeze_loop (qs : QFState) (outLen : nat) (out : list byte)
  (calls : nat) : list byte * nat by wf outLen lt :=
squeeze_loop qs outLen out calls with decide (0 < outLen)%nat => {
  | right _ := (out, calls);
  | left _ :=
      let toCopy := if decide (outLen < rateBytes)%nat then outLen else rateBytes in
      let out1 := out ++ copy_bytes (state qs) toCopy in
      let outLen1 := (outLen - toCopy)%nat in
      if decide (0 < outLen1)%nat
      then squeeze_loop (qfPermutation qs) outLen1 out1 (S calls)
      else squeeze_loop qs outLen1 out1 calls }.
Proof.
  all: subst outLen1 toCopy; unfold rateBytes in *;
    destruct (decide (outLen < 128)%nat); lia.
Qed.

(** The caller's state is passed by const reference and copied; the
    function returns it next to the output and the call count. *)
Definition qfSqueeze_counted (qsConst : QFState) (outLen : nat)
  : QFState * list byte * nat :=
  let qs := qsConst in
  let qs := qfPermutation qs in
  let '(out, calls) := squeeze_loop qs outLen [] 1 in
  (qsConst, out, calls).

Definition qfSqueeze (qsConst : QFState) (outLen : nat) : list byte :=
  snd (fst (qfSqueeze_counted qsConst outLen)).

(** ** SelfHeal.h *)

Definition SNAP_WORDS : nat := 32.
Definition MAX_SNAPSHOTS : nat := 5.

Record StateSnapshot := mkSnapshot {
  snap_state : list Z;       (* uint64_t state[SNAP_WORDS] *)
  totalLen : Z;              (* uint64_t totalLen *)
  partialChecks : list Z;    (* uint64_t partialChecks[SNAP_WORDS] *)
  fullChecksum : Z;          (* uint64_t fullChecksum *)
  ephemeralKey : Z           (* uint64_t ephemeralKey *)
}.

#[global] Instance snapshot_inhabited : Inhabited StateSnapshot :=
  populate (mkSnapshot [] 0 [] 0 0).

Record SelfHealContext := mkContext {
  snapshots : list StateSnapshot;   (* StateSnapshot snapshots[MAX_SNAPSHOTS] *)
  currentIndex : Z;                 (* int *)
  shadowCopy : StateSnapshot;
  partialRepairs : Z;               (* int *)
  fullReverts : Z;                  (* int *)
  totalReinits : Z;                 (* int *)
  consecutiveAnomalies : Z          (* int *)
}.

(** Field assignments. *)
Definition set_snapshots (f : list StateSnapshot -> list StateSnapshot)
  (c : SelfHealContext) : SelfHealContext :=
  mkContext (f (snapshots c)) (currentIndex c) (shadowCopy c)
            (partialRepairs c) (fullReverts c) (totalReinits c)
            (consecutiveAnomalies c).
Definition set_currentIndex (v : Z) (c : SelfHealContext) : SelfHealContext :=
  mkContext (snapshots c) v (shadowCopy c)
            (partialRepairs c) (fullReverts c) (totalReinits c)
            (consecutiveAnomalies c).
Definition set_shadowCopy (v : StateSnapshot) (c : SelfHealContext) : SelfHealContext :=
  mkContext (snapshots c) (currentIndex c) v
            (partialRepairs c) (fullReverts c) (totalReinits c)
            (consecutiveAnomalies c).
Definition set_partialRepairs (v : Z) (c : SelfHealContext) : SelfHealContext :=
  mkContext (snapshots c) (currentIndex c) (shadowCopy c)
            v (fullReverts c) (totalReinits c) (consecutiveAnomalies c).
Definition set_fullReverts (v : Z) (c : SelfHealContext) : SelfHealContext :=
  mkContext (snapshots c) (currentIndex c) (shadowCopy c)
            (partialRepairs c) v (totalReinits c) (consecutiveAnomalies c).
Definition set_totalReinits (v : Z) (c : SelfHealContext) : SelfHealContext :=
  mkContext (snapshots c) (currentIndex c) (shadowCopy c)
            (partialRepairs c) (fullReverts c) v (consecutiveAnomalies c).
Definition set_consecutiveAnomalies (v : Z) (c : SelfHealContext) : SelfHealContext :=
  mkContext (snapshots c) (currentIndex c) (shadowCopy c)
            (partialRepairs c) (fullReverts c) (totalReinits c) v.

(** ** SelfHeal.cpp *)

Definition FNV_PRIME : Z := 0x100000001B3.

(** Body of the inner loop of [miniHash], on the pair [(hash, val)]. *)
Definition mix_byte (hv : Z * Z) (b : nat) : Z * Z :=
  let '(hash, val) := hv in
  let byteVal := Z.land val 0xFF in
  let hash := Z.lxor hash byteVal in
  let hash := wrap64 (hash * FNV_PRIME) in
  (hash, Z.shiftr val 8).

(** Body of the outer loop: the eight bytes of one word. *)
Definition mix_word (hash val : Z) : Z :=
  fst (fold_left mix_byte (seq 0 8) (hash, val)).

(** [miniHash(data, count, key)], with [data[0 .. count)] as a list. *)
Definition miniHash (data : list Z) (key : Z) : Z :=
  fold_left mix_word data (Z.lxor 0xcbf29ce484222325 key).

Definition fillChecksums (snap : StateSnapshot) : StateSnapshot :=
  let checks :=
    fold_left
      (fun pc i => <[i := miniHash [snap_state snap !!! i] (ephemeralKey snap)]> pc)
      (seq 0 8) (partialChecks snap) in
  let temp := map (fun i => snap_state snap !!! i) (seq 0 8) ++ [totalLen snap] in
  mkSnapshot (snap_state snap) (totalLen snap) checks
             (miniHash temp (ephemeralKey snap)) (ephemeralKey snap).

(** [createSnapshot] draws [ephemeral] from a process-wide generator and
    starts from an uninitialised local [snap]; both are arguments here. *)
Definition createSnapshot (ephemeral : Z) (snap : StateSnapshot) (qs : QFState)
  : StateSnapshot :=
  let snap := mkSnapshot (state qs)               (* memcpy of the 32 words *)
                         (absorbedBytes qs)
                         (partialChecks snap) (fullChecksum snap)
                         ephemeral in
  fillChecksums snap.

Definition validateSnapshot (qs : QFState) (snap : StateSnapshot) : bool :=
  if forallb (fun i => miniHash [state qs !!! i] (ephemeralKey snap)
                       =? partialChecks snap !!! i) (seq 0 8)
  then
    let temp := map (fun i => state qs !!! i) (seq 0 8) ++ [absorbedBytes qs] in
    miniHash temp (ephemeralKey snap) =? fullChecksum snap
  else false.

(** Body of the loop of [selfHealInit] that marks a ring slot as unused. *)
Definition clear_slot (ring : list StateSnapshot) (i : nat) : list StateSnapshot :=
  let s := ring !!! i in
  <[i := mkSnapshot (snap_state s) (totalLen s)
                    (replicate SNAP_WORDS 0) 0 0]> ring.

Definition selfHealInit (ctx : SelfHealContext) (ephemeral : Z)
  (uninit : StateSnapshot) (qs : QFState) : SelfHealContext :=
  let initialSnap := createSnapshot ephemeral uninit qs in
  let ring := <[0%nat := initialSnap]> (snapshots ctx) in
  let ring := fold_left clear_slot (seq 1 (MAX_SNAPSHOTS - 1)) ring in
  mkContext ring 0 initialSnap 0 0 0 0.

Definition selfHealSaveSnapshot (ctx : SelfHealContext) (ephemeral : Z)
  (uninit : StateSnapshot) (qs : QFState) : SelfHealContext :=
  let newSnap := createSnapshot ephemeral uninit qs in
  let idx := Z.rem (currentIndex ctx + 1) (Z.of_nat MAX_SNAPSHOTS) in
  let ctx := set_currentIndex idx ctx in
  let ctx := set_snapshots (fun ring => <[Z.to_nat idx := newSnap]> ring) ctx in
  set_shadowCopy newSnap ctx.

(** What the live state is validated against during a detection. *)
Inductive Probe :=
| ProbeShadow
| ProbeRing (i : nat).

Definition MAX_LEN : Z := Z.shiftl 1 48.

(** The ring scan of [selfHealDetect]: [true] when some slot validates;
    [seen] collects the slots passed to [validateSnapshot]. *)
Fixpoint detect_ring_scan (qs : QFState) (ctx : SelfHealContext)
  (slots : list nat) (seen : list Probe) : bool * list Probe :=
  match slots with
  | [] => (false, seen)
  | i :: rest =>
      if validateSnapshot qs (snapshots ctx !!! i)
      then (true, seen ++ [ProbeRing i])
      else detect_ring_scan qs ctx rest (seen ++ [ProbeRing i])
  end.

(** [selfHealDetect], with the snapshots it validated against.  The
    context is passed by reference but not written. *)
Definition selfHealDetect_probes (qs : QFState) (ctx : SelfHealContext)
  : bool * list Probe :=
  if validateSnapshot qs (shadowCopy ctx) then (false, [ProbeShadow])
  else if MAX_LEN <? absorbedBytes qs then (true, [ProbeShadow])
  else
    let '(found, seen) :=
      detect_ring_scan qs ctx (seq 0 MAX_SNAPSHOTS) [ProbeShadow] in
    (negb found, seen).

Definition selfHealDetect (qs : QFState) (ctx : SelfHealContext) : bool :=
  fst (selfHealDetect_probes qs ctx).

(** Part A of [selfHealAttemptRecovery]: body of the loop over the first
    eight words, on the pair [(qs, wordsFixed)]. *)
Definition partial_heal_at (shadow : StateSnapshot) (acc : QFState * Z) (i : nat)
  : QFState * Z :=
  let '(qs, wordsFixed) := acc in
  let wordHash := miniHash [state qs !!! i] (ephemeralKey shadow) in
  if negb (wordHash =? partialChecks shadow !!! i)
  then (mkQFState (<[i := snap_state shadow !!! i]> (state qs)) (absorbedBytes qs),
        wordsFixed + 1)
  else (qs, wordsFixed).

Definition partial_heal (qs : QFState) (ctx : SelfHealContext) : QFState * Z :=
  fold_left (partial_heal_at (shadowCopy ctx)) (seq 0 8) (qs, 0).

(** [*(reinterpret_cast<const QFState*>(&snap.state))]: the snapshot's 32
    words followed by its [totalLen], read as a [QFState]. *)
Definition snapshot_as_state (snap : StateSnapshot) : QFState :=
  mkQFState (snap_state snap) (totalLen snap).

(** Ring slot visited at step [i] of Part B. *)
Definition revert_slot (ctx : SelfHealContext) (i : nat) : nat :=
  Z.to_nat (Z.rem (currentIndex ctx - Z.of_nat i + Z.of_nat MAX_SNAPSHOTS)
                  (Z.of_nat MAX_SNAPSHOTS)).

(** Part B: the slot of the first snapshot that has a nonzero key and
    validates against itself, walking backward from [currentIndex]. *)
Fixpoint revert_scan (ctx : SelfHealContext) (steps : list nat) : option nat :=
  match steps with
  | [] => None
  | i :: rest =>
      let idx := revert_slot ctx i in
      let snap := snapshots ctx !!! idx in
      if ephemeralKey snap =? 0 then revert_scan ctx rest
      else if validateSnapshot (snapshot_as_state snap) snap then Some idx
      else revert_scan ctx rest
  end.

(** Whether Part A ends with a successful partial repair. *)
Definition partial_repair_succeeds (qs : QFState) (ctx : SelfHealContext) : bool :=
  let '(qs1, wordsFixed) := partial_heal qs ctx in
  (0 <? wordsFixed) && negb (selfHealDetect qs1 ctx).

Definition selfHealAttemptRecovery (qs : QFState) (ctx : SelfHealContext)
  (ephemeral : Z) (uninit : StateSnapshot)
  : bool * QFState * SelfHealContext :=
  let ctx := set_consecutiveAnomalies (consecutiveAnomalies ctx + 1) ctx in
  (* PART A *)
  let '(qs, wordsFixed) := partial_heal qs ctx in
  if (0 <? wordsFixed) && negb (selfHealDetect qs ctx) then
    let ctx := set_partialRepairs (partialRepairs ctx + 1) ctx in
    let ctx := selfHealSaveSnapshot ctx ephemeral uninit qs in
    let ctx := set_consecutiveAnomalies 0 ctx in
    (true, qs, ctx)
  else
    (* PART B *)
    match revert_scan ctx (seq 0 MAX_SNAPSHOTS) with
    | Some idx =>
        let snap := snapshots ctx !!! idx in
        let qs := mkQFState (snap_state snap) (totalLen snap) in
        let ctx := set_shadowCopy snap ctx in
        let ctx := set_fullReverts (fullReverts ctx + 1) ctx in
        let ctx := selfHealSaveSnapshot ctx ephemeral uninit qs in
        let ctx := set_consecutiveAnomalies 0 ctx in
        (true, qs, ctx)
    | None =>
        (* PART C *)
        let qs := qfInit qs in
        let ctx := selfHealInit ctx ephemeral uninit qs in
        let ctx := set_totalReinits (totalReinits ctx + 1) ctx in
        let ctx := set_consecutiveAnomalies 0 ctx in
        (false, qs, ctx)
    end.

(** An arbitrary content for memory that the program has not written:
    32 words and 32 tags per snapshot, five ring slots. *)
Definition blank_snapshot : StateSnapshot :=
  mkSnapshot (replicate SNAP_WORDS 0) 0 (replicate SNAP_WORDS 0) 0 0.

Definition blank_context : SelfHealContext :=
  mkContext (replicate MAX_SNAPSHOTS blank_snapshot) 0 blank_snapshot 0 0 0 0.

(** ** UniversalData.cpp *)

(** The byte order of the target, which [toLittleEndian64] tests at compile
    time, and in which [reinterpret_cast<uint64_t*>] reads a buffer. *)
Inductive ByteOrder :=
| LittleEndian
| BigEndian.

Definition toLittleEndian64 (order : ByteOrder) (x : Z) : Z :=
  match order with
  | BigEndian =>
      Z.lor (Z.lor (Z.lor (Z.lor (Z.lor (Z.lor (Z.lor
        (wrap64 (Z.shiftl (Z.land x 0x00000000000000FF) 56))
        (wrap64 (Z.shiftl (Z.land x 0x000000000000FF00) 40)))
        (wrap64 (Z.shiftl (Z.land x 0x0000000000FF0000) 24)))
        (wrap64 (Z.shiftl (Z.land x 0x00000000FF000000) 8)))
        (Z.shiftr (Z.land x 0x000000FF00000000) 8))
        (Z.shiftr (Z.land x 0x0000FF0000000000) 24))
        (Z.shiftr (Z.land x 0x00FF000000000000) 40))
        (Z.shiftr (Z.land x 0xFF00000000000000) 56)
  | LittleEndian => x
  end.

(** Bit position of byte [k] of a word in memory. *)
Definition octet_shift (order : ByteOrder) (k : nat) : Z :=
  match order with
  | LittleEndian => 8 * Z.of_nat k
  | BigEndian => 8 * (7 - Z.of_nat k)
  end.

(** Byte [k], in memory order, of the word [x]. *)
Definition octet (order : ByteOrder) (x : Z) (k : nat) : Z :=
  Z.land (Z.shiftr x (octet_shift order k)) 0xFF.

(** [words[i]], read and written, for
    [words = reinterpret_cast<uint64_t*>(out.data())]. *)
Definition load_word (order : ByteOrder) (buf : list byte) (i : nat) : Z :=
  fold_left
    (fun acc k =>
       Z.lor acc (Z.shiftl (byte_val (buf !!! (8 * i + k)%nat)) (octet_shift order k)))
    (seq 0 8) 0.

Definition store_word (order : ByteOrder) (buf : list byte) (i : nat) (x : Z)
  : list byte :=
  fold_left (fun b k => <[(8 * i + k)%nat := byte_of_Z (octet order x k)]> b)
            (seq 0 8) buf.

(** The result is the content of [out]. *)
Definition ensureLittleEndianBuffer (order : ByteOrder) (srcData : list byte)
  : list byte :=
  let lengthBytes := length srcData in
  let out := srcData in                      (* resize, memcpy *)
  if decide (lengthBytes mod 8 = 0)%nat then
    let wordCount := (lengthBytes / 8)%nat in
    fold_left
      (fun out i => store_word order out i (toLittleEndian64 order (load_word order out i)))
      (seq 0 wordCount) out
  else out.

(** The sponge above views the bytes of the state least significant first:
    it is the sponge of a little-endian target, and so are the functions
    that feed it. *)
Definition processRaw (qs : QFState) (data : list byte) : QFState :=
  let buffer := ensureLittleEndianBuffer LittleEndian data in
  qfAbsorb qs buffer.

(** The eight bytes of a [uint64_t] object ([&strLen], [&vsize]). *)
Definition object_bytes (x : Z) : list byte :=
  map (fun k => byte_of_Z (octet LittleEndian x k)) (seq 0 8).

Definition processString (qs : QFState) (str : list byte) : QFState :=
  let strLen := wrap64 (Z.of_nat (length str)) in
  let qs := processRaw qs (object_bytes strLen) in
  processRaw qs str.

Definition processBytes (qs : QFState) (data : list byte) : QFState :=
  let vsize := wrap64 (Z.of_nat (length data)) in
  let qs := processRaw qs (object_bytes vsize) in
  processRaw qs data.

(** The loop of [processFile] on the part of the file not read yet: a read
    of [chunkSize] bytes delivers what is left when less is left, and then
    sets the end-of-file and fail bits. *)
Equations? read_loop (chunkSize : nat) (qs : QFState) (rest : list byte)
  : QFState by wf (length rest) lt :=
read_loop chunkSize qs rest :=
  let chunk := take chunkSize rest in
  let bytesRead := length chunk in
  match decide (bytesRead <= 0)%nat with
  | left _ => qs
  | right _ =>
      let qs1 := processRaw qs chunk in
      match decide (bytesRead < chunkSize)%nat with
      | left _ => qs1                                          (* !file *)
      | right _ => read_loop chunkSize qs1 (drop chunkSize rest)
      end
  end.
Proof.
  subst bytesRead chunk. rewrite length_take in *. rewrite length_drop. lia.
Qed.

(** [file] is the content of the file of that name, [None] when it cannot
    be opened. *)
Definition processFile (qs : QFState) (file : option (list byte))
  (chunkSize : nat) : bool * QFState :=
  match file with
  | None => (false, qs)
  | Some contents => (true, read_loop chunkSize qs contents)
  end.

(** ** Performance.cpp *)

(** The two builds of [speedOptimize]: with [__AVX2__] defined, and the
    scalar fallback. *)
Inductive Build :=
| AVX2
| Scalar.

Definition MAGIC : list Z :=
  [0xA5A5A5A5A5A5A5A5; 0x5A5A5A5A5A5A5A5A; 0xFFFFFFFF00000000; 0x12345678DEADBEEF].

Definition MAGIC_SCALAR : list Z :=
  [0xA5A5A5A5A5A5A5A5; 0x5A5A5A5A5A5A5A5A; 0xFFFFFFFF00000000; 0x12345678DEADBEEF].

(** A 256-bit vector is the list of its four 64-bit lanes. *)
Definition loadu_si256 (p : list Z) (i : nat) : list Z :=
  map (fun k => p !!! (i + k)%nat) (seq 0 4).

Definition storeu_si256 (p : list Z) (i : nat) (v : list Z) : list Z :=
  fold_left (fun p k => <[(i + k)%nat := v !!! k]> p) (seq 0 4) p.

Definition xor_si256 (a b : list Z) : list Z := zip_with Z.lxor a b.

Definition slli_epi64 (a : list Z) (count : Z) : list Z :=
  map (fun x => wrap64 (Z.shiftl x count)) a.

(** Body of the loop of the AVX2 path, at word index [i]. *)
Definition speed_avx2_at (ws : list Z) (i : nat) : list Z :=
  let currentVec := loadu_si256 ws i in
  let magicVec := loadu_si256 MAGIC 0 in
  let xoredVec := xor_si256 currentVec magicVec in
  let shiftedLeft := slli_epi64 xoredVec 1 in
  let finalVec := xor_si256 xoredVec shiftedLeft in
  storeu_si256 ws i finalVec.

(** Body of the loop of the scalar path. *)
Definition speed_scalar_at (ws : list Z) (i : nat) : list Z :=
  let ws := <[i := Z.lxor (ws !!! i) (MAGIC_SCALAR !!! (i mod 4)%nat)]> ws in
  let val := ws !!! i in
  <[i := Z.lxor (wrap64 (Z.shiftl val 1)) val]> ws.

Definition speedOptimize (build : Build) (qs : QFState) : QFState :=
  let ws :=
    match build with
    | AVX2 =>
        (* for (int i = 0; i < 32; i += 4) *)
        fold_left speed_avx2_at (map (fun k => (4 * k)%nat) (seq 0 8)) (state qs)
    | Scalar =>
        fold_left speed_scalar_at (seq 0 32) (state qs)
    end in
  mkQFState ws (Z.lxor (absorbedBytes qs) 0xABCDEF).

(** ** main.cpp *)

#[global] Instance byte_eq_decision : EqDecision byte := byte_eq_dec.

(** What the program takes from its environment: the files it can open, by
    name, with their content; the bytes waiting on the standard input; the
    values that the key generator delivers, in order; the content of the
    uninitialised locals [fortress], [healCtx] and of the local [snap] of
    each call of [createSnapshot]; and the build of [speedOptimize]. *)
Record Environment := mkEnvironment {
  open_file : list byte -> option (list byte);
  stdin : list byte;
  minted_key : nat -> Z;
  stack_snapshot : nat -> StateSnapshot;
  stack_state : QFState;
  stack_context : SelfHealContext;
  build : Build
}.

(** [std::cin.ignore(max, '\n')]: discards the input up to and including
    the first newline; [None] when the input ends before one, which sets the
    end-of-file bit. *)
Fixpoint cin_ignore (input : list byte) : option (list byte) :=
  match input with
  | [] => None
  | b :: rest => if decide (b = x0a) then Some rest else cin_ignore rest
  end.

(** The characters that [std::getline] stores: those before the next
    newline or the end of the input. *)
Fixpoint line_of (input : list byte) : list byte :=
  match input with
  | [] => []
  | b :: rest => if decide (b = x0a) then [] else b :: line_of rest
  end.

(** [std::getline(std::cin, fallbackInput)] after the [ignore]: it fails
    on a stream at end of file, and when it can extract nothing. *)
Definition getline_after_ignore (input : list byte) : option (list byte) :=
  match cin_ignore input with
  | None => None
  | Some [] => None
  | Some rest => Some (line_of rest)
  end.

Definition mode_file : list byte := [x66; x69; x6c; x65].
Definition mode_string : list byte := [x73; x74; x72; x69; x6e; x67].

(** [for (int i = 2; i < argc; i++)]: the arguments joined by spaces. *)
Definition join_arguments (argv : list (list byte)) : list byte :=
  fold_left
    (fun inputData i =>
       let inputData := if decide (2 < i)%nat then inputData ++ [x20] else inputData in
       inputData ++ argv !!! i)
    (seq 2 (length argv - 2)) [].

(** Part 2 of [main]: the state after the input has been ingested, [None]
    where [main] returns [EXIT_FAILURE]. *)
Definition ingest (env : Environment) (fortress : QFState)
  (argv : list (list byte)) : option QFState :=
  let argc := length argv in
  if decide (argc < 2)%nat then None
  else
    let mode := argv !!! 1%nat in
    if decide (mode = mode_file) then
      if decide (argc < 3)%nat then None
      else
        let filename := argv !!! 2%nat in
        match open_file env filename with
        | None =>                                    (* !testFile.good() *)
            match getline_after_ignore (stdin env) with
            | None => None
            | Some fallbackInput => Some (processString fortress fallbackInput)
            end
        | Some _ =>
            let '(ok, fortress) :=
              processFile fortress (open_file env filename) 4096 in
            if negb ok then None else Some fortress
        end
    else if decide (mode = mode_string) then
      if decide (argc < 3)%nat then None
      else Some (processString fortress (join_arguments argv))
    else None.

Inductive Outcome :=
| ExitFailure
| ExitSuccess (digest : list byte) (fortress : QFState) (healCtx : SelfHealContext).

Definition main (env : Environment) (argv : list (list byte)) : Outcome :=
  let fortress := qfInit (stack_state env) in
  let healCtx :=
    selfHealInit (stack_context env) (minted_key env 0) (stack_snapshot env 0)
                 fortress in
  match ingest env fortress argv with
  | None => ExitFailure
  | Some fortress =>
      let healCtx :=
        selfHealSaveSnapshot healCtx (minted_key env 1) (stack_snapshot env 1)
                             fortress in
      let '(fortress, healCtx) :=
        if selfHealDetect fortress healCtx then
          let '(recovered, fortress, healCtx) :=
            selfHealAttemptRecovery fortress healCtx
              (minted_key env 2) (stack_snapshot env 2) in
          (fortress, healCtx)
        else (fortress, healCtx) in
      let fortress := speedOptimize (build env) fortress in
      let digest := qfSqueeze fortress 64 in
      ExitSuccess digest fortress healCtx
  end.

(** ** Derived notions used to state the properties *)

(** Which of the three parts of [selfHealAttemptRecovery] ends the call. *)
Inductive RecoveryPath :=
| PartialRepair
| FullRevert (idx : nat)
| Reinitialize.

Definition recovery_path (qs : QFState) (ctx : SelfHealContext) : RecoveryPath :=
  if partial_repair_succeeds qs ctx then PartialRepair
  else match revert_scan ctx (seq 0 MAX_SNAPSHOTS) with
       | Some idx => FullRevert idx
       | None => Reinitialize
       end.

(** The pairs [(round, i)] visited by step 2 of the permutation. *)
Definition pair_mix_sites : list (nat * nat) :=
  flat_map (fun round => map (fun i => (round, i)) even_indices) (seq 0 24).

(** The pairs [(round, i)] visited by step 3 of the permutation. *)
Definition lane_mix_sites : list (nat * nat) :=
  flat_map (fun round => map (fun i => (round, i)) (seq 0 32)) (seq 0 24).

(** Positions [i < j] of the round-constant table that hold the same value. *)
Definition constant_coincidences : list (nat * nat) :=
  filter (fun p => bool_decide (ROUND_CONSTANTS !!! p.1 = ROUND_CONSTANTS !!! p.2))
    (flat_map (fun i => map (fun j => (i, j)) (seq (S i) (24 - S i))) (seq 0 24)).

(** A freshly initialised state and context, and corruptions of them. *)
Definition fresh_state : QFState := qfInit (mkQFState [] 0).

Definition fresh_context : SelfHealContext :=
  selfHealInit blank_context 1 blank_snapshot fresh_state.

(** The fresh state with word 8 and the byte counter overwritten: the first
    eight words still carry their tags, the combined tag no longer matches. *)
Definition corrupted_tail_state : QFState :=
  mkQFState (<[8%nat := 5]> (state fresh_state)) 7.

(** The fresh state with word 0 overwritten. *)
Definition corrupted_word0_state : QFState :=
  mkQFState (<[0%nat := 5]> (state fresh_state)) 0.

(** The fresh state with its first eight words and the byte counter
    overwritten. *)
Definition corrupted_head_state : QFState :=
  mkQFState (replicate 8 9 ++ drop 8 (state fresh_state)) 7.

(** A ring whose key fields have all been overwritten with 0. *)
Definition wipe_keys (ctx : SelfHealContext) : SelfHealContext :=
  set_snapshots
    (map (fun s => mkSnapshot (snap_state s) (totalLen s) (partialChecks s)
                              (fullChecksum s) 0))
    ctx.

(** The context after a full revert of [corrupted_tail_state]. *)
Definition reverted_context : SelfHealContext :=
  (selfHealAttemptRecovery corrupted_tail_state fresh_context 2 blank_snapshot).2.

(** Byte [j] of an output stream that reads the rate window of [qs] and
    permutes after every 128 bytes: byte [j mod 128] of the state after
    [j / 128] permutations. *)
Definition stream_byte (qs : QFState) (j : nat) : byte :=
  byte_of_Z (get_byte (state (Nat.iter (j / 128) qfPermutation qs)) (j mod 128)).

(** *** The permutation, as the specification describes it *)

(** Rotation of a 64-bit word by [n] positions to the left. *)
Definition rotateLeft (x n : Z) : Z := (x * 2 ^ n) mod 2 ^ 64 + x / 2 ^ (64 - n).

(** Step 1: the round constant goes into word [r mod 32]. *)
Definition inject_spec (r : nat) (ws : list Z) : list Z :=
  imap (fun j w => if decide (j = r mod 32)%nat
                   then Z.lxor w (ROUND_CONSTANTS !!! r) else w) ws.

(** Step 2: the words taken two at a time, [i] being the index of the
    first word of the pair; [b] is computed from the new [a]. *)
Fixpoint mix_pairs (r i : nat) (ws : list Z) : list Z :=
  match ws with
  | x :: y :: rest =>
      let a := rotateLeft (Z.lxor x y) (Z.of_nat ((i + r) mod 63)) in
      let b := rotateLeft (Z.lxor y a) (Z.of_nat ((3 * i + r) mod 59)) in
      a :: b :: mix_pairs r (i + 2) rest
  | _ => ws
  end.

(** Step 3 in closed form: words 0 to 26 read a word five places ahead,
    which the ascending pass has not reached yet; words 27 to 31 read one
    of the words 0 to 4, which the pass has already rewritten. *)
Definition mix_lanes (r : nat) (ws : list Z) : list Z :=
  let front :=
    map (fun i => Z.lxor (ws !!! i)
                    (rotateLeft (ws !!! (i + 5)%nat)
                                (Z.of_nat ((i + r) mod 7) + 1)))
        (seq 0 27) in
  front ++
  map (fun i => Z.lxor (ws !!! i)
                  (rotateLeft (front !!! (i - 27)%nat)
                              (Z.of_nat ((i + r) mod 7) + 1)))
      (seq 27 5).

Definition round_spec (ws : list Z) (r : nat) : list Z :=
  mix_lanes r (mix_pairs r 0 (inject_spec r ws)).

Definition permute_spec (ws : list Z) : list Z :=
  fold_left round_spec (seq 0 24) ws.

(** *** The sponge, block by block *)

Definition u8 (z : Z) : Prop := 0 <= z < 256.

(** XOR of one window of input into the front of the state bytes. *)
Definition xor_window (qs : QFState) (chunk : list byte) : QFState :=
  mkQFState (xor_bytes (state qs) chunk (length chunk)) (absorbedBytes qs).

(** A full window: the XOR, then the permutation. *)
Definition absorb_block (qs : QFState) (block : list byte) : QFState :=
  qfPermutation (xor_window qs block).

(** The full 128-byte windows of an input, in order, and what follows the
    last of them. *)
Definition full_windows (data : list byte) : list (list byte) :=
  map (fun k => take rateBytes (drop (rateBytes * k) data))
      (seq 0 (length data / rateBytes)).

Definition last_window (data : list byte) : list byte :=
  drop (rateBytes * (length data / rateBytes)) data.

(** Writing byte lane [s / 8] of a word: the lane reads back the byte, the
    other lanes are unchanged. *)
Definition put_lane (w s v : Z) : Z :=
  Z.lor (Z.land w (Z.lnot (Z.shiftl 0xFF s))) (Z.shiftl v s).

(** A state as the type [QFState] has it: 32 words of 64 bits and a 64-bit
    counter. *)
Definition state_wf (qs : QFState) : Prop :=
  length (state qs) = STATE_WORDS /\
  Forall u64 (state qs) /\
  u64 (absorbedBytes qs).

(** A context as the type [SelfHealContext] has it: five ring slots, and a
    ring index that designates one of them.  Outside of that the source
    indexes outside [ctx.snapshots], which C++ leaves undefined. *)
Definition context_wf (ctx : SelfHealContext) : Prop :=
  length (snapshots ctx) = MAX_SNAPSHOTS /\
  0 <= currentIndex ctx < Z.of_nat MAX_SNAPSHOTS.

(** The scans of [selfHealAttemptRecovery] read the ring, the ring index and
    the shadow copy, and no counter. *)
Definition same_snapshots (c1 c2 : SelfHealContext) : Prop :=
  snapshots c1 = snapshots c2 /\
  currentIndex c1 = currentIndex c2 /\
  shadowCopy c1 = shadowCopy c2.

(** The state [qs] with its byte counter replaced by [a]. *)
Definition with_counter (a : Z) (qs : QFState) : QFState :=
  mkQFState (state qs) a.

(** Byte [j] of an input, 0 beyond its end. *)
Definition byte_or_zero (data : list byte) (j : nat) : Z :=
  if decide (j < length data)%nat then byte_val (data !!! j) else 0.

(** *** The permutation, undone *)

(** Rotation of a 64-bit word by [n] positions to the right. *)
Definition rotr64 (x : Z) (n : Z) : Z :=
  Z.lor (Z.shiftr x n) (wrap64 (Z.shiftl x (64 - n))).

(** Step 2 undone at index [i]: [b] from the new pair, then [a] from [b]. *)
Definition unpair_mix_at (round : nat) (ws : list Z) (i : nat) : list Z :=
  let a' := ws !!! i in
  let b' := ws !!! (i + 1)%nat in
  let b := Z.lxor (rotr64 b' (pair_rot_b i round)) a' in
  let a := Z.lxor (rotr64 a' (pair_rot_a i round)) b in
  <[(i + 1)%nat := b]> (<[i := a]> ws).

(** A round undone: step 3 from index 31 down to 0, then step 2, then the
    round constant once more. *)
Definition qfRound_inverse (ws : list Z) (round : nat) : list Z :=
  inject_constant round
    (fold_left (unpair_mix_at round) (rev even_indices)
       (fold_left (lane_mix_at round) (rev (seq 0 32)) ws)).

Definition qfPermutation_inverse (qs : QFState) : QFState :=
  mkQFState (fold_left qfRound_inverse (rev (seq 0 24)) (state qs))
            (absorbedBytes qs).

(** The 32 words of a well-formed state. *)
Definition words_wf (ws : list Z) : Prop :=
  length ws = STATE_WORDS /\ Forall u64 ws.

(** *** Sequences of saves *)

(** One call of [selfHealSaveSnapshot]: the minted key, the uninitialised
    local and the state saved. *)
Definition SaveCall : Type := Z * StateSnapshot * QFState.

Definition save_call (ctx : SelfHealContext) (c : SaveCall) : SelfHealContext :=
  selfHealSaveSnapshot ctx c.1.1 c.1.2 c.2.

Definition snapshot_of (c : SaveCall) : StateSnapshot :=
  createSnapshot c.1.1 c.1.2 c.2.

(** Two states that agree on what the tags cover: the first eight words
    and the byte counter. *)
Definition same_covered (qs qs' : QFState) : Prop :=
  (forall i : nat, (i < 8)%nat -> state qs !!! i = state qs' !!! i) /\
  absorbedBytes qs = absorbedBytes qs'.

(** Whether word [i] of the live state fails the shadow copy's tag, the
    test of Part A of [selfHealAttemptRecovery]. *)
Definition word_suspect (shadow : StateSnapshot) (qs : QFState) (i : nat) : bool :=
  negb (miniHash [state qs !!! i] (ephemeralKey shadow) =? partialChecks shadow !!! i).

(** 64-bit FNV-1a over a sequence of byte values, from the basis [h]:
    XOR the byte in, multiply by the FNV prime modulo 2^64. *)
Definition fnv1a (h : Z) (octets : list Z) : Z :=
  fold_left (fun h b => wrap64 (Z.lxor h b * FNV_PRIME)) octets h.

(** The eight byte values of a word, least significant first. *)
Definition word_octets (x : Z) : list Z :=
  map (fun k => Z.land (Z.shiftr x (8 * Z.of_nat k)) 0xFF) (seq 0 8).

(** What [speedOptimize] makes of word [i] holding [w]. *)
Definition speed_word (i : nat) (w : Z) : Z :=
  let v := Z.lxor w (MAGIC !!! (i mod 4)%nat) in
  Z.lxor v (wrap64 (Z.shiftl v 1)).

(** The digest that a run prints. *)
Definition printed_digest (o : Outcome) : option (list byte) :=
  match o with
  | ExitFailure => None
  | ExitSuccess digest _ _ => Some digest
  end.

(** An environment with one file, for the examples. *)
Definition sample_environment : Environment :=
  mkEnvironment
    (fun name => if decide (name = [x61]) then Some [x62; x63] else None)
    [x0a; x68; x69; x0a]
    (fun k => Z.of_nat k + 1)
    (fun _ => blank_snapshot)
    (mkQFState (replicate STATE_WORDS 0) 0)
    blank_context
    Scalar.

(** * Properties *)

(** ** Generic facts about lists and folds *)

Lemma map_is_fmap {A B} (f : A -> B) (l : list A) : map f l = f <$> l.
Proof. reflexivity. Qed.

Lemma fold_left_step {A B} (f : A -> B -> A) (b : B) (l : list B) (a : A) :
  fold_left f (b :: l) a = fold_left f l (f a b).
Proof. reflexivity. Qed.

Lemma fold_left_invariant {A B} (P : A -> Prop) (f : A -> B -> A) (l : list B) (a : A) :
  (forall a b, P a -> P (f a b)) -> P a -> P (fold_left f l a).
Proof.
  intros Hstep. revert a. induction l as [|b l IH]; intros a Ha; cbn; auto.
Qed.

Lemma lookup_total_map_seq {B} `{!Inhabited B} (f : nat -> B) (j n i : nat) :
  (i < n)%nat -> map f (seq j n) !!! i = f (j + i)%nat.
Proof.
  intros Hi. apply list_lookup_total_correct.
  rewrite map_is_fmap, list_lookup_fmap, lookup_seq_lt by exact Hi. reflexivity.
Qed.

(** ** 64-bit words and bytes *)

Lemma u64_wrap64 z : u64 (wrap64 z).
Proof. unfold u64, wrap64. apply Z.mod_pos_bound. lia. Qed.

Lemma u64_wrap64_id z : u64 z -> wrap64 z = z.
Proof. unfold u64, wrap64. intros. apply Z.mod_small. lia. Qed.

Lemma u64_testbit_high z i : u64 z -> 64 <= i -> Z.testbit z i = false.
Proof.
  intros Hz Hi. rewrite <- (u64_wrap64_id z Hz). unfold wrap64.
  apply Z.mod_pow2_bits_high. lia.
Qed.

Lemma u64_lxor a b : u64 a -> u64 b -> u64 (Z.lxor a b).
Proof.
  intros Ha Hb.
  replace (Z.lxor a b) with (wrap64 (Z.lxor a b)); [apply u64_wrap64 |].
  unfold wrap64. Z.bitblast.
  rewrite (u64_testbit_high a), (u64_testbit_high b) by (assumption || lia). reflexivity.
Qed.

Lemma u64_lor a b : u64 a -> u64 b -> u64 (Z.lor a b).
Proof.
  intros Ha Hb.
  replace (Z.lor a b) with (wrap64 (Z.lor a b)); [apply u64_wrap64 |].
  unfold wrap64. Z.bitblast.
  rewrite (u64_testbit_high a), (u64_testbit_high b) by (assumption || lia). reflexivity.
Qed.

Lemma u64_shiftr x n : u64 x -> 0 <= n -> u64 (Z.shiftr x n).
Proof.
  unfold u64. intros Hx Hn. rewrite Z.shiftr_div_pow2 by lia.
  assert (0 < 2 ^ n) by (apply Z.pow_pos_nonneg; lia).
  split; [apply Z.div_pos; lia |].
  apply Z.le_lt_trans with x; [| lia].
  apply Z.div_le_upper_bound; nia.
Qed.

Lemma rotl64_u64 x n : u64 x -> 0 <= n <= 64 -> u64 (rotl64 x n).
Proof.
  intros Hx Hn. unfold rotl64.
  apply u64_lor; [apply u64_wrap64 | apply u64_shiftr; [assumption | lia]].
Qed.

Lemma rotl64_rotateLeft x n : u64 x -> 0 <= n < 64 -> rotl64 x n = rotateLeft x n.
Proof.
  intros Hx Hn. unfold rotl64, rotateLeft, wrap64.
  rewrite Z.shiftl_mul_pow2, Z.shiftr_div_pow2 by lia.
  apply Z.or_to_plus.
  apply Z.bits_inj'. intros i Hi.
  rewrite Z.land_spec, Z.bits_0.
  rewrite Z.testbit_mod_pow2 by lia.
  rewrite Z.div_pow2_bits by lia.
  rewrite <- Z.shiftl_mul_pow2 by lia.
  destruct (Z.ltb_spec i 64) as [Hlt | Hge]; cbn [andb]; [| reflexivity].
  destruct (Z.ltb_spec i n) as [Hin | Hin].
  - rewrite Z.shiftl_spec_low by lia. reflexivity.
  - rewrite (u64_testbit_high x (i + (64 - n))) by (assumption || lia).
    apply andb_false_r.
Qed.

(** [rotateLeft] moves bit [i - n] (counted modulo 64) to position [i]. *)
Lemma rotateLeft_testbit (x n i : Z) :
  u64 x -> 0 <= n < 64 -> 0 <= i < 64 ->
  Z.testbit (rotateLeft x n) i = Z.testbit x ((i - n) mod 64).
Proof.
  intros Hx Hn Hi. rewrite <- rotl64_rotateLeft by assumption.
  unfold rotl64, wrap64.
  rewrite Z.lor_spec, Z.testbit_mod_pow2, Z.shiftr_spec, Z.shiftl_spec by lia.
  replace (i <? 64) with true by (symmetry; apply Z.ltb_lt; lia). cbn [andb].
  destruct (Z_lt_le_dec i n) as [Hin | Hin].
  - rewrite (Z.testbit_neg_r x (i - n)) by lia. cbn [orb].
    f_equal. lia.
  - rewrite (u64_testbit_high x (i + (64 - n))) by (assumption || lia).
    rewrite orb_false_r. f_equal. lia.
Qed.

Lemma u64_lookup (ws : list Z) (i : nat) : Forall u64 ws -> u64 (ws !!! i).
Proof.
  intros Hws. destruct (decide (i < length ws)%nat) as [Hi | Hi].
  - apply Forall_lookup_total_1; assumption.
  - rewrite list_lookup_total_alt, lookup_ge_None_2 by lia.
    cbn. unfold u64. lia.
Qed.

Lemma pair_rot_a_range i r : 0 <= pair_rot_a i r < 64.
Proof. unfold pair_rot_a. lia. Qed.
Lemma pair_rot_b_range i r : 0 <= pair_rot_b i r < 64.
Proof. unfold pair_rot_b. lia. Qed.
Lemma lane_rot_lt_64 i r : 0 <= lane_rot i r < 64.
Proof. unfold lane_rot. lia. Qed.

Lemma byte_val_u8 (b : byte) : u8 (byte_val b).
Proof.
  unfold u8, byte_val. pose proof (Byte.to_N_bounded b). lia.
Qed.

Lemma u8_land_255 (z : Z) : u8 (Z.land z 0xFF).
Proof.
  unfold u8. change 0xFF with (Z.ones 8). rewrite Z.land_ones by lia.
  apply Z.mod_pos_bound. lia.
Qed.

Lemma u8_testbit_high z i : u8 z -> 8 <= i -> Z.testbit z i = false.
Proof.
  intros Hz Hi. rewrite <- (Z.mod_small z (2 ^ 8)) by (unfold u8 in Hz; lia).
  apply Z.mod_pow2_bits_high. lia.
Qed.

Lemma u8_lxor a b : u8 a -> u8 b -> u8 (Z.lxor a b).
Proof.
  intros Ha Hb.
  replace (Z.lxor a b) with (Z.land (Z.lxor a b) 0xFF); [apply u8_land_255 |].
  change 0xFF with (Z.ones 8). Z.bitblast.
  rewrite (u8_testbit_high a), (u8_testbit_high b) by (assumption || lia). reflexivity.
Qed.

(** ** Round constants *)

Lemma ROUND_CONSTANTS_length : length ROUND_CONSTANTS = 24%nat.
Proof. reflexivity. Qed.

Lemma ROUND_CONSTANTS_u64 : Forall u64 ROUND_CONSTANTS.
Proof. unfold u64. repeat constructor; cbn; lia. Qed.

Lemma constant_coincidences_eq : constant_coincidences = [(5, 22); (6, 20)]%nat.
Proof. vm_compute. reflexivity. Qed.

Lemma constant_coincidences_complete (i j : nat) :
  (i < j < 24)%nat ->
  ROUND_CONSTANTS !!! i = ROUND_CONSTANTS !!! j ->
  (i, j) ∈ constant_coincidences.
Proof.
  intros Hij Heq. unfold constant_coincidences.
  apply list_elem_of_filter. split.
  - apply bool_decide_pack. exact Heq.
  - apply list_elem_of_In, in_flat_map. exists i. split.
    + apply in_seq. lia.
    + apply in_map_iff. exists j. split; [reflexivity | apply in_seq; lia].
Qed.

(** C9, as stated, fails: entries 5 and 22 of the table are the same value. *)
Lemma ROUND_CONSTANTS_repeat : ~ NoDup ROUND_CONSTANTS.
Proof.
  intros Hnd. rewrite NoDup_alt in Hnd.
  specialize (Hnd 5%nat 22%nat 0x0000000080000001 eq_refl eq_refl). lia.
Qed.

(** C9 (amended): the table has 24 entries, all 64-bit; 22 values are
    distinct; entries 5 and 22 coincide and entries 6 and 20 coincide, and no
    other two entries are equal. *)
Theorem ROUND_CONSTANTS_distinct_up_to_two_pairs (i j : nat) (Hij : (i < j < 24)%nat) :
  length ROUND_CONSTANTS = 24%nat /\
  Forall u64 ROUND_CONSTANTS /\
  length (remove_dups ROUND_CONSTANTS) = 22%nat /\
  (ROUND_CONSTANTS !!! i = ROUND_CONSTANTS !!! j <->
   (i = 5 /\ j = 22)%nat \/ (i = 6 /\ j = 20)%nat).
Proof.
  split; [apply ROUND_CONSTANTS_length |].
  split; [apply ROUND_CONSTANTS_u64 |].
  split; [vm_compute; reflexivity |].
  split.
  - intros Heq.
    pose proof (constant_coincidences_complete i j Hij Heq) as Hin.
    rewrite constant_coincidences_eq in Hin.
    apply list_elem_of_In in Hin. simpl in Hin.
    destruct Hin as [H | [H | []]]; inversion H; lia.
  - intros [[-> ->] | [-> ->]]; reflexivity.
Qed.

Lemma ROUND_CONSTANTS_distinct_up_to_two_pairs_witness :
  (5 < 22 < 24)%nat /\
  (ROUND_CONSTANTS !!! 5%nat = ROUND_CONSTANTS !!! 22%nat <->
   (5 = 5 /\ 22 = 22)%nat \/ (5 = 6 /\ 22 = 20)%nat).
Proof.
  split; [lia |].
  apply (ROUND_CONSTANTS_distinct_up_to_two_pairs 5 22). lia.
Defined.

(** ** Rotation counts *)

(** Step 3 adds one to its rotation count, which therefore lies in [1, 7]. *)
Lemma lane_rot_range (i round : nat) : 1 <= lane_rot i round <= 7.
Proof.
  unfold lane_rot.
  pose proof (Nat.mod_upper_bound (i + round) 7). lia.
Qed.

(** C10 fails on the code: in round 0 the pair at [i = 0] is rotated by
    [(0 + 0) % 63 = 0] and by [(0 * 3 + 0) % 59 = 0], so [rotl64] shifts
    right by 64; the count [(i * 3 + round) % 59] is zero at four more
    sites.  Step 3, which adds one to its count, never does this. *)
Theorem pair_mix_rotates_by_zero :
  pair_rot_a 0 0 = 0 /\
  rotl64_right_shift (pair_rot_a 0 0) = 64 /\
  filter (fun p => bool_decide (pair_rot_a p.2 p.1 = 0)) pair_mix_sites
    = [(0, 0)]%nat /\
  filter (fun p => bool_decide (pair_rot_b p.2 p.1 = 0)) pair_mix_sites
    = [(0, 0); (5, 18); (11, 16); (17, 14); (23, 12)]%nat /\
  filter (fun p => bool_decide (lane_rot p.2 p.1 = 0)) lane_mix_sites = [].
Proof. vm_compute. repeat split. Qed.

(** ** The permutation *)

(** *** Step 1: the round constant *)
Lemma inject_constant_spec r ws : inject_constant r ws = inject_spec r ws.
Proof.
  unfold inject_constant, inject_spec, STATE_WORDS.
  generalize (r mod 32)%nat. intros k.
  apply list_eq. intros j.
  rewrite list_lookup_imap.
  destruct (decide (j = k)) as [-> | Hne].
  - destruct (ws !! k) as [w|] eqn:Hw.
    + rewrite list_lookup_insert_eq by (eapply lookup_lt_Some; eauto).
      rewrite (list_lookup_total_correct _ _ _ Hw).
      reflexivity.
    + rewrite list_insert_ge by (apply lookup_ge_None; assumption).
      rewrite Hw. reflexivity.
  - rewrite list_lookup_insert_ne by congruence.
    destruct (ws !! j); reflexivity.
Qed.

Lemma inject_constant_length r ws : length (inject_constant r ws) = length ws.
Proof. apply length_insert. Qed.

Lemma inject_constant_u64 r ws : Forall u64 ws -> Forall u64 (inject_constant r ws).
Proof.
  intros Hws. apply Forall_insert; [assumption |].
  apply u64_lxor; [apply u64_lookup; assumption |].
  apply u64_lookup, ROUND_CONSTANTS_u64.
Qed.

(** *** Step 2: the pairs *)
Lemma pair_mix_at_length r ws i : length (pair_mix_at r ws i) = length ws.
Proof. unfold pair_mix_at. rewrite !length_insert. reflexivity. Qed.

Lemma pair_mix_at_u64 r ws i : Forall u64 ws -> Forall u64 (pair_mix_at r ws i).
Proof.
  intros Hws. unfold pair_mix_at.
  assert (Ha : u64 (rotl64 (Z.lxor (ws !!! i) (ws !!! (i + 1)%nat)) (pair_rot_a i r))).
  { apply rotl64_u64; [| pose proof (pair_rot_a_range i r); lia].
    apply u64_lxor; apply u64_lookup; assumption. }
  apply Forall_insert; [apply Forall_insert; assumption |].
  apply rotl64_u64; [| pose proof (pair_rot_b_range i r); lia].
  apply u64_lxor; [apply u64_lookup |]; assumption.
Qed.

Lemma pair_mix_at_middle r pre x y rest k :
  length pre = (2 * k)%nat -> u64 x -> u64 y ->
  pair_mix_at r (pre ++ x :: y :: rest) (2 * k) =
  pre ++ mix_pairs r (2 * k) [x; y] ++ rest.
Proof.
  intros Hpre Hx Hy. unfold pair_mix_at.
  rewrite (list_lookup_total_middle pre (y :: rest) x (2 * k)) by (symmetry; exact Hpre).
  rewrite (lookup_total_app_r pre) by lia.
  replace (2 * k + 1 - length pre)%nat with 1%nat by lia.
  change ((x :: y :: rest) !!! 1%nat) with y.
  rewrite (insert_app_r_alt pre _ (2 * k)) by lia.
  replace (2 * k - length pre)%nat with 0%nat by lia.
  rewrite (insert_app_r_alt pre _ (2 * k + 1)) by lia.
  replace (2 * k + 1 - length pre)%nat with 1%nat by lia.
  cbn [insert list_insert mix_pairs app].
  assert (Hxy : u64 (Z.lxor x y)) by (apply u64_lxor; assumption).
  rewrite (rotl64_rotateLeft (Z.lxor x y)) by (assumption || apply pair_rot_a_range).
  rewrite rotl64_rotateLeft; [| | apply pair_rot_b_range].
  - unfold pair_rot_a, pair_rot_b. rewrite (Nat.mul_comm (2 * k) 3). reflexivity.
  - apply u64_lxor; [assumption |].
    rewrite <- (rotl64_rotateLeft (Z.lxor x y)) by (assumption || apply pair_rot_a_range).
    apply rotl64_u64; [assumption | pose proof (pair_rot_a_range (2 * k) r); lia].
Qed.

Lemma pair_mix_from r (m : nat) :
  forall (k : nat) (pre rest : list Z),
  length pre = (2 * k)%nat -> length rest = (2 * m)%nat -> Forall u64 rest ->
  fold_left (pair_mix_at r) (map (fun k => (2 * k)%nat) (seq k m)) (pre ++ rest)
  = pre ++ mix_pairs r (2 * k) rest.
Proof.
  induction m as [|m IH]; intros k pre rest Hpre Hrest Hu.
  - destruct rest; [reflexivity | discriminate].
  - destruct rest as [|x [|y rest]]; try (cbn in Hrest; lia).
    apply Forall_cons in Hu as [Hx Hu]. apply Forall_cons in Hu as [Hy Hu].
    cbn [seq map fold_left].
    rewrite pair_mix_at_middle by assumption.
    cbn [mix_pairs app].
    set (a := rotateLeft (Z.lxor x y) _). set (b := rotateLeft (Z.lxor y a) _).
    change (pre ++ a :: b :: rest) with (pre ++ [a; b] ++ rest).
    rewrite app_assoc.
    rewrite (IH (S k)); [| rewrite length_app; cbn; lia | cbn in Hrest; lia | assumption].
    rewrite <- app_assoc. cbn [app].
    replace (2 * S k)%nat with (2 * k + 2)%nat by lia. reflexivity.
Qed.

Lemma pair_mix_spec r ws :
  length ws = 32%nat -> Forall u64 ws -> pair_mix r ws = mix_pairs r 0 ws.
Proof.
  intros Hlen Hu. unfold pair_mix, even_indices.
  apply (pair_mix_from r 16 0 [] ws); [reflexivity | assumption | assumption].
Qed.

Lemma pair_mix_length r ws : length (pair_mix r ws) = length ws.
Proof.
  unfold pair_mix.
  apply (fold_left_invariant (fun l => length l = length ws)); [| reflexivity].
  intros l i Hl. rewrite pair_mix_at_length. exact Hl.
Qed.

Lemma pair_mix_u64 r ws : Forall u64 ws -> Forall u64 (pair_mix r ws).
Proof.
  intros Hu. unfold pair_mix.
  apply (fold_left_invariant (Forall u64)); [| assumption].
  intros l i. apply pair_mix_at_u64.
Qed.

(** *** Step 3: the lanes *)
Lemma lane_mix_at_length r ws i : length (lane_mix_at r ws i) = length ws.
Proof. unfold lane_mix_at. apply length_insert. Qed.

Lemma lane_mix_at_u64 r ws i : Forall u64 ws -> Forall u64 (lane_mix_at r ws i).
Proof.
  intros Hws. unfold lane_mix_at. apply Forall_insert; [assumption |].
  apply u64_lxor; [apply u64_lookup; assumption |].
  apply rotl64_u64; [apply u64_lookup; assumption |].
  pose proof (lane_rot_lt_64 ((i + 5) mod 32) r). pose proof (lane_rot_lt_64 i r). lia.
Qed.

Lemma lane_mix_length r ws : length (lane_mix r ws) = length ws.
Proof.
  unfold lane_mix.
  apply (fold_left_invariant (fun l => length l = length ws)); [| reflexivity].
  intros l i Hl. rewrite lane_mix_at_length. exact Hl.
Qed.

Lemma lane_mix_u64 r ws : Forall u64 ws -> Forall u64 (lane_mix r ws).
Proof.
  intros Hu. unfold lane_mix.
  apply (fold_left_invariant (Forall u64)); [| assumption].
  intros l i. apply lane_mix_at_u64.
Qed.

Lemma mix_lanes_length r ws : length (mix_lanes r ws) = 32%nat.
Proof. unfold mix_lanes. rewrite length_app, !length_map, !length_seq. reflexivity. Qed.

Lemma mix_lanes_front r ws i :
  (i < 27)%nat ->
  mix_lanes r ws !!! i =
  Z.lxor (ws !!! i) (rotateLeft (ws !!! (i + 5)%nat) (Z.of_nat ((i + r) mod 7) + 1)).
Proof.
  intros Hi. unfold mix_lanes.
  rewrite lookup_total_app_l by (rewrite length_map, length_seq; exact Hi).
  rewrite lookup_total_map_seq by exact Hi. reflexivity.
Qed.

Lemma mix_lanes_back r ws i :
  (27 <= i < 32)%nat ->
  mix_lanes r ws !!! i =
  Z.lxor (ws !!! i)
         (rotateLeft (mix_lanes r ws !!! (i - 27)%nat) (Z.of_nat ((i + r) mod 7) + 1)).
Proof.
  intros Hi. unfold mix_lanes at 1.
  rewrite lookup_total_app_r by (rewrite length_map, length_seq; lia).
  rewrite length_map, length_seq.
  rewrite lookup_total_map_seq by lia.
  replace (27 + (i - 27))%nat with i by lia.
  f_equal. f_equal. unfold mix_lanes.
  rewrite lookup_total_app_l by (rewrite length_map, length_seq; lia).
  reflexivity.
Qed.

Lemma mix_lanes_front_u64 r ws i :
  Forall u64 ws -> (i < 27)%nat -> u64 (mix_lanes r ws !!! i).
Proof.
  intros Hu Hi. rewrite mix_lanes_front by exact Hi.
  apply u64_lxor; [apply u64_lookup; assumption |].
  rewrite <- rotl64_rotateLeft by (try apply u64_lookup; try assumption; lia).
  apply rotl64_u64; [apply u64_lookup; assumption | lia].
Qed.

Lemma lane_mix_prefix r ws (n : nat) :
  length ws = 32%nat -> Forall u64 ws -> (n <= 32)%nat ->
  fold_left (lane_mix_at r) (seq 0 n) ws = take n (mix_lanes r ws) ++ drop n ws.
Proof.
  intros Hlen Hu. induction n as [|n IH]; intros Hn; [reflexivity |].
  rewrite seq_S, fold_left_app, IH by lia. cbn [fold_left Nat.add].
  pose proof (mix_lanes_length r ws) as Hnew.
  assert (Htake : length (take n (mix_lanes r ws)) = n)
    by (rewrite length_take; lia).
  unfold lane_mix_at.
  (* the word at [n] is still the old one *)
  rewrite (lookup_total_app_r (take n _) _ n) by lia.
  rewrite Htake, Nat.sub_diag, lookup_total_drop, Nat.add_0_r.
  rewrite (insert_app_r_alt (take n _) _ n) by lia.
  rewrite Htake, Nat.sub_diag.
  assert (Hdrop : drop n ws = ws !!! n :: drop (S n) ws).
  { rewrite <- (drop_S ws (ws !!! n) n); [reflexivity |].
    apply list_lookup_lookup_total_lt. lia. }
  rewrite Hdrop. cbn [insert list_insert].
  rewrite (take_S_r (mix_lanes r ws) n (mix_lanes r ws !!! n))
    by (apply list_lookup_lookup_total_lt; lia).
  rewrite <- app_assoc. cbn [app]. f_equal. f_equal.
  unfold lane_rot. rewrite Nat2Z.inj_add. change (Z.of_nat 1) with 1.
  destruct (decide (n < 27)%nat) as [Hfront | Hback].
  - (* the word read lies ahead and is still the old one *)
    replace ((n + 5) mod 32)%nat with (n + 5)%nat by lia.
    rewrite (lookup_total_app_r (take n _)) by lia.
    rewrite Htake, <- Hdrop, lookup_total_drop.
    replace (n + (n + 5 - n))%nat with (n + 5)%nat by lia.
    rewrite mix_lanes_front by exact Hfront.
    rewrite rotl64_rotateLeft by (try apply u64_lookup; try assumption; lia).
    reflexivity.
  - (* the word read has wrapped onto one already rewritten *)
    replace ((n + 5) mod 32)%nat with (n - 27)%nat by lia.
    rewrite (lookup_total_app_l (take n _)) by lia.
    rewrite lookup_total_take_lt by lia.
    rewrite (mix_lanes_back r ws n) by lia.
    rewrite rotl64_rotateLeft; [reflexivity | | lia].
    apply mix_lanes_front_u64; [assumption | lia].
Qed.

Lemma lane_mix_spec r ws :
  length ws = 32%nat -> Forall u64 ws -> lane_mix r ws = mix_lanes r ws.
Proof.
  intros Hlen Hu. unfold lane_mix.
  rewrite lane_mix_prefix by (assumption || lia).
  rewrite take_ge by (rewrite mix_lanes_length; lia).
  rewrite drop_ge by lia. apply app_nil_r.
Qed.

(** *** The 24 rounds *)
Lemma qfRound_spec ws r :
  length ws = 32%nat -> Forall u64 ws ->
  qfRound ws r = round_spec ws r /\
  length (qfRound ws r) = 32%nat /\ Forall u64 (qfRound ws r).
Proof.
  intros Hlen Hu. unfold qfRound, round_spec.
  pose proof (inject_constant_length r ws) as Hl1.
  pose proof (inject_constant_u64 r ws Hu) as Hu1.
  pose proof (pair_mix_length r (inject_constant r ws)) as Hl2.
  pose proof (pair_mix_u64 r _ Hu1) as Hu2.
  split; [| split].
  - rewrite lane_mix_spec by (assumption || congruence).
    rewrite pair_mix_spec by (assumption || congruence).
    rewrite inject_constant_spec. reflexivity.
  - rewrite lane_mix_length. congruence.
  - apply lane_mix_u64. assumption.
Qed.

Lemma rounds_spec (rounds : list nat) (ws : list Z) :
  length ws = 32%nat -> Forall u64 ws ->
  fold_left qfRound rounds ws = fold_left round_spec rounds ws /\
  length (fold_left qfRound rounds ws) = 32%nat /\
  Forall u64 (fold_left qfRound rounds ws).
Proof.
  revert ws. induction rounds as [|r rounds IH]; intros ws Hlen Hu.
  - repeat split; assumption.
  - rewrite !fold_left_step.
    destruct (qfRound_spec ws r Hlen Hu) as (Heq & Hl & Hu').
    rewrite <- Heq. apply IH; assumption.
Qed.

Lemma qfPermutation_length (qs : QFState) :
  length (state (qfPermutation qs)) = length (state qs).
Proof.
  unfold qfPermutation. cbn [state].
  apply (fold_left_invariant (fun l => length l = length (state qs)));
    [| reflexivity].
  intros ws r Hws. unfold qfRound.
  rewrite lane_mix_length, pair_mix_length, inject_constant_length. exact Hws.
Qed.

(** C4: on a state of 32 64-bit words, [qfPermutation] is 24 rounds,
    [r = 0 .. 23], each of which XORs constant [r] into word [r mod 32],
    replaces every pair of words [(x, y)] at an even index [i] by
    [a = rotateLeft (x XOR y) ((i + r) mod 63)] and
    [b = rotateLeft (y XOR a) ((3 i + r) mod 59)], the latter from the new
    [a], and then XORs into each word [i], in ascending order, the word at
    [(i + 5) mod 32] rotated by [((i + r) mod 7) + 1], where that word is the
    one already rewritten by this pass when [i + 5] wraps.  It leaves
    [absorbedBytes] alone and yields 32 64-bit words again. *)
Theorem qfPermutation_rounds (qs : QFState)
  (Hlen : length (state qs) = STATE_WORDS) (Hu : Forall u64 (state qs)) :
  qfPermutation qs = mkQFState (permute_spec (state qs)) (absorbedBytes qs) /\
  length (state (qfPermutation qs)) = STATE_WORDS /\
  Forall u64 (state (qfPermutation qs)).
Proof.
  unfold qfPermutation, permute_spec. cbn [state].
  destruct (rounds_spec (seq 0 24) (state qs) Hlen Hu) as (Heq & Hl & Hu').
  rewrite <- Heq. auto.
Qed.

Lemma qfPermutation_rounds_witness :
  length (state fresh_state) = STATE_WORDS /\
  Forall u64 (state fresh_state) /\
  qfPermutation fresh_state
  = mkQFState (permute_spec (state fresh_state)) (absorbedBytes fresh_state).
Proof.
  split; [reflexivity |].
  split; [apply (bool_decide_unpack (Forall u64 (state fresh_state))); vm_compute; exact I |].
  apply (qfPermutation_rounds fresh_state);
    [reflexivity | apply (bool_decide_unpack (Forall u64 (state fresh_state))); vm_compute; exact I].
Defined.

(** ** The sponge *)

Lemma squeeze_loop_eq (qs : QFState) (outLen : nat) (out : list byte) (calls : nat) :
  squeeze_loop qs outLen out calls =
  if decide (0 < outLen)%nat then
    let toCopy := if decide (outLen < rateBytes)%nat then outLen else rateBytes in
    let out1 := out ++ copy_bytes (state qs) toCopy in
    let outLen1 := (outLen - toCopy)%nat in
    if decide (0 < outLen1)%nat
    then squeeze_loop (qfPermutation qs) outLen1 out1 (S calls)
    else squeeze_loop qs outLen1 out1 calls
  else (out, calls).
Proof.
  rewrite squeeze_loop_equation_1. unfold squeeze_loop_unfold_clause_1.
  destruct (decide (0 < outLen)%nat); reflexivity.
Qed.

Lemma absorb_loop_eq (qs : QFState) (data : list byte) (calls : nat) :
  absorb_loop qs data calls =
  if decide (0 < length data)%nat then
    if decide (length data < rateBytes)%nat then
      (mkQFState (xor_bytes (state qs) data (length data)) (absorbedBytes qs),
       calls)
    else
      absorb_loop
        (qfPermutation (mkQFState (xor_bytes (state qs) data rateBytes)
                                  (absorbedBytes qs)))
        (drop rateBytes data) (S calls)
  else (qs, calls).
Proof.
  rewrite absorb_loop_equation_1. unfold absorb_loop_unfold_clause_1.
  destruct (decide (0 < length data)%nat); [| reflexivity].
  unfold absorb_loop_unfold_clause_1_clause_2.
  destruct (decide (length data < rateBytes)%nat); reflexivity.
Qed.

(** *** qfAbsorb *)

Lemma put_lane_same (w s v : Z) :
  0 <= s -> u8 v -> Z.land (Z.shiftr (put_lane w s v) s) 0xFF = v.
Proof.
  intros Hs Hv. unfold put_lane. change 0xFF with (Z.ones 8).
  apply Z.bits_inj'. intros i Hi.
  rewrite Z.land_spec, Z.shiftr_spec, Z.lor_spec, Z.land_spec, Z.lnot_spec,
    !Z.shiftl_spec by lia.
  replace (i + s - s) with i by lia.
  rewrite Z.testbit_ones_nonneg by lia.
  destruct (Z.ltb_spec i 8) as [Hlt | Hge].
  - cbn. rewrite andb_false_r, andb_true_r. reflexivity.
  - rewrite (u8_testbit_high v i) by (assumption || lia). apply andb_false_r.
Qed.

Lemma put_lane_other (w s s' v : Z) :
  0 <= s -> 0 <= s' -> u8 v -> s + 8 <= s' \/ s' + 8 <= s ->
  Z.land (Z.shiftr (put_lane w s v) s') 0xFF = Z.land (Z.shiftr w s') 0xFF.
Proof.
  intros Hs Hs' Hv Hdisj. unfold put_lane. change 0xFF with (Z.ones 8).
  apply Z.bits_inj'. intros i Hi.
  rewrite !Z.land_spec, !Z.shiftr_spec, Z.lor_spec, Z.land_spec, Z.lnot_spec
    by lia.
  rewrite Z.testbit_ones_nonneg by lia.
  destruct (Z.ltb_spec i 8) as [Hlt | Hge]; [| rewrite !andb_false_r; reflexivity].
  rewrite !andb_true_r.
  destruct (Z_lt_le_dec (i + s') s) as [Hlow | Hhigh].
  - rewrite !Z.shiftl_spec_low by lia. cbn. rewrite andb_true_r, orb_false_r.
    reflexivity.
  - rewrite !Z.shiftl_spec by lia.
    rewrite (u8_testbit_high v (i + s' - s)) by (assumption || lia).
    rewrite Z.testbit_ones_nonneg by lia.
    replace (i + s' - s <? 8) with false by (symmetry; apply Z.ltb_ge; lia).
    cbn. rewrite andb_true_r, orb_false_r. reflexivity.
Qed.

Lemma set_byte_length ws i v : length (set_byte ws i v) = length ws.
Proof. unfold set_byte. apply length_insert. Qed.

Lemma get_byte_set_byte (ws : list Z) (i j : nat) (v : Z) :
  (i < 8 * length ws)%nat -> u8 v ->
  get_byte (set_byte ws i v) j = if decide (j = i) then v else get_byte ws j.
Proof.
  intros Hi Hv. unfold get_byte, set_byte.
  fold (put_lane (ws !!! (i / 8)%nat) (lane_shift i) v).
  assert (Hsi : 0 <= lane_shift i) by (unfold lane_shift; lia).
  assert (Hsj : 0 <= lane_shift j) by (unfold lane_shift; lia).
  destruct (decide (j = i)) as [-> | Hne].
  - rewrite list_lookup_total_insert_eq by lia.
    apply put_lane_same; assumption.
  - destruct (decide (j / 8 = i / 8)%nat) as [Hword | Hword].
    + rewrite Hword, list_lookup_total_insert_eq by lia.
      apply put_lane_other; try assumption.
      unfold lane_shift. lia.
    + rewrite list_lookup_total_insert_ne by congruence. reflexivity.
Qed.

Lemma xor_bytes_length ws data n : length (xor_bytes ws data n) = length ws.
Proof.
  unfold xor_bytes.
  apply (fold_left_invariant (fun l => length l = length ws)); [| reflexivity].
  intros l i Hl. unfold xor_byte_at. rewrite set_byte_length. exact Hl.
Qed.

Lemma xor_bytes_get_byte (ws : list Z) (data : list byte) (n j : nat) :
  (n <= 8 * length ws)%nat ->
  get_byte (xor_bytes ws data n) j =
  if decide (j < n)%nat
  then Z.lxor (get_byte ws j) (byte_val (data !!! j))
  else get_byte ws j.
Proof.
  revert j. induction n as [|n IH]; intros j Hn.
  - destruct (decide (j < 0)%nat); [lia | reflexivity].
  - unfold xor_bytes. rewrite seq_S, fold_left_app. cbn [fold_left Nat.add].
    fold (xor_bytes ws data n). unfold xor_byte_at.
    rewrite get_byte_set_byte; cycle 1.
    { rewrite xor_bytes_length. lia. }
    { apply u8_lxor; [apply u8_land_255 | apply byte_val_u8]. }
    rewrite !IH by lia.
    destruct (decide (j = n)) as [-> | Hne].
    + destruct (decide (n < n)%nat); [lia |].
      destruct (decide (n < S n)%nat); [reflexivity | lia].
    + destruct (decide (j < n)%nat); destruct (decide (j < S n)%nat);
        try lia; reflexivity.
Qed.

Lemma xor_bytes_prefix (ws : list Z) (chunk more : list byte) (n : nat) :
  (n <= length chunk)%nat -> xor_bytes ws (chunk ++ more) n = xor_bytes ws chunk n.
Proof.
  intros Hn. unfold xor_bytes.
  assert (Hgen : forall l, Forall (fun i => i < length chunk)%nat l ->
            fold_left (xor_byte_at (chunk ++ more)) l ws
            = fold_left (xor_byte_at chunk) l ws).
  { intros l. revert ws. induction l as [|i l IHl]; intros ws Hl; [reflexivity |].
    apply Forall_cons in Hl as [Hi Hl]. rewrite !fold_left_step.
    unfold xor_byte_at at 2 4. rewrite lookup_total_app_l by exact Hi.
    apply IHl. exact Hl. }
  apply Hgen. apply Forall_forall. intros i Hi%list_elem_of_In%in_seq. lia.
Qed.

Lemma xor_window_nil (qs : QFState) : xor_window qs [] = qs.
Proof. destruct qs. reflexivity. Qed.

Lemma absorb_loop_blocks (blocks : list (list byte)) :
  forall (rest : list byte) (qs : QFState) (calls : nat),
  Forall (fun b => length b = rateBytes) blocks ->
  (length rest < rateBytes)%nat ->
  absorb_loop qs (concat blocks ++ rest) calls
  = (xor_window (fold_left absorb_block blocks qs) rest,
     (calls + length blocks)%nat).
Proof.
  induction blocks as [|b blocks IH]; intros rest qs calls Hblocks Hrest.
  - cbn [concat app fold_left length]. rewrite absorb_loop_eq.
    destruct (decide (0 < length rest)%nat) as [Hpos | Hzero].
    + destruct (decide (length rest < rateBytes)%nat); [| lia].
      unfold xor_window. f_equal. lia.
    + destruct rest; [| cbn in Hzero; lia].
      rewrite xor_window_nil. f_equal. lia.
  - apply Forall_cons in Hblocks as [Hb Hblocks].
    rewrite absorb_loop_eq. cbn [concat]. rewrite <- app_assoc.
    rewrite !length_app, Hb.
    destruct (decide (0 < rateBytes + _)%nat) as [_ | Habs];
      [| unfold rateBytes in Habs; lia].
    destruct (decide (rateBytes + _ < rateBytes)%nat) as [Habs | _]; [lia |].
    rewrite xor_bytes_prefix by lia.
    rewrite drop_app_length' by (symmetry; exact Hb).
    rewrite IH by assumption.
    rewrite fold_left_step.
    assert (Hblock : absorb_block qs b
                     = qfPermutation (mkQFState (xor_bytes (state qs) b rateBytes)
                                                (absorbedBytes qs)))
      by (unfold absorb_block, xor_window; rewrite Hb; reflexivity).
    rewrite Hblock. f_equal. cbn [length]. lia.
Qed.

Lemma xor_window_bytes (qs : QFState) (chunk : list byte) (j : nat) :
  (length chunk <= 8 * length (state qs))%nat ->
  get_byte (state (xor_window qs chunk)) j =
  if decide (j < length chunk)%nat
  then Z.lxor (get_byte (state qs) j) (byte_val (chunk !!! j))
  else get_byte (state qs) j.
Proof. intros Hlen. unfold xor_window. cbn [state]. apply xor_bytes_get_byte, Hlen. Qed.

Lemma absorb_block_frame (qs : QFState) (block : list byte) :
  length (state (absorb_block qs block)) = length (state qs) /\
  absorbedBytes (absorb_block qs block) = absorbedBytes qs.
Proof.
  unfold absorb_block. rewrite qfPermutation_length.
  unfold xor_window. cbn [state]. rewrite xor_bytes_length. split; reflexivity.
Qed.

Lemma absorb_blocks_frame (blocks : list (list byte)) (qs : QFState) :
  length (state (fold_left absorb_block blocks qs)) = length (state qs) /\
  absorbedBytes (fold_left absorb_block blocks qs) = absorbedBytes qs.
Proof.
  apply (fold_left_invariant
           (fun q => length (state q) = length (state qs) /\
                     absorbedBytes q = absorbedBytes qs));
    [| split; reflexivity].
  intros q b [Hl Ha]. destruct (absorb_block_frame q b) as [Hl' Ha'].
  split; congruence.
Qed.

Lemma concat_blocks_length (blocks : list (list byte)) :
  Forall (fun b => length b = rateBytes) blocks ->
  length (concat blocks) = (rateBytes * length blocks)%nat.
Proof.
  induction 1 as [|b blocks Hb _ IH]; [reflexivity |].
  cbn [concat length]. rewrite length_app, Hb, IH. lia.
Qed.

Lemma full_windows_take (data : list byte) (n : nat) :
  concat (map (fun k => take rateBytes (drop (rateBytes * k) data)) (seq 0 n))
  = take (rateBytes * n) data.
Proof.
  induction n as [|n IH].
  - rewrite Nat.mul_0_r. reflexivity.
  - rewrite seq_S, map_app, concat_app, IH. cbn [map concat Nat.add].
    rewrite app_nil_r, take_take_drop. f_equal. lia.
Qed.

(** Every input is its full windows followed by its last, shorter, window. *)
Lemma windows_decompose (data : list byte) :
  data = concat (full_windows data) ++ last_window data /\
  Forall (fun b => length b = rateBytes) (full_windows data) /\
  length (full_windows data) = (length data / rateBytes)%nat /\
  length (last_window data) = (length data mod rateBytes)%nat.
Proof.
  unfold full_windows, last_window.
  split; [rewrite full_windows_take; symmetry; apply take_drop |].
  split; [| split].
  - apply Forall_forall. intros b Hb%list_elem_of_In%in_map_iff.
    destruct Hb as (k & <- & Hk%in_seq).
    rewrite length_take, length_drop. unfold rateBytes in *. lia.
  - rewrite length_map, length_seq. reflexivity.
  - rewrite length_drop. unfold rateBytes. lia.
Qed.

Lemma absorb_loop_windows (qs : QFState) (data : list byte) (calls : nat) :
  absorb_loop qs data calls
  = (xor_window (fold_left absorb_block (full_windows data) qs) (last_window data),
     (calls + length data / rateBytes)%nat).
Proof.
  destruct (windows_decompose data) as (Hdata & Hfull & Hcount & Hlast).
  transitivity
    (absorb_loop qs (concat (full_windows data) ++ last_window data) calls);
    [f_equal; exact Hdata |].
  rewrite absorb_loop_blocks; [rewrite Hcount; reflexivity | exact Hfull |].
  rewrite Hlast. unfold rateBytes. lia.
Qed.

(** C3: [qfAbsorb] adds the input length to [absorbedBytes] (in 64-bit
    arithmetic, whatever the length); it XORs each full 128-byte window of
    the input into the state bytes from offset 0 and permutes once after it;
    it XORs what follows the last full window into the front of the state
    bytes without a permutation; the number of permutations is the input
    length divided by 128.  The XOR of a window of [n] bytes changes byte
    [j < n] of the state to its XOR with byte [j] of the window, and no
    other byte. *)
Theorem qfAbsorb_windows (qs : QFState) (data : list byte)
  (Hlen : length (state qs) = STATE_WORDS) :
  let r := qfAbsorb_counted qs data in
  let start :=
    mkQFState (state qs) (wrap64 (absorbedBytes qs + Z.of_nat (length data))) in
  let before_rest := fold_left absorb_block (full_windows data) start in
  qfAbsorb qs data = r.1 /\
  absorbedBytes r.1 = wrap64 (absorbedBytes qs + Z.of_nat (length data)) /\
  (u64 (absorbedBytes qs + Z.of_nat (length data)) ->
   absorbedBytes r.1 = absorbedBytes qs + Z.of_nat (length data)) /\
  r.2 = (length data / 128)%nat /\
  (data = concat (full_windows data) ++ last_window data /\
   Forall (fun b => length b = 128%nat) (full_windows data) /\
   length (full_windows data) = (length data / 128)%nat /\
   length (last_window data) = (length data mod 128)%nat) /\
  r.1 = xor_window before_rest (last_window data) /\
  (forall j : nat,
     get_byte (state r.1) j =
     if decide (j < length data mod 128)%nat
     then Z.lxor (get_byte (state before_rest) j)
                 (byte_val (last_window data !!! j))
     else get_byte (state before_rest) j) /\
  (forall (q : QFState) (block : list byte) (j : nat),
     length (state q) = STATE_WORDS -> length block = 128%nat ->
     absorb_block q block = qfPermutation (xor_window q block) /\
     get_byte (state (xor_window q block)) j =
     if decide (j < 128)%nat
     then Z.lxor (get_byte (state q) j) (byte_val (block !!! j))
     else get_byte (state q) j).
Proof.
  intros r start before_rest.
  assert (Hr : r = (xor_window before_rest (last_window data),
                    (length data / 128)%nat)).
  { subst r. unfold qfAbsorb_counted. fold start.
    rewrite absorb_loop_windows. reflexivity. }
  destruct (absorb_blocks_frame (full_windows data) start) as [Hl Ha].
  fold before_rest in Hl, Ha.
  destruct (windows_decompose data) as (Hdata & Hfull & Hcount & Hlast).
  rewrite Hr. cbn [fst snd].
  split; [unfold qfAbsorb; fold r; rewrite Hr; reflexivity |].
  split; [unfold xor_window; cbn [absorbedBytes]; rewrite Ha; reflexivity |].
  split.
  { intros Hfit. unfold xor_window. cbn [absorbedBytes]. rewrite Ha.
    subst start. cbn [absorbedBytes]. apply u64_wrap64_id, Hfit. }
  split; [reflexivity |].
  split; [repeat split; assumption |].
  split; [reflexivity |].
  split.
  - intros j. change 128%nat with rateBytes. rewrite <- Hlast.
    apply xor_window_bytes.
    rewrite Hl, Hlast. subst start. cbn [state]. rewrite Hlen.
    unfold STATE_WORDS, rateBytes. lia.
  - intros q block j Hq Hblock. split; [reflexivity |].
    rewrite xor_window_bytes by (rewrite Hq, Hblock; unfold STATE_WORDS; lia).
    rewrite Hblock. reflexivity.
Qed.

Lemma qfAbsorb_windows_witness :
  length (state fresh_state) = STATE_WORDS /\
  (qfAbsorb_counted fresh_state (repeat x61 128 ++ [x62; x63])).2 = 1%nat.
Proof.
  split; [reflexivity |].
  apply (qfAbsorb_windows fresh_state (repeat x61 128 ++ [x62; x63])).
  reflexivity.
Defined.

(** *** The sponge keeps the state well formed *)

Lemma put_lane_u64 (w s v : Z) :
  u64 w -> 0 <= s -> s + 8 <= 64 -> u8 v -> u64 (put_lane w s v).
Proof.
  intros Hw Hs Hs8 Hv.
  replace (put_lane w s v) with (wrap64 (put_lane w s v)); [apply u64_wrap64 |].
  unfold wrap64, put_lane. apply Z.bits_inj'. intros i Hi.
  rewrite Z.testbit_mod_pow2 by lia.
  destruct (Z.ltb_spec i 64) as [Hlt | Hge]; [reflexivity |].
  rewrite Z.lor_spec, Z.land_spec, Z.shiftl_spec by lia.
  rewrite (u64_testbit_high w i) by assumption.
  rewrite (u8_testbit_high v (i - s)) by (assumption || lia).
  reflexivity.
Qed.

Lemma set_byte_u64 (ws : list Z) (i : nat) (v : Z) :
  Forall u64 ws -> u8 v -> Forall u64 (set_byte ws i v).
Proof.
  intros Hws Hv. unfold set_byte. apply Forall_insert; [assumption |].
  fold (put_lane (ws !!! (i / 8)%nat) (lane_shift i) v).
  apply put_lane_u64; [apply u64_lookup; assumption | | | assumption];
    unfold lane_shift; lia.
Qed.

Lemma xor_bytes_u64 (ws : list Z) (data : list byte) (n : nat) :
  Forall u64 ws -> Forall u64 (xor_bytes ws data n).
Proof.
  intros Hws. unfold xor_bytes.
  apply (fold_left_invariant (Forall u64)); [| assumption].
  intros l i Hl. unfold xor_byte_at. apply set_byte_u64; [assumption |].
  apply u8_lxor; [apply u8_land_255 | apply byte_val_u8].
Qed.

Lemma qfInit_wf (qs : QFState) : state_wf (qfInit qs).
Proof.
  unfold state_wf. split; [reflexivity |].
  split; [| unfold u64; cbn; lia].
  apply (bool_decide_unpack (Forall u64 (state (qfInit qs)))).
  vm_compute. exact I.
Qed.

Lemma qfPermutation_wf (qs : QFState) : state_wf qs -> state_wf (qfPermutation qs).
Proof.
  intros (Hlen & Hu & Ha). unfold state_wf, qfPermutation.
  cbn [state absorbedBytes].
  destruct (rounds_spec (seq 0 24) (state qs) Hlen Hu) as (_ & Hl & Hu').
  auto.
Qed.

Lemma xor_window_wf (qs : QFState) (chunk : list byte) :
  state_wf qs -> state_wf (xor_window qs chunk).
Proof.
  intros (Hlen & Hu & Ha). unfold state_wf, xor_window.
  cbn [state absorbedBytes]. rewrite xor_bytes_length.
  split; [exact Hlen |]. split; [apply xor_bytes_u64, Hu | exact Ha].
Qed.

Lemma qfAbsorb_wf (qs : QFState) (data : list byte) :
  state_wf qs -> state_wf (qfAbsorb qs data).
Proof.
  intros (Hlen & Hu & Ha). unfold qfAbsorb, qfAbsorb_counted.
  rewrite absorb_loop_windows. cbn [fst].
  apply xor_window_wf.
  apply (fold_left_invariant state_wf).
  - intros q b Hq. unfold absorb_block.
    apply qfPermutation_wf, xor_window_wf, Hq.
  - unfold state_wf. cbn [state absorbedBytes].
    split; [exact Hlen |]. split; [exact Hu | apply u64_wrap64].
Qed.

(** *** qfSqueeze *)

Lemma copy_bytes_stream (qs : QFState) (n : nat) :
  (n <= 128)%nat -> copy_bytes (state qs) n = map (stream_byte qs) (seq 0 n).
Proof.
  intros Hn. unfold copy_bytes. apply map_ext_in. intros j Hj%in_seq.
  unfold stream_byte.
  rewrite Nat.div_small, Nat.mod_small by lia. reflexivity.
Qed.

Lemma stream_byte_shift (qs : QFState) (k : nat) :
  stream_byte (qfPermutation qs) k = stream_byte qs (128 + k).
Proof.
  unfold stream_byte.
  replace ((128 + k) / 128)%nat with (S (k / 128)) by lia.
  replace ((128 + k) mod 128)%nat with (k mod 128)%nat by lia.
  rewrite Nat.iter_succ_r. reflexivity.
Qed.

Lemma seq_split_128 (n : nat) :
  (128 <= n)%nat ->
  seq 0 n = seq 0 128 ++ map (Nat.add 128) (seq 0 (n - 128)).
Proof.
  intros Hn. replace n with (128 + (n - 128))%nat at 1 by lia.
  rewrite seq_app. f_equal.
  change (0 + 128)%nat with (128 + 0)%nat.
  symmetry. apply (fmap_add_seq 128 0).
Qed.

Lemma squeeze_loop_stream (outLen : nat) :
  forall (qs : QFState) (out : list byte) (calls : nat),
  squeeze_loop qs outLen out calls
  = (out ++ map (stream_byte qs) (seq 0 outLen),
     (calls + (outLen - 1) / 128)%nat).
Proof.
  induction outLen as [outLen IH] using lt_wf_ind. intros qs out calls.
  rewrite squeeze_loop_eq. unfold rateBytes.
  destruct (decide (0 < outLen)%nat) as [Hpos | Hzero].
  2: { replace outLen with 0%nat by lia. cbn. rewrite app_nil_r. f_equal. lia. }
  cbv zeta.
  destruct (decide (outLen < 128)%nat) as [Hshort | Hlong].
  - (* the last, short block *)
    replace (outLen - outLen)%nat with 0%nat by lia.
    destruct (decide (0 < 0)%nat) as [Habs | _]; [lia |].
    rewrite squeeze_loop_eq.
    destruct (decide (0 < 0)%nat) as [Habs | _]; [lia |].
    rewrite copy_bytes_stream by lia. f_equal. lia.
  - destruct (decide (0 < outLen - 128)%nat) as [Hmore | Hlast].
    + (* a full block, and more to produce *)
      rewrite IH by lia.
      rewrite copy_bytes_stream by lia.
      rewrite <- app_assoc. f_equal; [| lia]. f_equal.
      rewrite (seq_split_128 outLen) by lia.
      rewrite map_app, map_map. f_equal.
      apply map_ext. intros k. apply stream_byte_shift.
    + (* exactly one full block left *)
      replace (outLen - 128)%nat with 0%nat by lia.
      rewrite squeeze_loop_eq.
      destruct (decide (0 < 0)%nat) as [Habs | _]; [lia |].
      replace outLen with 128%nat by lia.
      rewrite copy_bytes_stream by lia. f_equal. lia.
Qed.

(** C6: [qfSqueeze] is total; it returns the caller's state as it got it
    and [outLen] bytes; byte [j] of the output is byte [j mod 128] of the
    rate window of the private copy after [1 + j / 128] permutations, so one
    permutation precedes the first byte and one more precedes each further
    block of 128 bytes; the number of permutations is [1] for the first block
    plus one per further block. *)
Theorem qfSqueeze_stream (qs : QFState) (outLen : nat) :
  let r := qfSqueeze_counted qs outLen in
  r.1.1 = qs /\
  length r.1.2 = outLen /\
  qfSqueeze qs outLen = r.1.2 /\
  r.1.2 = map (fun j => byte_of_Z
                 (get_byte (state (Nat.iter (1 + j / 128) qfPermutation qs))
                           (j mod 128)))
              (seq 0 outLen) /\
  r.2 = (1 + (outLen - 1) / 128)%nat.
Proof.
  intros r. subst r. unfold qfSqueeze, qfSqueeze_counted.
  rewrite squeeze_loop_stream. cbn [fst snd app].
  repeat split.
  - rewrite length_map, length_seq. reflexivity.
  - apply map_ext. intros j. unfold stream_byte.
    rewrite <- Nat.iter_succ_r. reflexivity.
Qed.

(** ** Snapshots: capture and validation *)

Section Fill.
Context {A : Type} `{!Inhabited A} (f : nat -> A).

Lemma fill_length (n : nat) (l : list A) :
  length (fold_left (fun l i => <[i := f i]> l) (seq 0 n) l) = length l.
Proof.
  induction n as [|n IH]; [reflexivity |].
  rewrite seq_S, fold_left_app. cbn. rewrite length_insert. exact IH.
Qed.

Lemma fill_lookup (n : nat) (l : list A) (i : nat) :
  (i < n)%nat -> (n <= length l)%nat ->
  fold_left (fun l i => <[i := f i]> l) (seq 0 n) l !!! i = f i.
Proof.
  induction n as [|n IH]; intros Hi Hn; [lia |].
  rewrite seq_S, fold_left_app. cbn.
  destruct (decide (i = n)) as [-> | Hne].
  - apply list_lookup_total_insert_eq. rewrite fill_length. lia.
  - rewrite list_lookup_total_insert_ne by congruence.
    apply IH; lia.
Qed.
End Fill.

(** [createSnapshot] copies the whole state, all 32 words. *)
Lemma createSnapshot_state (key : Z) (uninit : StateSnapshot) (s : QFState) :
  snap_state (createSnapshot key uninit s) = state s /\
  totalLen (createSnapshot key uninit s) = absorbedBytes s /\
  ephemeralKey (createSnapshot key uninit s) = key.
Proof. repeat split. Qed.

(** C8: a state validates against the snapshot just captured from it,
    whatever key was minted.  The tag array of the snapshot has its 32
    slots. *)
Theorem validate_after_capture (s : QFState) (key : Z) (uninit : StateSnapshot)
  (Hsize : length (partialChecks uninit) = SNAP_WORDS) :
  validateSnapshot s (createSnapshot key uninit s) = true.
Proof.
  unfold validateSnapshot, createSnapshot, fillChecksums.
  cbn [ephemeralKey partialChecks fullChecksum snap_state totalLen].
  rewrite Z.eqb_refl.
  replace (forallb _ _) with true; [reflexivity |].
  symmetry. apply forallb_forall. intros i Hi%in_seq.
  rewrite (fill_lookup (fun i => miniHash [state s !!! i] key));
    [apply Z.eqb_refl | lia |].
  rewrite Hsize. unfold SNAP_WORDS. lia.
Qed.

Lemma validate_after_capture_witness :
  length (partialChecks blank_snapshot) = SNAP_WORDS /\
  validateSnapshot fresh_state (createSnapshot 1 blank_snapshot fresh_state) = true.
Proof.
  split; [reflexivity |].
  apply (validate_after_capture fresh_state 1 blank_snapshot). reflexivity.
Defined.

(** ** The recovery ladder *)

Lemma same_snapshots_anomalies (v : Z) (ctx : SelfHealContext) :
  same_snapshots (set_consecutiveAnomalies v ctx) ctx.
Proof. repeat split. Qed.

Lemma detect_ring_scan_ext (qs : QFState) (c1 c2 : SelfHealContext)
  (slots : list nat) (seen : list Probe) :
  same_snapshots c1 c2 ->
  detect_ring_scan qs c1 slots seen = detect_ring_scan qs c2 slots seen.
Proof.
  intros (Hring & _ & _). revert seen.
  induction slots as [|i rest IH]; intros seen; cbn [detect_ring_scan];
    [reflexivity |].
  rewrite Hring, IH. reflexivity.
Qed.

Lemma selfHealDetect_ext (qs : QFState) (c1 c2 : SelfHealContext) :
  same_snapshots c1 c2 -> selfHealDetect qs c1 = selfHealDetect qs c2.
Proof.
  intros Hsame. unfold selfHealDetect, selfHealDetect_probes.
  rewrite (detect_ring_scan_ext qs c1 c2) by exact Hsame.
  destruct Hsame as (_ & _ & ->). reflexivity.
Qed.

Lemma partial_heal_ext (qs : QFState) (c1 c2 : SelfHealContext) :
  same_snapshots c1 c2 -> partial_heal qs c1 = partial_heal qs c2.
Proof. intros (_ & _ & Hshadow). unfold partial_heal. rewrite Hshadow. reflexivity. Qed.

Lemma revert_scan_ext (c1 c2 : SelfHealContext) (steps : list nat) :
  same_snapshots c1 c2 -> revert_scan c1 steps = revert_scan c2 steps.
Proof.
  intros (Hring & Hidx & _).
  induction steps as [|i rest IH]; cbn [revert_scan]; [reflexivity |].
  unfold revert_slot. rewrite Hring, Hidx, IH. reflexivity.
Qed.

(** [selfHealAttemptRecovery], one equation per part. *)
Lemma recover_cases (qs : QFState) (ctx : SelfHealContext) (key : Z)
  (uninit : StateSnapshot) :
  let ctx1 := set_consecutiveAnomalies (consecutiveAnomalies ctx + 1) ctx in
  let qs1 := (partial_heal qs ctx).1 in
  selfHealAttemptRecovery qs ctx key uninit =
  match recovery_path qs ctx with
  | PartialRepair =>
      (true, qs1,
       set_consecutiveAnomalies 0
         (selfHealSaveSnapshot
            (set_partialRepairs (partialRepairs ctx + 1) ctx1) key uninit qs1))
  | FullRevert idx =>
      let snap := snapshots ctx !!! idx in
      let qs2 := mkQFState (snap_state snap) (totalLen snap) in
      (true, qs2,
       set_consecutiveAnomalies 0
         (selfHealSaveSnapshot
            (set_fullReverts (fullReverts ctx + 1) (set_shadowCopy snap ctx1))
            key uninit qs2))
  | Reinitialize =>
      (false, qfInit qs1,
       set_consecutiveAnomalies 0
         (set_totalReinits 1 (selfHealInit ctx1 key uninit (qfInit qs1))))
  end.
Proof.
  intros ctx1 qs1.
  pose proof (same_snapshots_anomalies (consecutiveAnomalies ctx + 1) ctx) as Hsame.
  fold ctx1 in Hsame.
  unfold selfHealAttemptRecovery, recovery_path, partial_repair_succeeds.
  fold ctx1.
  rewrite (partial_heal_ext qs ctx1 ctx Hsame).
  subst qs1. destruct (partial_heal qs ctx) as [qs1 wordsFixed]. cbn [fst].
  rewrite (selfHealDetect_ext qs1 ctx1 ctx Hsame).
  destruct ((0 <? wordsFixed) && negb (selfHealDetect qs1 ctx)); [reflexivity |].
  rewrite (revert_scan_ext ctx1 ctx _ Hsame).
  destruct (revert_scan ctx (seq 0 MAX_SNAPSHOTS)); reflexivity.
Qed.

(** The revert scan only returns a slot that has a nonzero key and is
    consistent with its own tags. *)
Lemma revert_scan_Some (ctx : SelfHealContext) (steps : list nat) (idx : nat) :
  revert_scan ctx steps = Some idx ->
  ephemeralKey (snapshots ctx !!! idx) <> 0 /\
  validateSnapshot (snapshot_as_state (snapshots ctx !!! idx))
                   (snapshots ctx !!! idx) = true.
Proof.
  induction steps as [|i rest IH]; cbn [revert_scan]; [discriminate |].
  destruct (ephemeralKey (snapshots ctx !!! revert_slot ctx i) =? 0) eqn:Hkey;
    [exact IH |].
  destruct (validateSnapshot _ (snapshots ctx !!! revert_slot ctx i)) eqn:Hval;
    [| exact IH].
  intros [= <-]. split; [| exact Hval].
  apply Z.eqb_neq. exact Hkey.
Qed.

Lemma recovery_path_FullRevert (qs : QFState) (ctx : SelfHealContext) (idx : nat) :
  recovery_path qs ctx = FullRevert idx ->
  ephemeralKey (snapshots ctx !!! idx) <> 0 /\
  validateSnapshot (snapshot_as_state (snapshots ctx !!! idx))
                   (snapshots ctx !!! idx) = true.
Proof.
  unfold recovery_path.
  destruct (partial_repair_succeeds qs ctx); [discriminate |].
  destruct (revert_scan ctx (seq 0 MAX_SNAPSHOTS)) as [j|] eqn:Hscan;
    [| discriminate].
  intros [= ->]. eapply revert_scan_Some. exact Hscan.
Qed.

(** *** The ring index *)

Lemma clear_slots_length (slots : list nat) (ring : list StateSnapshot) :
  length (fold_left clear_slot slots ring) = length ring.
Proof.
  apply (fold_left_invariant (fun l => length l = length ring)); [| reflexivity].
  intros l i Hl. unfold clear_slot. rewrite length_insert. exact Hl.
Qed.

Lemma selfHealInit_wf (ctx : SelfHealContext) (key : Z) (uninit : StateSnapshot)
  (qs : QFState) :
  length (snapshots ctx) = MAX_SNAPSHOTS ->
  context_wf (selfHealInit ctx key uninit qs).
Proof.
  intros Hring. unfold context_wf, selfHealInit. cbn [snapshots currentIndex].
  rewrite clear_slots_length, length_insert. unfold MAX_SNAPSHOTS in *. lia.
Qed.

Lemma selfHealSaveSnapshot_wf (ctx : SelfHealContext) (key : Z)
  (uninit : StateSnapshot) (qs : QFState) :
  context_wf ctx -> context_wf (selfHealSaveSnapshot ctx key uninit qs).
Proof.
  intros [Hring Hidx]. unfold context_wf, selfHealSaveSnapshot.
  cbn [snapshots currentIndex set_shadowCopy set_snapshots set_currentIndex].
  rewrite length_insert. unfold MAX_SNAPSHOTS in *.
  split; [exact Hring |].
  rewrite Z.rem_mod_nonneg by lia. lia.
Qed.

Lemma revert_slot_lt (ctx : SelfHealContext) (i : nat) :
  context_wf ctx -> (i <= 5)%nat -> (revert_slot ctx i < MAX_SNAPSHOTS)%nat.
Proof.
  intros [_ Hidx] Hi. unfold revert_slot, MAX_SNAPSHOTS in *.
  rewrite Z.rem_mod_nonneg by lia. lia.
Qed.

Lemma revert_scan_slot (ctx : SelfHealContext) (steps : list nat) (idx : nat) :
  context_wf ctx -> Forall (fun i => i <= 5)%nat steps ->
  revert_scan ctx steps = Some idx -> (idx < MAX_SNAPSHOTS)%nat.
Proof.
  intros Hwf. induction 1 as [|i rest Hi _ IH]; cbn [revert_scan]; [discriminate |].
  destruct (ephemeralKey (snapshots ctx !!! revert_slot ctx i) =? 0); [exact IH |].
  destruct (validateSnapshot _ (snapshots ctx !!! revert_slot ctx i)); [| exact IH].
  intros [= <-]. apply revert_slot_lt; assumption.
Qed.

Lemma recovery_path_slot (qs : QFState) (ctx : SelfHealContext) (idx : nat) :
  context_wf ctx -> recovery_path qs ctx = FullRevert idx ->
  (idx < MAX_SNAPSHOTS)%nat.
Proof.
  intros Hwf. unfold recovery_path.
  destruct (partial_repair_succeeds qs ctx); [discriminate |].
  destruct (revert_scan ctx (seq 0 MAX_SNAPSHOTS)) as [j|] eqn:Hscan;
    [| discriminate].
  intros [= ->]. eapply revert_scan_slot; [exact Hwf | | exact Hscan].
  apply Forall_forall. intros i Hi%list_elem_of_In%in_seq.
  unfold MAX_SNAPSHOTS in Hi. lia.
Qed.

Lemma context_wf_ext (c1 c2 : SelfHealContext) :
  snapshots c1 = snapshots c2 -> currentIndex c1 = currentIndex c2 ->
  context_wf c1 -> context_wf c2.
Proof. unfold context_wf. intros <- <-. trivial. Qed.

(** The ring keeps its five slots and a valid index across a recovery. *)
Lemma selfHealAttemptRecovery_wf (qs : QFState) (ctx : SelfHealContext)
  (key : Z) (uninit : StateSnapshot) :
  context_wf ctx -> context_wf (selfHealAttemptRecovery qs ctx key uninit).2.
Proof.
  intros Hwf. rewrite recover_cases.
  destruct (recovery_path qs ctx); cbn [snd].
  - eapply context_wf_ext;
      [| | apply (selfHealSaveSnapshot_wf
                    (set_partialRepairs (partialRepairs ctx + 1)
                       (set_consecutiveAnomalies (consecutiveAnomalies ctx + 1) ctx))
                    key uninit (partial_heal qs ctx).1); exact Hwf];
      reflexivity.
  - eapply context_wf_ext;
      [| | apply (selfHealSaveSnapshot_wf
                    (set_fullReverts (fullReverts ctx + 1)
                       (set_shadowCopy (snapshots ctx !!! idx)
                          (set_consecutiveAnomalies (consecutiveAnomalies ctx + 1) ctx)))
                    key uninit
                    (mkQFState (snap_state (snapshots ctx !!! idx))
                               (totalLen (snapshots ctx !!! idx)))); exact Hwf];
      reflexivity.
  - eapply context_wf_ext;
      [| | apply (selfHealInit_wf ctx key uninit (qfInit (partial_heal qs ctx).1));
           apply Hwf];
      reflexivity.
Qed.

(** *** Full revert *)

(** C1, as stated, fails: the fresh context holds one snapshot of the fresh
    state; a live state that differs from it in word 8 and in the byte
    counter is anomalous, is not repaired by Part A, and is fully reverted
    from slot 0, after which word 8 is no longer [5] but the snapshot's [0]. *)
Lemma full_revert_overwrites_word_8 :
  selfHealDetect corrupted_tail_state fresh_context = true /\
  recovery_path corrupted_tail_state fresh_context = FullRevert 0 /\
  state corrupted_tail_state !!! 8%nat = 5 /\
  state (selfHealAttemptRecovery corrupted_tail_state fresh_context
           2 blank_snapshot).1.2 !!! 8%nat = 0 /\
  state (selfHealAttemptRecovery corrupted_tail_state fresh_context
           2 blank_snapshot).1.2 !!! 8%nat
  <> state corrupted_tail_state !!! 8%nat.
Proof. vm_compute. repeat split. discriminate. Qed.

(** C1 (amended): a full revert reverts from a slot [idx] of the ring; it
    replaces the whole state, all 32 words, by the words captured in that
    snapshot, and sets [absorbedBytes] to its [totalLen]; the snapshot has a
    nonzero key and is consistent with its own tags. *)
Theorem full_revert_restores_snapshot (qs : QFState) (ctx : SelfHealContext)
  (key : Z) (uninit : StateSnapshot) (idx : nat)
  (Hwf : context_wf ctx)
  (Hpath : recovery_path qs ctx = FullRevert idx) :
  let snap := snapshots ctx !!! idx in
  let r := selfHealAttemptRecovery qs ctx key uninit in
  (idx < MAX_SNAPSHOTS)%nat /\
  r.1.1 = true /\
  state r.1.2 = snap_state snap /\
  absorbedBytes r.1.2 = totalLen snap /\
  ephemeralKey snap <> 0 /\
  validateSnapshot (snapshot_as_state snap) snap = true.
Proof.
  intros snap r. subst r.
  rewrite recover_cases, Hpath. cbn [fst snd state absorbedBytes].
  split; [exact (recovery_path_slot qs ctx idx Hwf Hpath) |].
  repeat split; try reflexivity;
    apply (recovery_path_FullRevert qs ctx idx Hpath).
Qed.

Lemma full_revert_restores_snapshot_witness :
  context_wf fresh_context /\
  recovery_path corrupted_tail_state fresh_context = FullRevert 0 /\
  state (selfHealAttemptRecovery corrupted_tail_state fresh_context
           2 blank_snapshot).1.2
  = snap_state (snapshots fresh_context !!! 0%nat).
Proof.
  split; [apply selfHealInit_wf; reflexivity |].
  split; [vm_compute; reflexivity |].
  apply (full_revert_restores_snapshot corrupted_tail_state fresh_context
           2 blank_snapshot 0);
    [apply selfHealInit_wf; reflexivity | vm_compute; reflexivity].
Defined.

(** *** Counters *)

Lemma save_counters (ctx : SelfHealContext) (key : Z) (uninit : StateSnapshot)
  (qs : QFState) :
  partialRepairs (selfHealSaveSnapshot ctx key uninit qs) = partialRepairs ctx /\
  fullReverts (selfHealSaveSnapshot ctx key uninit qs) = fullReverts ctx /\
  totalReinits (selfHealSaveSnapshot ctx key uninit qs) = totalReinits ctx.
Proof. repeat split. Qed.

(** C2, as stated, fails: after one full revert [fullReverts] is 1; when
    the ring keys are then wiped and the state corrupted, recovery
    reinitialises and [fullReverts] is back to 0.  After that
    [totalReinits] is 1, and a second reinitialisation leaves it at 1
    instead of making it 2. *)
Lemma reinit_resets_counters :
  let before := wipe_keys reverted_context in
  let after := (selfHealAttemptRecovery corrupted_head_state before
                  3 blank_snapshot).2 in
  let before' := wipe_keys after in
  let after' := (selfHealAttemptRecovery corrupted_head_state before'
                   4 blank_snapshot).2 in
  recovery_path corrupted_head_state before = Reinitialize /\
  fullReverts before = 1 /\ fullReverts after = 0 /\
  fullReverts after < fullReverts before /\
  recovery_path corrupted_head_state before' = Reinitialize /\
  totalReinits before' = 1 /\ totalReinits after' = 1 /\
  totalReinits after' <> totalReinits before' + 1.
Proof. vm_compute. repeat split; discriminate. Qed.

(** C2 (amended): [selfHealSaveSnapshot] leaves the three counters as they
    are ([selfHealDetect] returns a [bool] and writes nothing); a recovery
    that ends in a partial repair adds one to [partialRepairs], one that
    ends in a full revert adds one to [fullReverts], and both leave the
    other two counters unchanged; a recovery that ends in
    reinitialisation re-initialises the context, so [partialRepairs] and
    [fullReverts] are 0 afterwards. *)
Theorem counters_across_operations (qs : QFState) (ctx : SelfHealContext)
  (key : Z) (uninit : StateSnapshot) :
  let saved := selfHealSaveSnapshot ctx key uninit qs in
  let ctx' := (selfHealAttemptRecovery qs ctx key uninit).2 in
  (partialRepairs saved = partialRepairs ctx /\
   fullReverts saved = fullReverts ctx /\
   totalReinits saved = totalReinits ctx) /\
  match recovery_path qs ctx with
  | PartialRepair =>
      partialRepairs ctx' = partialRepairs ctx + 1 /\
      fullReverts ctx' = fullReverts ctx /\
      totalReinits ctx' = totalReinits ctx
  | FullRevert _ =>
      partialRepairs ctx' = partialRepairs ctx /\
      fullReverts ctx' = fullReverts ctx + 1 /\
      totalReinits ctx' = totalReinits ctx
  | Reinitialize =>
      partialRepairs ctx' = 0 /\ fullReverts ctx' = 0
  end.
Proof.
  intros saved ctx'. subst saved ctx'.
  split; [apply save_counters |].
  rewrite recover_cases.
  destruct (recovery_path qs ctx); repeat split.
Qed.

(** *** Reinitialisation *)

Lemma qfInit_value (qs : QFState) :
  qfInit qs =
  mkQFState ([0x6A09E667F3BCC908; 0xBB67AE8584CAA73B;
              0x3C6EF372FE94F82B; 0xA54FF53A5F1D36F1] ++ replicate 28 0) 0.
Proof. reflexivity. Qed.

(** [selfHealInit] reads the old context only through its ring. *)
Lemma selfHealInit_ext (c1 c2 : SelfHealContext) (key : Z)
  (uninit : StateSnapshot) (qs : QFState) :
  snapshots c1 = snapshots c2 ->
  selfHealInit c1 key uninit qs = selfHealInit c2 key uninit qs.
Proof. intros Hring. unfold selfHealInit. rewrite Hring. reflexivity. Qed.

Lemma recovery_path_Reinitialize (qs : QFState) (ctx : SelfHealContext) :
  recovery_path qs ctx = Reinitialize <->
  partial_repair_succeeds qs ctx = false /\
  revert_scan ctx (seq 0 MAX_SNAPSHOTS) = None.
Proof.
  unfold recovery_path.
  destruct (partial_repair_succeeds qs ctx);
    [split; [discriminate | intros [? _]; discriminate] |].
  destruct (revert_scan ctx (seq 0 MAX_SNAPSHOTS));
    [split; [discriminate | intros [_ ?]; discriminate] |].
  split; auto.
Qed.

(** *** Reinitialization *)

Lemma partial_heal_fixed_nonneg (qs : QFState) (ctx : SelfHealContext) :
  0 <= (partial_heal qs ctx).2.
Proof.
  unfold partial_heal.
  apply (fold_left_invariant (fun acc : QFState * Z => 0 <= acc.2));
    [| cbn [snd]; lia].
  intros [q k] i Hk. unfold partial_heal_at. cbn [snd] in Hk.
  destruct (negb _); cbn [snd]; lia.
Qed.

(** Part A does not end the call exactly when it fixed no word, or the
    state it leaves is still anomalous. *)
Lemma partial_repair_fails_iff (qs : QFState) (ctx : SelfHealContext) :
  partial_repair_succeeds qs ctx = false <->
  (partial_heal qs ctx).2 = 0 \/
  selfHealDetect (partial_heal qs ctx).1 ctx = true.
Proof.
  unfold partial_repair_succeeds.
  pose proof (partial_heal_fixed_nonneg qs ctx) as Hk.
  destruct (partial_heal qs ctx) as [q k]. cbn [fst snd] in *.
  rewrite andb_false_iff, Z.ltb_ge, negb_false_iff.
  split; (intros [H | H]; [left; lia | right; exact H]).
Qed.

(** The revert scan finds nothing exactly when every slot it visits has
    key 0 or does not validate against its own tags. *)
Lemma revert_scan_None (ctx : SelfHealContext) (steps : list nat) :
  revert_scan ctx steps = None <->
  forall i : nat, In i steps ->
    ephemeralKey (snapshots ctx !!! revert_slot ctx i) = 0 \/
    validateSnapshot (snapshot_as_state (snapshots ctx !!! revert_slot ctx i))
                     (snapshots ctx !!! revert_slot ctx i) = false.
Proof.
  induction steps as [|i rest IH]; cbn [revert_scan].
  - split; [intros _ i [] | reflexivity].
  - destruct (Z.eqb_spec (ephemeralKey (snapshots ctx !!! revert_slot ctx i)) 0)
      as [Hkey | Hkey].
    + rewrite IH. split.
      * intros Hrest j [<- | Hj]; [left; exact Hkey | apply Hrest, Hj].
      * intros Hall j Hj. apply Hall. right. exact Hj.
    + destruct (validateSnapshot
                  (snapshot_as_state (snapshots ctx !!! revert_slot ctx i))
                  (snapshots ctx !!! revert_slot ctx i)) eqn:Hval.
      * split; [discriminate |]. intros Hall.
        destruct (Hall i (or_introl eq_refl)) as [H | H];
          [contradiction | congruence].
      * rewrite IH. split.
        -- intros Hrest j [<- | Hj]; [right; exact Hval | apply Hrest, Hj].
        -- intros Hall j Hj. apply Hall. right. exact Hj.
Qed.

(** The five steps of the revert scan visit every slot of the ring. *)
Lemma revert_slot_onto (ctx : SelfHealContext) (j : nat) :
  context_wf ctx -> (j < MAX_SNAPSHOTS)%nat ->
  exists i : nat, (i < MAX_SNAPSHOTS)%nat /\ revert_slot ctx i = j.
Proof.
  intros [_ Hidx] Hj. unfold MAX_SNAPSHOTS in *.
  exists (Z.to_nat ((currentIndex ctx - Z.of_nat j) mod 5)).
  split; [lia |]. unfold revert_slot, MAX_SNAPSHOTS.
  rewrite Z.rem_mod_nonneg by lia. lia.
Qed.

Lemma revert_scan_None_ring (ctx : SelfHealContext) :
  context_wf ctx ->
  revert_scan ctx (seq 0 MAX_SNAPSHOTS) = None <->
  forall j : nat, (j < MAX_SNAPSHOTS)%nat ->
    ephemeralKey (snapshots ctx !!! j) = 0 \/
    validateSnapshot (snapshot_as_state (snapshots ctx !!! j))
                     (snapshots ctx !!! j) = false.
Proof.
  intros Hwf. rewrite revert_scan_None. split.
  - intros Hall j Hj.
    destruct (revert_slot_onto ctx j Hwf Hj) as (i & Hi & <-).
    apply Hall, in_seq. lia.
  - intros Hall i Hi%in_seq. apply Hall, revert_slot_lt; [exact Hwf |].
    unfold MAX_SNAPSHOTS in Hi. lia.
Qed.

(** The ring after the loop of [selfHealInit] has marked [n] slots, from
    slot 1 on, as unused. *)
Lemma clear_slots_lookup (ring : list StateSnapshot) (n i : nat) :
  (1 + n <= length ring)%nat ->
  fold_left clear_slot (seq 1 n) ring !!! i
  = if decide (1 <= i < 1 + n)%nat
    then mkSnapshot (snap_state (ring !!! i)) (totalLen (ring !!! i))
                    (replicate SNAP_WORDS 0) 0 0
    else ring !!! i.
Proof.
  revert i. induction n as [|n IH]; intros i Hn.
  - cbn [seq fold_left]. rewrite decide_False by lia. reflexivity.
  - rewrite seq_S, fold_left_app. cbn [fold_left]. unfold clear_slot at 1.
    destruct (decide (i = 1 + n)%nat) as [-> | Hne].
    + rewrite list_lookup_total_insert_eq by (rewrite clear_slots_length; lia).
      rewrite IH by lia. rewrite decide_False by lia.
      rewrite decide_True by lia. reflexivity.
    + rewrite list_lookup_total_insert_ne by congruence. rewrite IH by lia.
      destruct (decide (1 <= i < 1 + n)%nat).
      * rewrite decide_True by lia. reflexivity.
      * rewrite decide_False by lia. reflexivity.
Qed.

(** [selfHealInit], field by field: the new snapshot in slot 0 and in the
    shadow copy, the other slots marked as unused with their words and
    length left as they were, and every counter cleared. *)
Lemma selfHealInit_fields (ctx : SelfHealContext) (key : Z)
  (uninit : StateSnapshot) (qs : QFState) :
  length (snapshots ctx) = MAX_SNAPSHOTS ->
  let c := selfHealInit ctx key uninit qs in
  length (snapshots c) = MAX_SNAPSHOTS /\
  snapshots c !!! 0%nat = createSnapshot key uninit qs /\
  (forall i : nat, (1 <= i < MAX_SNAPSHOTS)%nat ->
     snapshots c !!! i
     = mkSnapshot (snap_state (snapshots ctx !!! i)) (totalLen (snapshots ctx !!! i))
                  (replicate SNAP_WORDS 0) 0 0) /\
  shadowCopy c = createSnapshot key uninit qs /\
  currentIndex c = 0 /\
  partialRepairs c = 0 /\ fullReverts c = 0 /\ totalReinits c = 0 /\
  consecutiveAnomalies c = 0.
Proof.
  intros Hring c. subst c. unfold selfHealInit.
  cbn [snapshots shadowCopy currentIndex partialRepairs fullReverts totalReinits
       consecutiveAnomalies].
  unfold MAX_SNAPSHOTS in *.
  split; [rewrite clear_slots_length, length_insert; exact Hring |].
  split; [| split; [| repeat split]].
  - rewrite clear_slots_lookup by (rewrite length_insert; lia).
    rewrite decide_False by lia.
    apply list_lookup_total_insert_eq. lia.
  - intros i Hi.
    rewrite clear_slots_lookup by (rewrite length_insert; lia).
    rewrite decide_True by lia.
    rewrite list_lookup_total_insert_ne by lia. reflexivity.
Qed.

Lemma wipe_keys_wf (ctx : SelfHealContext) :
  context_wf ctx -> context_wf (wipe_keys ctx).
Proof.
  intros [Hring Hidx]. unfold context_wf, wipe_keys, set_snapshots.
  cbn [snapshots currentIndex]. rewrite length_map. split; assumption.
Qed.

(** C7: in a context with five ring slots and an index in range, the call
    returns [false] exactly when Part A fixed no word or left a state that
    is still anomalous, and every slot of the ring has key 0 or does not
    validate against its own tags.  The state is then the constant initial
    state of [qfInit], and the context is initialised anew from it: the
    snapshot of that state, under the minted key, in the shadow copy and in
    slot 0, ring index 0, slots 1 to 4 marked as unused (key, combined tag
    and tags 0), [partialRepairs] and [fullReverts] 0, [totalReinits]
    counted once, and [consecutiveAnomalies] 0. *)
Theorem recover_false_iff_reinitialized (qs : QFState) (ctx : SelfHealContext)
  (key : Z) (uninit : StateSnapshot) (Hwf : context_wf ctx) :
  let r := selfHealAttemptRecovery qs ctx key uninit in
  (r.1.1 = false <->
   ((partial_heal qs ctx).2 = 0 \/
    selfHealDetect (partial_heal qs ctx).1 ctx = true) /\
   (forall j : nat, (j < MAX_SNAPSHOTS)%nat ->
      ephemeralKey (snapshots ctx !!! j) = 0 \/
      validateSnapshot (snapshot_as_state (snapshots ctx !!! j))
                       (snapshots ctx !!! j) = false)) /\
  (r.1.1 = false <-> recovery_path qs ctx = Reinitialize) /\
  (r.1.1 = false ->
   r.1.2 = qfInit qs /\
   state r.1.2 = [0x6A09E667F3BCC908; 0xBB67AE8584CAA73B;
                  0x3C6EF372FE94F82B; 0xA54FF53A5F1D36F1] ++ replicate 28 0 /\
   absorbedBytes r.1.2 = 0 /\
   r.2 = set_totalReinits 1 (selfHealInit ctx key uninit r.1.2) /\
   shadowCopy r.2 = createSnapshot key uninit r.1.2 /\
   snap_state (shadowCopy r.2) = state r.1.2 /\
   totalLen (shadowCopy r.2) = 0 /\
   ephemeralKey (shadowCopy r.2) = key /\
   currentIndex r.2 = 0 /\
   length (snapshots r.2) = MAX_SNAPSHOTS /\
   snapshots r.2 !!! 0%nat = shadowCopy r.2 /\
   (forall i : nat, (1 <= i < MAX_SNAPSHOTS)%nat ->
      snapshots r.2 !!! i
      = mkSnapshot (snap_state (snapshots ctx !!! i))
                   (totalLen (snapshots ctx !!! i))
                   (replicate SNAP_WORDS 0) 0 0) /\
   partialRepairs r.2 = 0 /\ fullReverts r.2 = 0 /\ totalReinits r.2 = 1 /\
   consecutiveAnomalies r.2 = 0).
Proof.
  intros r.
  assert (Hpath : r.1.1 = false <-> recovery_path qs ctx = Reinitialize).
  { subst r. rewrite recover_cases.
    destruct (recovery_path qs ctx); cbn [fst snd]; split;
      (reflexivity || discriminate). }
  split; [| split; [exact Hpath |]].
  - rewrite Hpath, recovery_path_Reinitialize, partial_repair_fails_iff,
      (revert_scan_None_ring ctx Hwf). reflexivity.
  - intros Hfalse. apply Hpath in Hfalse. subst r.
    rewrite recover_cases, Hfalse. cbn [fst snd].
    destruct Hwf as [Hring _].
    destruct (selfHealInit_fields
                (set_consecutiveAnomalies (consecutiveAnomalies ctx + 1) ctx)
                key uninit (qfInit (partial_heal qs ctx).1) Hring)
      as (Hlen & Hzero & Hrest & Hshadow & Hidx & Hpr & Hfr & _ & _).
    cbv zeta in Hlen, Hzero, Hrest, Hshadow, Hidx, Hpr, Hfr.
    rewrite (selfHealInit_ext _ ctx key uninit (qfInit (partial_heal qs ctx).1))
      in * by reflexivity.
    unfold set_consecutiveAnomalies, set_totalReinits.
    cbn [snapshots shadowCopy currentIndex partialRepairs fullReverts
         totalReinits consecutiveAnomalies].
    rewrite Hshadow, Hzero, Hidx, Hpr, Hfr, Hlen.
    repeat split.
    exact Hrest.
Qed.

Lemma recover_false_iff_reinitialized_witness :
  context_wf (wipe_keys reverted_context) /\
  (selfHealAttemptRecovery corrupted_head_state (wipe_keys reverted_context)
     3 blank_snapshot).1.1 = false /\
  (selfHealAttemptRecovery corrupted_head_state (wipe_keys reverted_context)
     3 blank_snapshot).1.2 = qfInit corrupted_head_state.
Proof.
  assert (Hwf : context_wf (wipe_keys reverted_context)).
  { apply wipe_keys_wf, selfHealAttemptRecovery_wf, selfHealInit_wf.
    reflexivity. }
  split; [exact Hwf |]. split; [vm_compute; reflexivity |].
  apply (recover_false_iff_reinitialized corrupted_head_state
           (wipe_keys reverted_context) 3 blank_snapshot Hwf).
  vm_compute; reflexivity.
Defined.

(** *** Unused ring slots *)

Lemma detect_ring_scan_none (qs : QFState) (ctx : SelfHealContext)
  (slots : list nat) (seen : list Probe) :
  (detect_ring_scan qs ctx slots seen).1 = false ->
  (detect_ring_scan qs ctx slots seen).2 = seen ++ map ProbeRing slots.
Proof.
  revert seen. induction slots as [|i rest IH]; intros seen; cbn [detect_ring_scan].
  - intros _. cbn. rewrite app_nil_r. reflexivity.
  - destruct (validateSnapshot qs (snapshots ctx !!! i)); [discriminate |].
    intros Hnone. rewrite IH by exact Hnone.
    rewrite <- app_assoc. reflexivity.
Qed.

(** Whenever [selfHealDetect] reports an anomaly for a state below the
    length ceiling, it has validated the state against the shadow copy and
    against each of the five ring slots, whatever their keys. *)
Lemma selfHealDetect_anomalous_probes (qs : QFState) (ctx : SelfHealContext) :
  selfHealDetect qs ctx = true -> absorbedBytes qs <= MAX_LEN ->
  (selfHealDetect_probes qs ctx).2
  = ProbeShadow :: map ProbeRing (seq 0 MAX_SNAPSHOTS).
Proof.
  unfold selfHealDetect, selfHealDetect_probes. intros Hanom Hlen.
  destruct (validateSnapshot qs (shadowCopy ctx)); [discriminate |].
  destruct (Z.ltb_spec MAX_LEN (absorbedBytes qs)) as [Hgt | _]; [lia |].
  pose proof (detect_ring_scan_none qs ctx (seq 0 MAX_SNAPSHOTS) [ProbeShadow])
    as Hscan.
  destruct (detect_ring_scan qs ctx (seq 0 MAX_SNAPSHOTS) [ProbeShadow])
    as [found seen].
  cbn [fst snd] in *. destruct found; [discriminate |].
  apply Hscan. reflexivity.
Qed.

(** C5 fails on the code for [selfHealDetect]: in the fresh context, slots
    1 to 4 of the ring have key 0, and a state with a corrupted word is
    validated against the shadow copy and then against every slot of the
    ring, those four included.  The revert scan of
    [selfHealAttemptRecovery] skips them ([revert_scan_Some]). *)
Theorem detect_probes_unused_slots :
  map (fun s => ephemeralKey s) (snapshots fresh_context) = [1; 0; 0; 0; 0] /\
  selfHealDetect_probes corrupted_word0_state fresh_context
  = (true, [ProbeShadow; ProbeRing 0; ProbeRing 1; ProbeRing 2;
            ProbeRing 3; ProbeRing 4]).
Proof. vm_compute. repeat split. Qed.

(** ** More on the sponge *)

(** *** Words and their bytes *)

Lemma get_byte_testbit (ws : list Z) (k : nat) (i : Z) :
  0 <= i < 64 ->
  Z.testbit (get_byte ws (8 * k + Z.to_nat (i / 8))) (i mod 8)
  = Z.testbit (ws !!! k) i.
Proof.
  intros Hi. unfold get_byte, lane_shift.
  replace ((8 * k + Z.to_nat (i / 8)) / 8)%nat with k by lia.
  replace (Z.of_nat ((8 * k + Z.to_nat (i / 8)) mod 8)) with (i / 8) by lia.
  change 0xFF with (Z.ones 8).
  rewrite Z.land_spec, Z.shiftr_spec, Z.testbit_ones_nonneg by lia.
  replace (i mod 8 <? 8) with true by (symmetry; apply Z.ltb_lt; lia).
  rewrite andb_true_r. f_equal. lia.
Qed.

(** Two arrays of 64-bit words with the same bytes are equal. *)
Lemma words_eq_of_bytes (ws1 ws2 : list Z) :
  length ws1 = length ws2 -> Forall u64 ws1 -> Forall u64 ws2 ->
  (forall j : nat, (j < 8 * length ws1)%nat -> get_byte ws1 j = get_byte ws2 j) ->
  ws1 = ws2.
Proof.
  intros Hlen Hu1 Hu2 Hbytes.
  apply (list_eq_same_length ws1 ws2 (length ws1)); [congruence | reflexivity |].
  intros k w1 w2 Hk Hw1 Hw2.
  apply list_lookup_total_correct in Hw1, Hw2. subst w1 w2.
  apply Z.bits_inj'. intros i Hi.
  destruct (Z_lt_le_dec i 64) as [Hlt | Hge].
  - rewrite <- !get_byte_testbit by lia.
    rewrite Hbytes by lia. reflexivity.
  - rewrite !u64_testbit_high by (try apply u64_lookup; assumption || lia).
    reflexivity.
Qed.

(** *** The byte counter rides along *)

Lemma qfPermutation_with_counter (a : Z) (qs : QFState) :
  qfPermutation (with_counter a qs) = with_counter a (qfPermutation qs).
Proof. unfold qfPermutation, with_counter. cbn [state absorbedBytes]. reflexivity. Qed.

Lemma xor_window_with_counter (a : Z) (qs : QFState) (chunk : list byte) :
  xor_window (with_counter a qs) chunk = with_counter a (xor_window qs chunk).
Proof. unfold xor_window, with_counter. cbn [state absorbedBytes]. reflexivity. Qed.

Lemma absorb_block_with_counter (a : Z) (qs : QFState) (block : list byte) :
  absorb_block (with_counter a qs) block = with_counter a (absorb_block qs block).
Proof.
  unfold absorb_block.
  rewrite xor_window_with_counter, qfPermutation_with_counter. reflexivity.
Qed.

Lemma absorb_blocks_with_counter (a : Z) (blocks : list (list byte)) (qs : QFState) :
  fold_left absorb_block blocks (with_counter a qs)
  = with_counter a (fold_left absorb_block blocks qs).
Proof.
  revert qs. induction blocks as [|b blocks IH]; intros qs; [reflexivity |].
  rewrite !fold_left_step, absorb_block_with_counter.
  apply (IH (absorb_block qs b)).
Qed.

Lemma absorb_loop_with_counter (a : Z) (qs : QFState) (data : list byte) (calls : nat) :
  absorb_loop (with_counter a qs) data calls
  = (with_counter a (absorb_loop qs data calls).1, (absorb_loop qs data calls).2).
Proof.
  rewrite !absorb_loop_windows, absorb_blocks_with_counter.
  rewrite xor_window_with_counter. reflexivity.
Qed.

Lemma iter_permutation_with_counter (a : Z) (k : nat) (qs : QFState) :
  Nat.iter k qfPermutation (with_counter a qs)
  = with_counter a (Nat.iter k qfPermutation qs).
Proof.
  induction k as [|k IH]; [reflexivity |].
  rewrite !Nat.iter_succ, IH. apply qfPermutation_with_counter.
Qed.

Lemma with_counter_id (qs : QFState) : with_counter (absorbedBytes qs) qs = qs.
Proof. destruct qs. reflexivity. Qed.

(** [qfAbsorb] in terms of the loop on the words. *)
Lemma qfAbsorb_counted_eq (qs : QFState) (data : list byte) :
  qfAbsorb_counted qs data
  = (with_counter (wrap64 (absorbedBytes qs + Z.of_nat (length data)))
       (absorb_loop qs data 0).1,
     (absorb_loop qs data 0).2).
Proof.
  unfold qfAbsorb_counted.
  change (mkQFState (state qs) ?a) with (with_counter a qs).
  apply absorb_loop_with_counter.
Qed.

(** *** Empty and short inputs *)

Lemma absorb_loop_short (qs : QFState) (data : list byte) (calls : nat) :
  (length data < rateBytes)%nat ->
  absorb_loop qs data calls = (xor_window qs data, calls).
Proof.
  intros Hshort. rewrite absorb_loop_eq.
  destruct (decide (0 < length data)%nat) as [Hpos | Hzero].
  - destruct (decide (length data < rateBytes)%nat); [reflexivity | lia].
  - destruct data; [| cbn in Hzero; lia]. rewrite xor_window_nil. reflexivity.
Qed.

(** X1: absorbing the empty input changes nothing: no word, no
    permutation, and a 64-bit counter keeps its value. *)
Theorem qfAbsorb_empty (qs : QFState) (Ha : u64 (absorbedBytes qs)) :
  qfAbsorb_counted qs [] = (qs, 0%nat).
Proof.
  rewrite qfAbsorb_counted_eq, absorb_loop_short by (unfold rateBytes; cbn; lia).
  cbn [fst snd length]. rewrite xor_window_nil, Z.add_0_r, u64_wrap64_id by exact Ha.
  rewrite with_counter_id. reflexivity.
Qed.

Lemma qfAbsorb_empty_witness :
  u64 (absorbedBytes fresh_state) /\ qfAbsorb_counted fresh_state [] = (fresh_state, 0%nat).
Proof.
  split; [unfold u64; cbn; lia |].
  apply (qfAbsorb_empty fresh_state). unfold u64; cbn; lia.
Defined.

(** *** Absorbing in several calls *)

Lemma absorb_loop_calls (qs : QFState) (data : list byte) (calls : nat) :
  absorb_loop qs data calls
  = ((absorb_loop qs data 0).1, (calls + (absorb_loop qs data 0).2)%nat).
Proof. rewrite !absorb_loop_windows. reflexivity. Qed.

Lemma absorb_loop_app (d1 : list byte) :
  forall (qs : QFState) (d2 : list byte) (calls : nat),
  (length d1 mod rateBytes = 0)%nat ->
  absorb_loop qs (d1 ++ d2) calls
  = absorb_loop (absorb_loop qs d1 0).1 d2 (calls + (absorb_loop qs d1 0).2).
Proof.
  remember (length d1) as n eqn:Hn. revert d1 Hn.
  induction n as [n IH] using lt_wf_ind. intros d1 Hn qs d2 calls Hmod.
  destruct (decide (n = 0)%nat) as [-> | Hpos].
  - destruct d1; [| discriminate].
    rewrite (absorb_loop_short qs []) by (unfold rateBytes; cbn; lia).
    rewrite xor_window_nil. cbn [app fst snd]. f_equal. lia.
  - assert (Hlong : (rateBytes <= length d1)%nat) by (unfold rateBytes in *; lia).
    rewrite (absorb_loop_eq qs (d1 ++ d2)), (absorb_loop_eq qs d1).
    rewrite length_app.
    destruct (decide (0 < length d1 + length d2)%nat) as [_ | Habs]; [| lia].
    destruct (decide (length d1 + length d2 < rateBytes)%nat) as [Habs | _]; [lia |].
    destruct (decide (0 < length d1)%nat) as [_ | Habs]; [| lia].
    destruct (decide (length d1 < rateBytes)%nat) as [Habs | _]; [lia |].
    rewrite xor_bytes_prefix by exact Hlong.
    rewrite drop_app_le by exact Hlong.
    set (q := qfPermutation _).
    rewrite (IH (n - rateBytes)%nat) with (d1 := drop rateBytes d1);
      [| unfold rateBytes in *; lia | rewrite length_drop; lia
       | unfold rateBytes in *; lia].
    rewrite (absorb_loop_calls q (drop rateBytes d1) 1). cbn [fst snd].
    f_equal. lia.
Qed.

Lemma qfAbsorb_concat (qs : QFState) (d1 d2 : list byte) :
  (length d1 mod 128 = 0)%nat ->
  qfAbsorb (qfAbsorb qs d1) d2 = qfAbsorb qs (d1 ++ d2).
Proof.
  intros Hwhole.
  unfold qfAbsorb. rewrite !qfAbsorb_counted_eq. cbn [fst snd].
  rewrite absorb_loop_with_counter. cbn [fst snd absorbedBytes with_counter].
  rewrite (absorb_loop_app d1 qs d2 0) by exact Hwhole.
  rewrite (absorb_loop_calls (absorb_loop qs d1 0).1 d2 (0 + _)). cbn [fst snd].
  unfold with_counter. cbn [state]. f_equal.
  unfold wrap64. rewrite length_app, Zplus_mod_idemp_l. f_equal. lia.
Qed.

(** X2: when the first input is a whole number of 128-byte windows,
    absorbing two inputs one after the other is absorbing their
    concatenation: same words, same counter, and the permutations add up. *)
Theorem qfAbsorb_app (qs : QFState) (d1 d2 : list byte)
  (Hwhole : (length d1 mod 128 = 0)%nat) :
  qfAbsorb (qfAbsorb qs d1) d2 = qfAbsorb qs (d1 ++ d2) /\
  (qfAbsorb_counted qs (d1 ++ d2)).2
  = ((qfAbsorb_counted qs d1).2 + (qfAbsorb_counted (qfAbsorb qs d1) d2).2)%nat.
Proof.
  split; [apply qfAbsorb_concat, Hwhole |].
  unfold qfAbsorb. rewrite !qfAbsorb_counted_eq. cbn [fst snd].
  rewrite absorb_loop_with_counter. cbn [fst snd].
  rewrite (absorb_loop_app d1 qs d2 0) by exact Hwhole.
  rewrite (absorb_loop_calls (absorb_loop qs d1 0).1 d2 (0 + _)). cbn [fst snd].
  lia.
Qed.

Lemma qfAbsorb_app_witness :
  (length (repeat x61 128) mod 128 = 0)%nat /\
  qfAbsorb (qfAbsorb fresh_state (repeat x61 128)) [x62]
  = qfAbsorb fresh_state (repeat x61 128 ++ [x62]).
Proof.
  split; [reflexivity |].
  apply (qfAbsorb_app fresh_state (repeat x61 128) [x62]). reflexivity.
Defined.

Lemma xor_window_byte_or_zero (qs : QFState) (chunk : list byte) (j : nat) :
  (length chunk <= 8 * length (state qs))%nat ->
  get_byte (state (xor_window qs chunk)) j
  = Z.lxor (get_byte (state qs) j) (byte_or_zero chunk j).
Proof.
  intros Hlen. rewrite xor_window_bytes by exact Hlen. unfold byte_or_zero.
  destruct (decide (j < length chunk)%nat); [reflexivity |].
  rewrite Z.lxor_0_r. reflexivity.
Qed.

Lemma qfAbsorb_short (qs : QFState) (data : list byte) :
  (length data < rateBytes)%nat ->
  qfAbsorb_counted qs data
  = (with_counter (wrap64 (absorbedBytes qs + Z.of_nat (length data)))
       (xor_window qs data), 0%nat).
Proof.
  intros Hshort. rewrite qfAbsorb_counted_eq, absorb_loop_short by exact Hshort.
  reflexivity.
Qed.

Lemma qfAbsorb_short_twice (qs : QFState) (d1 d2 : list byte) (j : nat) :
  length (state qs) = STATE_WORDS ->
  (length d1 < 128)%nat -> (length d2 < 128)%nat ->
  get_byte (state (qfAbsorb (qfAbsorb qs d1) d2)) j
  = Z.lxor (Z.lxor (get_byte (state qs) j) (byte_or_zero d1 j))
           (byte_or_zero d2 j).
Proof.
  intros Hlen H1 H2.
  unfold qfAbsorb. rewrite !qfAbsorb_short by assumption. cbn [fst snd].
  unfold with_counter. cbn [state].
  rewrite xor_window_byte_or_zero.
  - cbn [state]. rewrite xor_window_byte_or_zero; [reflexivity |].
    rewrite Hlen. unfold STATE_WORDS. lia.
  - cbn [state]. unfold xor_window. cbn [state]. rewrite xor_bytes_length, Hlen.
    unfold STATE_WORDS. lia.
Qed.

(** X3: two inputs shorter than 128 bytes, absorbed one after the other,
    are XORed onto the same leading bytes of the state: no permutation is
    called between them or after them. *)
Theorem qfAbsorb_short_overlap (qs : QFState) (d1 d2 : list byte)
  (Hlen : length (state qs) = STATE_WORDS)
  (H1 : (length d1 < 128)%nat) (H2 : (length d2 < 128)%nat) :
  (forall j : nat,
     get_byte (state (qfAbsorb (qfAbsorb qs d1) d2)) j
     = Z.lxor (Z.lxor (get_byte (state qs) j) (byte_or_zero d1 j))
              (byte_or_zero d2 j)) /\
  (qfAbsorb_counted qs d1).2 = 0%nat /\
  (qfAbsorb_counted (qfAbsorb qs d1) d2).2 = 0%nat.
Proof.
  split; [intros j; apply qfAbsorb_short_twice; assumption |].
  unfold qfAbsorb. rewrite !qfAbsorb_short by assumption. split; reflexivity.
Qed.

Lemma qfAbsorb_short_overlap_witness :
  length (state fresh_state) = STATE_WORDS /\
  (length [x61] < 128)%nat /\ (length [x62; x63] < 128)%nat /\
  (qfAbsorb_counted (qfAbsorb fresh_state [x61]) [x62; x63]).2 = 0%nat.
Proof.
  split; [reflexivity |]. split; [cbn; lia |]. split; [cbn; lia |].
  apply (qfAbsorb_short_overlap fresh_state [x61] [x62; x63]);
    [reflexivity | cbn; lia | cbn; lia].
Defined.

Lemma qfAbsorb_short_state (qs : QFState) (data : list byte) :
  (length data < rateBytes)%nat ->
  state (qfAbsorb qs data) = xor_bytes (state qs) data (length data).
Proof.
  intros Hshort. unfold qfAbsorb. rewrite qfAbsorb_short by exact Hshort.
  reflexivity.
Qed.

Lemma xor_bytes_byte_or_zero (ws : list Z) (data : list byte) (j : nat) :
  (length data <= 8 * length ws)%nat ->
  get_byte (xor_bytes ws data (length data)) j
  = Z.lxor (get_byte ws j) (byte_or_zero data j).
Proof.
  intros Hlen. rewrite xor_bytes_get_byte by exact Hlen. unfold byte_or_zero.
  destruct (decide (j < length data)%nat); [reflexivity |].
  rewrite Z.lxor_0_r. reflexivity.
Qed.

(** X4: on a well-formed state, the words left by two inputs shorter than
    128 bytes do not depend on the order of the two calls, and absorbing the
    same short input twice gives back the words one started from. *)
Theorem qfAbsorb_short_commute (qs : QFState) (d1 d2 : list byte)
  (Hwf : state_wf qs)
  (H1 : (length d1 < 128)%nat) (H2 : (length d2 < 128)%nat) :
  state (qfAbsorb (qfAbsorb qs d1) d2) = state (qfAbsorb (qfAbsorb qs d2) d1) /\
  state (qfAbsorb (qfAbsorb qs d1) d1) = state qs.
Proof.
  destruct Hwf as (Hlen & Hu & _). unfold STATE_WORDS in Hlen.
  rewrite !qfAbsorb_short_state by assumption.
  split.
  - apply words_eq_of_bytes;
      rewrite ?xor_bytes_length; try reflexivity;
      try (repeat apply xor_bytes_u64; exact Hu).
    intros j _.
    rewrite !xor_bytes_byte_or_zero by (rewrite ?xor_bytes_length; lia).
    rewrite !Z.lxor_assoc.
    f_equal. apply Z.lxor_comm.
  - apply words_eq_of_bytes;
      rewrite ?xor_bytes_length; try reflexivity;
      try (repeat apply xor_bytes_u64; exact Hu); try exact Hu.
    intros j _.
    rewrite !xor_bytes_byte_or_zero by (rewrite ?xor_bytes_length; lia).
    rewrite Z.lxor_assoc, Z.lxor_nilpotent, Z.lxor_0_r. reflexivity.
Qed.

Lemma qfAbsorb_short_commute_witness :
  state_wf fresh_state /\
  (length [x61] < 128)%nat /\ (length [x62; x63] < 128)%nat /\
  state (qfAbsorb (qfAbsorb fresh_state [x61]) [x62; x63])
  = state (qfAbsorb (qfAbsorb fresh_state [x62; x63]) [x61]).
Proof.
  split; [apply qfInit_wf |]. split; [cbn; lia |]. split; [cbn; lia |].
  apply (qfAbsorb_short_commute fresh_state [x61] [x62; x63]);
    [apply qfInit_wf | cbn; lia | cbn; lia].
Defined.

(** *** More on qfSqueeze *)

Lemma qfSqueeze_eq (qs : QFState) (outLen : nat) :
  qfSqueeze qs outLen = map (stream_byte (qfPermutation qs)) (seq 0 outLen).
Proof.
  unfold qfSqueeze, qfSqueeze_counted. rewrite squeeze_loop_stream. reflexivity.
Qed.

Lemma stream_byte_with_counter (a : Z) (qs : QFState) (j : nat) :
  stream_byte (with_counter a qs) j = stream_byte qs j.
Proof.
  unfold stream_byte. rewrite iter_permutation_with_counter. reflexivity.
Qed.

Lemma qfSqueeze_with_counter (a : Z) (qs : QFState) (outLen : nat) :
  qfSqueeze (with_counter a qs) outLen = qfSqueeze qs outLen.
Proof.
  rewrite !qfSqueeze_eq. apply map_ext. intros j.
  rewrite qfPermutation_with_counter. apply stream_byte_with_counter.
Qed.

(** X5: the bytes squeezed out depend on the 32 words only, not on the
    byte counter. *)
Theorem qfSqueeze_ignores_counter (ws : list Z) (a b : Z) (outLen : nat) :
  qfSqueeze (mkQFState ws a) outLen = qfSqueeze (mkQFState ws b) outLen.
Proof.
  change (mkQFState ws a) with (with_counter a (mkQFState ws b)).
  apply qfSqueeze_with_counter.
Qed.

(** X6: a shorter squeeze is a prefix of a longer one, and what follows the
    first 128 bytes is a squeeze of the permuted state. *)
Theorem qfSqueeze_prefix (qs : QFState) (m n : nat) :
  ((m <= n)%nat -> take m (qfSqueeze qs n) = qfSqueeze qs m) /\
  qfSqueeze qs (128 + n) = qfSqueeze qs 128 ++ qfSqueeze (qfPermutation qs) n.
Proof.
  rewrite !qfSqueeze_eq. split.
  - intros Hmn. rewrite !map_is_fmap, <- fmap_take, take_seq.
    replace (m `min` n)%nat with m by lia. reflexivity.
  - rewrite (seq_split_128 (128 + n)) by lia.
    replace (128 + n - 128)%nat with n by lia.
    rewrite map_app, map_map. f_equal.
    apply map_ext. intros k. symmetry. apply stream_byte_shift.
Qed.

Lemma qfSqueeze_prefix_witness :
  (3 <= 200)%nat /\
  take 3 (qfSqueeze fresh_state 200) = qfSqueeze fresh_state 3.
Proof.
  split; [lia |]. apply (qfSqueeze_prefix fresh_state 3 200). lia.
Defined.

(** X7: the three operations of the sponge keep a state well formed: 32
    words of 64 bits and a 64-bit counter. *)
Theorem sponge_keeps_state_wf (qs : QFState) (data : list byte)
  (Hwf : state_wf qs) :
  state_wf (qfInit qs) /\
  state_wf (qfPermutation qs) /\
  state_wf (qfAbsorb qs data).
Proof.
  split; [apply qfInit_wf |].
  split; [apply qfPermutation_wf, Hwf | apply qfAbsorb_wf, Hwf].
Qed.

Lemma sponge_keeps_state_wf_witness :
  state_wf fresh_state /\ state_wf (qfAbsorb fresh_state [x61; x62; x63]).
Proof.
  split; [apply qfInit_wf |].
  apply (sponge_keeps_state_wf fresh_state [x61; x62; x63]), qfInit_wf.
Defined.

(** ** The permutation is a bijection *)

Lemma fold_left_undo {A B} (P : A -> Prop) (f g : A -> B -> A) (l : list B) :
  (forall a b, In b l -> P a -> P (f a b) /\ g (f a b) b = a) ->
  forall a, P a -> fold_left g (rev l) (fold_left f l a) = a.
Proof.
  induction l as [|b l IH]; intros Hstep a Ha; [reflexivity |].
  rewrite fold_left_step. cbn [rev]. rewrite fold_left_app. cbn [fold_left].
  destruct (Hstep a b (or_introl eq_refl) Ha) as [Hfa Hg].
  rewrite IH; [exact Hg | | exact Hfa].
  intros a' b' Hb'. apply Hstep. right. exact Hb'.
Qed.

Lemma fold_left_redo {A B} (P : A -> Prop) (f g : A -> B -> A) (l : list B) :
  (forall a b, In b l -> P a -> P (g a b) /\ f (g a b) b = a) ->
  forall a, P a -> fold_left f l (fold_left g (rev l) a) = a.
Proof.
  intros Hstep a Ha.
  rewrite <- (rev_involutive l) at 1.
  apply (fold_left_undo P g f (rev l)); [| exact Ha].
  intros a' b' Hb'. apply Hstep. apply in_rev. exact Hb'.
Qed.

Lemma rotr64_testbit (y n i : Z) :
  u64 y -> 0 <= n < 64 -> 0 <= i < 64 ->
  Z.testbit (rotr64 y n) i = Z.testbit y ((i + n) mod 64).
Proof.
  intros Hy Hn Hi. unfold rotr64, wrap64.
  rewrite Z.lor_spec, Z.testbit_mod_pow2, Z.shiftr_spec, Z.shiftl_spec by lia.
  replace (i <? 64) with true by (symmetry; apply Z.ltb_lt; lia). cbn [andb].
  destruct (Z_lt_le_dec (i + n) 64) as [Hin | Hin].
  - rewrite (Z.testbit_neg_r y (i - (64 - n))) by lia. rewrite orb_false_r.
    f_equal. lia.
  - rewrite (u64_testbit_high y (i + n)) by (assumption || lia). cbn [orb].
    f_equal. lia.
Qed.

Lemma rotl64_testbit (x n i : Z) :
  u64 x -> 0 <= n < 64 -> 0 <= i < 64 ->
  Z.testbit (rotl64 x n) i = Z.testbit x ((i - n) mod 64).
Proof.
  intros Hx Hn Hi. rewrite rotl64_rotateLeft by assumption.
  apply rotateLeft_testbit; assumption.
Qed.

Lemma rotr64_u64 (x n : Z) : u64 x -> 0 <= n <= 64 -> u64 (rotr64 x n).
Proof.
  intros Hx Hn. unfold rotr64.
  apply u64_lor; [apply u64_shiftr; [assumption | lia] | apply u64_wrap64].
Qed.

Lemma u64_eq_of_bits (x y : Z) :
  u64 x -> u64 y ->
  (forall i, 0 <= i < 64 -> Z.testbit x i = Z.testbit y i) -> x = y.
Proof.
  intros Hx Hy Hbits. apply Z.bits_inj'. intros i Hi.
  destruct (Z_lt_le_dec i 64) as [Hlt | Hge]; [apply Hbits; lia |].
  rewrite !u64_testbit_high by (assumption || lia). reflexivity.
Qed.

Lemma rotr64_rotl64 (x n : Z) :
  u64 x -> 0 <= n < 64 -> rotr64 (rotl64 x n) n = x.
Proof.
  intros Hx Hn.
  assert (Hr : u64 (rotl64 x n)) by (apply rotl64_u64; [assumption | lia]).
  apply u64_eq_of_bits; [apply rotr64_u64; [assumption | lia] | assumption |].
  intros i Hi.
  rewrite rotr64_testbit, rotl64_testbit by (assumption || lia).
  f_equal.
  rewrite Zminus_mod_idemp_l. replace (i + n - n) with i by lia.
  apply Z.mod_small. lia.
Qed.

Lemma rotl64_rotr64 (x n : Z) :
  u64 x -> 0 <= n < 64 -> rotl64 (rotr64 x n) n = x.
Proof.
  intros Hx Hn.
  assert (Hr : u64 (rotr64 x n)) by (apply rotr64_u64; [assumption | lia]).
  apply u64_eq_of_bits; [apply rotl64_u64; [assumption | lia] | assumption |].
  intros i Hi.
  rewrite rotl64_testbit, rotr64_testbit by (assumption || lia).
  f_equal.
  rewrite Zplus_mod_idemp_l. replace (i - n + n) with i by lia.
  apply Z.mod_small. lia.
Qed.

(** *** Step 3, one index at a time *)

Lemma lane_mix_at_involutive (r : nat) (ws : list Z) (i : nat) :
  (i < 32)%nat -> words_wf ws ->
  words_wf (lane_mix_at r ws i) /\ lane_mix_at r (lane_mix_at r ws i) i = ws.
Proof.
  intros Hi [Hlen Hu]. unfold STATE_WORDS in Hlen.
  split.
  { split; [rewrite lane_mix_at_length; exact Hlen | apply lane_mix_at_u64, Hu]. }
  unfold lane_mix_at.
  assert (Hj : ((i + 5) mod 32 <> i)%nat) by lia.
  rewrite list_lookup_total_insert_eq by lia.
  rewrite list_lookup_total_insert_ne by lia.
  rewrite list_insert_insert_eq.
  rewrite Z.lxor_assoc, Z.lxor_nilpotent, Z.lxor_0_r.
  apply list_insert_id, list_lookup_lookup_total_lt. lia.
Qed.

(** *** Step 2, one pair at a time *)

Lemma unpair_mix_at_length r ws i : length (unpair_mix_at r ws i) = length ws.
Proof. unfold unpair_mix_at. rewrite !length_insert. reflexivity. Qed.

Lemma unpair_mix_at_u64 r ws i : Forall u64 ws -> Forall u64 (unpair_mix_at r ws i).
Proof.
  intros Hws. unfold unpair_mix_at.
  assert (Hb : u64 (Z.lxor (rotr64 (ws !!! (i + 1)%nat) (pair_rot_b i r)) (ws !!! i))).
  { apply u64_lxor; [| apply u64_lookup; assumption].
    apply rotr64_u64; [apply u64_lookup; assumption |].
    pose proof (pair_rot_b_range i r). lia. }
  apply Forall_insert; [apply Forall_insert; [assumption |] | assumption].
  apply u64_lxor; [| assumption].
  apply rotr64_u64; [apply u64_lookup; assumption |].
  pose proof (pair_rot_a_range i r). lia.
Qed.

Lemma pair_insert_id (ws : list Z) (i : nat) (a b a' b' : Z) :
  (i + 1 < length ws)%nat -> ws !!! i = a -> ws !!! (i + 1)%nat = b ->
  <[(i + 1)%nat := b]> (<[i := a]> (<[(i + 1)%nat := b']> (<[i := a']> ws))) = ws.
Proof.
  intros Hi Ha Hb.
  rewrite (list_insert_insert_ne _ i (i + 1)%nat a b') by lia.
  rewrite !list_insert_insert_eq.
  rewrite (list_insert_id ws i a)
    by (rewrite <- Ha; apply list_lookup_lookup_total_lt; lia).
  apply list_insert_id. rewrite <- Hb. apply list_lookup_lookup_total_lt. lia.
Qed.

Lemma pair_lookups (ws : list Z) (i : nat) (a b : Z) :
  (i + 1 < length ws)%nat ->
  <[(i + 1)%nat := b]> (<[i := a]> ws) !!! i = a /\
  <[(i + 1)%nat := b]> (<[i := a]> ws) !!! (i + 1)%nat = b.
Proof.
  intros Hi. split.
  - rewrite list_lookup_total_insert_ne by lia.
    apply list_lookup_total_insert_eq. lia.
  - apply list_lookup_total_insert_eq. rewrite length_insert. lia.
Qed.

Lemma unpair_pair_mix_at (r : nat) (ws : list Z) (i : nat) :
  (i + 1 < 32)%nat -> words_wf ws ->
  words_wf (pair_mix_at r ws i) /\ unpair_mix_at r (pair_mix_at r ws i) i = ws.
Proof.
  intros Hi [Hlen Hu]. unfold STATE_WORDS in Hlen.
  split.
  { split; [rewrite pair_mix_at_length; exact Hlen | apply pair_mix_at_u64, Hu]. }
  pose proof (u64_lookup ws i Hu) as Ha.
  pose proof (u64_lookup ws (i + 1) Hu) as Hb.
  pose proof (pair_rot_a_range i r) as Hra.
  pose proof (pair_rot_b_range i r) as Hrb.
  unfold unpair_mix_at, pair_mix_at.
  set (a := ws !!! i) in *. set (b := ws !!! (i + 1)%nat) in *.
  set (a' := rotl64 (Z.lxor a b) (pair_rot_a i r)).
  set (b' := rotl64 (Z.lxor b a') (pair_rot_b i r)).
  destruct (pair_lookups ws i a' b') as [-> ->]; [lia |].
  assert (Ha' : u64 a')
    by (apply rotl64_u64; [apply u64_lxor; assumption | lia]).
  subst b'. rewrite rotr64_rotl64 by (try apply u64_lxor; assumption).
  rewrite Z.lxor_assoc, Z.lxor_nilpotent, Z.lxor_0_r.
  subst a'. rewrite rotr64_rotl64 by (try apply u64_lxor; assumption).
  rewrite Z.lxor_assoc, Z.lxor_nilpotent, Z.lxor_0_r.
  apply pair_insert_id; [lia | reflexivity | reflexivity].
Qed.

Lemma pair_unpair_mix_at (r : nat) (ws : list Z) (i : nat) :
  (i + 1 < 32)%nat -> words_wf ws ->
  words_wf (unpair_mix_at r ws i) /\ pair_mix_at r (unpair_mix_at r ws i) i = ws.
Proof.
  intros Hi [Hlen Hu]. unfold STATE_WORDS in Hlen.
  split.
  { split; [rewrite unpair_mix_at_length; exact Hlen | apply unpair_mix_at_u64, Hu]. }
  pose proof (u64_lookup ws i Hu) as Ha.
  pose proof (u64_lookup ws (i + 1) Hu) as Hb.
  pose proof (pair_rot_a_range i r) as Hra.
  pose proof (pair_rot_b_range i r) as Hrb.
  unfold unpair_mix_at, pair_mix_at.
  set (a' := ws !!! i) in *. set (b' := ws !!! (i + 1)%nat) in *.
  set (b := Z.lxor (rotr64 b' (pair_rot_b i r)) a').
  set (a := Z.lxor (rotr64 a' (pair_rot_a i r)) b).
  destruct (pair_lookups ws i a b) as [-> ->]; [lia |].
  assert (Hab : Z.lxor a b = rotr64 a' (pair_rot_a i r)).
  { subst a. rewrite Z.lxor_assoc, Z.lxor_nilpotent, Z.lxor_0_r. reflexivity. }
  rewrite Hab, rotl64_rotr64 by assumption.
  assert (Hba : Z.lxor b a' = rotr64 b' (pair_rot_b i r)).
  { subst b. rewrite Z.lxor_assoc, Z.lxor_nilpotent, Z.lxor_0_r. reflexivity. }
  rewrite Hba, rotl64_rotr64 by assumption.
  apply pair_insert_id; [lia | reflexivity | reflexivity].
Qed.

(** *** Step 1 *)

Lemma inject_constant_involutive (r : nat) (ws : list Z) :
  words_wf ws ->
  words_wf (inject_constant r ws) /\ inject_constant r (inject_constant r ws) = ws.
Proof.
  intros [Hlen Hu]. unfold STATE_WORDS in Hlen.
  split.
  { split; [rewrite inject_constant_length; exact Hlen | apply inject_constant_u64, Hu]. }
  unfold inject_constant, STATE_WORDS.
  rewrite list_lookup_total_insert_eq by lia.
  rewrite list_insert_insert_eq.
  rewrite Z.lxor_assoc, Z.lxor_nilpotent, Z.lxor_0_r.
  apply list_insert_id, list_lookup_lookup_total_lt. lia.
Qed.

(** *** Rounds *)

Lemma even_indices_bound (i : nat) : In i even_indices -> (i + 1 < 32)%nat.
Proof.
  unfold even_indices. intros (k & <- & Hk%in_seq)%in_map_iff. lia.
Qed.

Lemma lane_mix_wf (r : nat) (idx : list nat) (ws : list Z) :
  words_wf ws -> words_wf (fold_left (lane_mix_at r) idx ws).
Proof.
  apply (fold_left_invariant words_wf). intros l i [Hl Hu].
  split; [rewrite lane_mix_at_length; exact Hl | apply lane_mix_at_u64, Hu].
Qed.

Lemma pair_mix_wf (r : nat) (idx : list nat) (ws : list Z) :
  words_wf ws -> words_wf (fold_left (pair_mix_at r) idx ws).
Proof.
  apply (fold_left_invariant words_wf). intros l i [Hl Hu].
  split; [rewrite pair_mix_at_length; exact Hl | apply pair_mix_at_u64, Hu].
Qed.

Lemma unpair_mix_wf (r : nat) (idx : list nat) (ws : list Z) :
  words_wf ws -> words_wf (fold_left (unpair_mix_at r) idx ws).
Proof.
  apply (fold_left_invariant words_wf). intros l i [Hl Hu].
  split; [rewrite unpair_mix_at_length; exact Hl | apply unpair_mix_at_u64, Hu].
Qed.

Lemma qfRound_wf (ws : list Z) (r : nat) : words_wf ws -> words_wf (qfRound ws r).
Proof.
  intros Hwf. unfold qfRound, lane_mix, pair_mix.
  apply lane_mix_wf, pair_mix_wf, inject_constant_involutive, Hwf.
Qed.

Lemma qfRound_inverse_wf (ws : list Z) (r : nat) :
  words_wf ws -> words_wf (qfRound_inverse ws r).
Proof.
  intros Hwf. unfold qfRound_inverse.
  apply inject_constant_involutive, unpair_mix_wf, lane_mix_wf, Hwf.
Qed.

Lemma qfRound_undo (ws : list Z) (r : nat) :
  words_wf ws -> qfRound_inverse (qfRound ws r) r = ws.
Proof.
  intros Hwf. unfold qfRound_inverse, qfRound, lane_mix, pair_mix.
  pose proof (proj1 (inject_constant_involutive r ws Hwf)) as Hwf1.
  pose proof (pair_mix_wf r even_indices _ Hwf1) as Hwf2.
  rewrite (fold_left_undo words_wf (lane_mix_at r) (lane_mix_at r) (seq 0 32));
    [| | exact Hwf2].
  2: { intros a i Hi%in_seq Ha. apply lane_mix_at_involutive; [lia | exact Ha]. }
  rewrite (fold_left_undo words_wf (pair_mix_at r) (unpair_mix_at r) even_indices);
    [| | exact Hwf1].
  2: { intros a i Hi%even_indices_bound Ha.
       apply unpair_pair_mix_at; assumption. }
  apply inject_constant_involutive, Hwf.
Qed.

Lemma qfRound_redo (ws : list Z) (r : nat) :
  words_wf ws -> qfRound (qfRound_inverse ws r) r = ws.
Proof.
  intros Hwf. unfold qfRound_inverse, qfRound, lane_mix, pair_mix.
  pose proof (lane_mix_wf r (rev (seq 0 32)) ws Hwf) as Hwf1.
  pose proof (unpair_mix_wf r (rev even_indices) _ Hwf1) as Hwf2.
  rewrite (proj2 (inject_constant_involutive r _ Hwf2)).
  rewrite (fold_left_redo words_wf (pair_mix_at r) (unpair_mix_at r) even_indices);
    [| | exact Hwf1].
  2: { intros a i Hi%even_indices_bound Ha.
       apply pair_unpair_mix_at; assumption. }
  apply (fold_left_redo words_wf (lane_mix_at r) (lane_mix_at r) (seq 0 32));
    [| exact Hwf].
  intros a i Hi%in_seq Ha. apply lane_mix_at_involutive; [lia | exact Ha].
Qed.

Lemma state_wf_words (qs : QFState) : state_wf qs -> words_wf (state qs).
Proof. intros (Hl & Hu & _). split; assumption. Qed.

Lemma qfPermutation_inverse_left (qs : QFState) :
  state_wf qs -> qfPermutation_inverse (qfPermutation qs) = qs.
Proof.
  intros Hwf. unfold qfPermutation_inverse, qfPermutation.
  cbn [state absorbedBytes].
  rewrite (fold_left_undo words_wf qfRound qfRound_inverse (seq 0 24));
    [destruct qs; reflexivity | | apply state_wf_words, Hwf].
  intros ws r _ Hws. split; [apply qfRound_wf, Hws | apply qfRound_undo, Hws].
Qed.

Lemma qfPermutation_inverse_right (qs : QFState) :
  state_wf qs -> qfPermutation (qfPermutation_inverse qs) = qs.
Proof.
  intros Hwf. unfold qfPermutation_inverse, qfPermutation.
  cbn [state absorbedBytes].
  rewrite (fold_left_redo words_wf qfRound qfRound_inverse (seq 0 24));
    [destruct qs; reflexivity | | apply state_wf_words, Hwf].
  intros ws r _ Hws.
  split; [apply qfRound_inverse_wf, Hws | apply qfRound_redo, Hws].
Qed.

Lemma qfPermutation_inverse_wf (qs : QFState) :
  state_wf qs -> state_wf (qfPermutation_inverse qs).
Proof.
  intros Hwf. pose proof (state_wf_words qs Hwf) as Hws.
  destruct Hwf as (_ & _ & Ha).
  assert (Hinv : words_wf (state (qfPermutation_inverse qs))).
  { unfold qfPermutation_inverse. cbn [state].
    apply (fold_left_invariant words_wf); [| exact Hws].
    intros ws r. apply qfRound_inverse_wf. }
  destruct Hinv as [Hl Hu]. split; [exact Hl | split; [exact Hu | exact Ha]].
Qed.

(** X8: on well-formed states [qfPermutation] is a bijection: undoing the
    24 rounds in reverse order gives back the state, every well-formed state
    is the image of one, and two different states never have the same
    image. *)
Theorem qfPermutation_bijective (qs qs' : QFState)
  (Hwf : state_wf qs) (Hwf' : state_wf qs') :
  qfPermutation_inverse (qfPermutation qs) = qs /\
  qfPermutation (qfPermutation_inverse qs) = qs /\
  state_wf (qfPermutation_inverse qs) /\
  (qfPermutation qs = qfPermutation qs' -> qs = qs').
Proof.
  split; [apply qfPermutation_inverse_left, Hwf |].
  split; [apply qfPermutation_inverse_right, Hwf |].
  split; [apply qfPermutation_inverse_wf, Hwf |].
  intros Heq.
  rewrite <- (qfPermutation_inverse_left qs Hwf),
          <- (qfPermutation_inverse_left qs' Hwf'), Heq.
  reflexivity.
Qed.

Lemma qfPermutation_bijective_witness :
  state_wf fresh_state /\
  qfPermutation_inverse (qfPermutation fresh_state) = fresh_state.
Proof.
  split; [apply qfInit_wf |].
  exact (proj1 (qfPermutation_bijective fresh_state fresh_state
                  (qfInit_wf _) (qfInit_wf _))).
Defined.

(** ** More on snapshots and detection *)

Lemma forallb_ext_in {A} (f g : A -> bool) (l : list A) :
  (forall x, In x l -> f x = g x) -> forallb f l = forallb g l.
Proof.
  induction l as [|x l IH]; intros Hfg; [reflexivity |].
  cbn [forallb]. rewrite (Hfg x (or_introl eq_refl)), IH; [reflexivity |].
  intros y Hy. apply Hfg. right. exact Hy.
Qed.

Lemma validateSnapshot_covered (qs qs' : QFState) (snap : StateSnapshot) :
  same_covered qs qs' -> validateSnapshot qs snap = validateSnapshot qs' snap.
Proof.
  intros [Hwords Hcount]. unfold validateSnapshot.
  rewrite (forallb_ext_in _
             (fun i => miniHash [state qs' !!! i] (ephemeralKey snap)
                       =? partialChecks snap !!! i) (seq 0 8)).
  2: { intros i Hi%in_seq. rewrite Hwords by lia. reflexivity. }
  rewrite (map_ext_in _ (fun i => state qs' !!! i) (seq 0 8)).
  2: { intros i Hi%in_seq. apply Hwords. lia. }
  rewrite Hcount. reflexivity.
Qed.

Lemma detect_ring_scan_covered (qs qs' : QFState) (ctx : SelfHealContext)
  (slots : list nat) (seen : list Probe) :
  same_covered qs qs' ->
  detect_ring_scan qs ctx slots seen = detect_ring_scan qs' ctx slots seen.
Proof.
  intros Hsame. revert seen.
  induction slots as [|i rest IH]; intros seen; cbn [detect_ring_scan];
    [reflexivity |].
  rewrite (validateSnapshot_covered qs qs') by exact Hsame.
  rewrite IH. reflexivity.
Qed.

(** X9: the integrity tags cover the first eight words and the byte
    counter and nothing else: two states that agree on those get the same
    answer from [validateSnapshot] and from [selfHealDetect], whatever their
    words 8 to 31 are. *)
Theorem detect_blind_to_uncovered_words (qs qs' : QFState) (ctx : SelfHealContext)
  (snap : StateSnapshot) (Hsame : same_covered qs qs') :
  validateSnapshot qs snap = validateSnapshot qs' snap /\
  selfHealDetect qs ctx = selfHealDetect qs' ctx.
Proof.
  split; [apply validateSnapshot_covered, Hsame |].
  unfold selfHealDetect, selfHealDetect_probes.
  rewrite (validateSnapshot_covered qs qs') by exact Hsame.
  rewrite (detect_ring_scan_covered qs qs') by exact Hsame.
  destruct Hsame as [_ ->]. reflexivity.
Qed.

Lemma same_covered_tail_corruption :
  same_covered fresh_state (mkQFState (<[8%nat := 5]> (state fresh_state)) 0).
Proof.
  split; [| reflexivity]. intros i Hi.
  cbn [state]. rewrite list_lookup_total_insert_ne by lia. reflexivity.
Defined.

Lemma detect_blind_to_uncovered_words_witness :
  same_covered fresh_state (mkQFState (<[8%nat := 5]> (state fresh_state)) 0) /\
  selfHealDetect fresh_state fresh_context
  = selfHealDetect (mkQFState (<[8%nat := 5]> (state fresh_state)) 0) fresh_context.
Proof.
  split; [exact same_covered_tail_corruption |].
  apply (detect_blind_to_uncovered_words fresh_state _ fresh_context blank_snapshot).
  exact same_covered_tail_corruption.
Defined.

(** A state validates against a snapshot captured from it. *)
Lemma validateSnapshot_createSnapshot (qs : QFState) (key : Z)
  (uninit : StateSnapshot) :
  length (partialChecks uninit) = SNAP_WORDS ->
  validateSnapshot qs (createSnapshot key uninit qs) = true.
Proof.
  intros Hsize. unfold validateSnapshot, createSnapshot, fillChecksums.
  cbn [ephemeralKey partialChecks fullChecksum snap_state totalLen].
  rewrite Z.eqb_refl.
  replace (forallb _ _) with true; [reflexivity |].
  symmetry. apply forallb_forall. intros i Hi%in_seq.
  rewrite (fill_lookup (fun i => miniHash [state qs !!! i] key));
    [apply Z.eqb_refl | lia |].
  rewrite Hsize. unfold SNAP_WORDS. lia.
Qed.

Lemma selfHealDetect_shadow (qs : QFState) (ctx : SelfHealContext) :
  validateSnapshot qs (shadowCopy ctx) = true -> selfHealDetect qs ctx = false.
Proof.
  intros Hval. unfold selfHealDetect, selfHealDetect_probes. rewrite Hval.
  reflexivity.
Qed.

(** X10: right after [selfHealInit] or [selfHealSaveSnapshot] the state
    that was captured is not anomalous, whatever key was minted and whatever
    the context held before. *)
Theorem detect_after_save (qs : QFState) (ctx : SelfHealContext) (key : Z)
  (uninit : StateSnapshot)
  (Hsize : length (partialChecks uninit) = SNAP_WORDS) :
  selfHealDetect qs (selfHealInit ctx key uninit qs) = false /\
  selfHealDetect qs (selfHealSaveSnapshot ctx key uninit qs) = false.
Proof.
  split; apply selfHealDetect_shadow;
    apply (validateSnapshot_createSnapshot qs key uninit Hsize).
Qed.

Lemma detect_after_save_witness :
  length (partialChecks blank_snapshot) = SNAP_WORDS /\
  selfHealDetect corrupted_tail_state
    (selfHealSaveSnapshot fresh_context 7 blank_snapshot corrupted_tail_state)
  = false.
Proof.
  split; [reflexivity |].
  apply (detect_after_save corrupted_tail_state fresh_context 7 blank_snapshot).
  reflexivity.
Defined.

(** X11: whichever of its three parts ends it, a recovery leaves a state
    that the new shadow copy was captured from, so an immediate
    [selfHealDetect] reports no anomaly; and [consecutiveAnomalies] is 0
    after every call. *)
Theorem recovery_ends_healthy (qs : QFState) (ctx : SelfHealContext) (key : Z)
  (uninit : StateSnapshot)
  (Hsize : length (partialChecks uninit) = SNAP_WORDS) :
  let r := selfHealAttemptRecovery qs ctx key uninit in
  shadowCopy r.2 = createSnapshot key uninit r.1.2 /\
  selfHealDetect r.1.2 r.2 = false /\
  consecutiveAnomalies r.2 = 0.
Proof.
  intros r.
  assert (Hshadow : shadowCopy r.2 = createSnapshot key uninit r.1.2
                    /\ consecutiveAnomalies r.2 = 0).
  { subst r. rewrite recover_cases. cbv zeta.
    destruct (recovery_path qs ctx); cbn [fst snd];
      unfold set_consecutiveAnomalies; cbn [shadowCopy consecutiveAnomalies];
      (split; [| reflexivity]).
    - unfold selfHealSaveSnapshot, set_shadowCopy. cbn [shadowCopy]. reflexivity.
    - unfold selfHealSaveSnapshot, set_shadowCopy. cbn [shadowCopy]. reflexivity.
    - unfold set_totalReinits, selfHealInit. cbn [shadowCopy]. reflexivity. }
  destruct Hshadow as [Hshadow Hzero].
  split; [exact Hshadow |]. split; [| exact Hzero].
  apply selfHealDetect_shadow. rewrite Hshadow.
  apply validateSnapshot_createSnapshot, Hsize.
Qed.

Lemma recovery_ends_healthy_witness :
  length (partialChecks blank_snapshot) = SNAP_WORDS /\
  selfHealDetect
    (selfHealAttemptRecovery corrupted_tail_state fresh_context 2 blank_snapshot).1.2
    (selfHealAttemptRecovery corrupted_tail_state fresh_context 2 blank_snapshot).2
  = false.
Proof.
  split; [reflexivity |].
  apply (recovery_ends_healthy corrupted_tail_state fresh_context 2 blank_snapshot).
  reflexivity.
Defined.

(** ** More on the ring *)

Lemma selfHealSaveSnapshot_fields (ctx : SelfHealContext) (key : Z)
  (uninit : StateSnapshot) (qs : QFState) :
  let idx := Z.rem (currentIndex ctx + 1) (Z.of_nat MAX_SNAPSHOTS) in
  let c' := selfHealSaveSnapshot ctx key uninit qs in
  currentIndex c' = idx /\
  snapshots c' = <[Z.to_nat idx := createSnapshot key uninit qs]> (snapshots ctx) /\
  shadowCopy c' = createSnapshot key uninit qs.
Proof. repeat split. Qed.

Lemma save_index (ctx : SelfHealContext) (key : Z) (uninit : StateSnapshot)
  (qs : QFState) :
  context_wf ctx ->
  currentIndex (selfHealSaveSnapshot ctx key uninit qs)
  = (currentIndex ctx + 1) mod 5.
Proof.
  intros [_ Hidx]. unfold MAX_SNAPSHOTS in Hidx.
  destruct (selfHealSaveSnapshot_fields ctx key uninit qs) as (-> & _ & _).
  unfold MAX_SNAPSHOTS. apply Z.rem_mod_nonneg; lia.
Qed.

Lemma selfHealSaveSnapshot_slots (ctx : SelfHealContext) (key : Z)
  (uninit : StateSnapshot) (qs : QFState) (i : nat) :
  context_wf ctx -> (i < MAX_SNAPSHOTS)%nat ->
  let c' := selfHealSaveSnapshot ctx key uninit qs in
  context_wf c' /\
  currentIndex c' = (currentIndex ctx + 1) mod 5 /\
  shadowCopy c' = createSnapshot key uninit qs /\
  snapshots c' !!! Z.to_nat (currentIndex c') = shadowCopy c' /\
  (i <> Z.to_nat (currentIndex c') -> snapshots c' !!! i = snapshots ctx !!! i).
Proof.
  intros Hwf Hi c'. subst c'.
  pose proof (selfHealSaveSnapshot_wf ctx key uninit qs Hwf) as Hwf'.
  pose proof (save_index ctx key uninit qs Hwf) as Hidx.
  destruct (selfHealSaveSnapshot_fields ctx key uninit qs) as (Hcur & Hring & Hshadow).
  cbv zeta in Hcur, Hring.
  destruct Hwf as [Hlen Hrange]. unfold MAX_SNAPSHOTS in *.
  split; [exact Hwf' |]. split; [exact Hidx |]. split; [exact Hshadow |].
  rewrite Hring, Hshadow, <- Hcur. split.
  - apply list_lookup_total_insert_eq. rewrite Hidx. lia.
  - intros Hne. apply list_lookup_total_insert_ne. congruence.
Qed.

(** X12: in a context with five ring slots and an index in range,
    [selfHealSaveSnapshot] writes the new snapshot into the slot after
    [currentIndex], circularly, makes it the shadow copy, and leaves the
    other four slots as they were. *)
Theorem save_writes_next_slot (ctx : SelfHealContext) (key : Z)
  (uninit : StateSnapshot) (qs : QFState) (i : nat)
  (Hwf : context_wf ctx) (Hi : (i < MAX_SNAPSHOTS)%nat) :
  let c' := selfHealSaveSnapshot ctx key uninit qs in
  context_wf c' /\
  currentIndex c' = (currentIndex ctx + 1) mod 5 /\
  shadowCopy c' = createSnapshot key uninit qs /\
  snapshots c' !!! Z.to_nat (currentIndex c') = shadowCopy c' /\
  (i <> Z.to_nat (currentIndex c') -> snapshots c' !!! i = snapshots ctx !!! i).
Proof.
  intros c'. subst c'.
  pose proof (selfHealSaveSnapshot_wf ctx key uninit qs Hwf) as Hwf'.
  pose proof (save_index ctx key uninit qs Hwf) as Hidx.
  destruct (selfHealSaveSnapshot_fields ctx key uninit qs) as (Hcur & Hring & Hshadow).
  cbv zeta in Hcur, Hring.
  destruct Hwf as [Hlen Hrange]. unfold MAX_SNAPSHOTS in *.
  split; [exact Hwf' |]. split; [exact Hidx |]. split; [exact Hshadow |].
  rewrite Hring, Hshadow, <- Hcur. split.
  - apply list_lookup_total_insert_eq. rewrite Hidx. lia.
  - intros Hne. apply list_lookup_total_insert_ne. congruence.
Qed.


Lemma save_writes_next_slot_witness :
  context_wf fresh_context /\ (0 < MAX_SNAPSHOTS)%nat /\
  currentIndex (selfHealSaveSnapshot fresh_context 7 blank_snapshot fresh_state)
  = (currentIndex fresh_context + 1) mod 5.
Proof.
  split; [apply selfHealInit_wf; reflexivity |].
  split; [unfold MAX_SNAPSHOTS; lia |].
  apply (save_writes_next_slot fresh_context 7 blank_snapshot fresh_state 0);
    [apply selfHealInit_wf; reflexivity | unfold MAX_SNAPSHOTS; lia].
Defined.

Lemma saves_ring (calls : list SaveCall) :
  forall ctx : SelfHealContext, context_wf ctx ->
  let c' := fold_left save_call calls ctx in
  context_wf c' /\
  currentIndex c' = (currentIndex ctx + Z.of_nat (length calls)) mod 5 /\
  (forall (j : nat) (c : SaveCall),
     (j < 5)%nat -> rev calls !! j = Some c ->
     snapshots c' !!! Z.to_nat ((currentIndex c' - Z.of_nat j) mod 5)
     = snapshot_of c).
Proof.
  induction calls as [|x calls IH] using rev_ind; intros ctx Hwf.
  - cbn [fold_left length rev]. split; [exact Hwf |]. split.
    + destruct Hwf as [_ Hidx]. unfold MAX_SNAPSHOTS in Hidx.
      rewrite Z.add_0_r, Z.mod_small by lia. reflexivity.
    + intros j c _ Hc. discriminate.
  - cbv zeta. rewrite fold_left_app. cbn [fold_left].
    destruct (IH ctx Hwf) as (Hwf' & Hidx & Hslots). cbv zeta in Hwf', Hidx, Hslots.
    set (c' := fold_left save_call calls ctx) in *.
    assert (Hsc : save_call c' x = selfHealSaveSnapshot c' x.1.1 x.1.2 x.2)
      by reflexivity.
    rewrite !Hsc. clear Hsc.
    assert (Hcur : (0 <= currentIndex c' < 5))
      by (destruct Hwf' as [_ H]; unfold MAX_SNAPSHOTS in H; lia).
    destruct (selfHealSaveSnapshot_slots c' x.1.1 x.1.2 x.2 0 Hwf')
      as (Hwf'' & Hidx' & Hshadow & Hnew & _); [unfold MAX_SNAPSHOTS; lia |].
    cbv zeta in Hwf'', Hidx', Hshadow, Hnew.
    split; [exact Hwf'' |]. split.
    + rewrite Hidx', Hidx, length_app. cbn [length].
      rewrite Zplus_mod_idemp_l. f_equal. lia.
    + intros j c Hj Hc. rewrite rev_app_distr in Hc. cbn [rev app] in Hc.
      destruct j as [|j].
      * injection Hc as <-.
        change (Z.of_nat 0) with 0.
        rewrite Z.sub_0_r, Z.mod_small by (rewrite Hidx'; lia).
        rewrite Hnew, Hshadow. unfold snapshot_of. reflexivity.
      * cbn in Hc.
        assert (Hslot : (currentIndex (selfHealSaveSnapshot c' x.1.1 x.1.2 x.2)
                         - Z.of_nat (S j)) mod 5
                        = (currentIndex c' - Z.of_nat j) mod 5).
        { rewrite Hidx'. rewrite Zminus_mod_idemp_l. f_equal. lia. }
        rewrite Hslot.
        destruct (selfHealSaveSnapshot_slots c' x.1.1 x.1.2 x.2
                    (Z.to_nat ((currentIndex c' - Z.of_nat j) mod 5)) Hwf')
          as (_ & _ & _ & _ & Hframe); [unfold MAX_SNAPSHOTS; lia |].
        cbv zeta in Hframe. rewrite Hframe; [apply Hslots; [lia | exact Hc] |].
        rewrite Hidx'. lia.
Qed.

(** X13: the ring keeps the five most recent snapshots: after any sequence
    of saves, the ring index has advanced by their number modulo 5 and, for
    [j < 5], the slot [j] places behind the index holds the snapshot of the
    [j]-th most recent save. *)
Theorem ring_holds_last_saves (ctx : SelfHealContext) (calls : list SaveCall)
  (j : nat) (c : SaveCall)
  (Hwf : context_wf ctx) (Hj : (j < 5)%nat) (Hc : rev calls !! j = Some c) :
  let c' := fold_left save_call calls ctx in
  context_wf c' /\
  currentIndex c' = (currentIndex ctx + Z.of_nat (length calls)) mod 5 /\
  snapshots c' !!! Z.to_nat ((currentIndex c' - Z.of_nat j) mod 5) = snapshot_of c.
Proof.
  intros c'. destruct (saves_ring calls ctx Hwf) as (Hwf' & Hidx & Hslots).
  split; [exact Hwf' |]. split; [exact Hidx |]. apply Hslots; assumption.
Qed.

Lemma ring_holds_last_saves_witness :
  let calls := [(7, blank_snapshot, fresh_state);
                (8, blank_snapshot, corrupted_tail_state)] in
  context_wf fresh_context /\ (1 < 5)%nat /\
  rev calls !! 1%nat = Some (7, blank_snapshot, fresh_state) /\
  currentIndex (fold_left save_call calls fresh_context) = (0 + 2) mod 5.
Proof.
  intros calls.
  split; [apply selfHealInit_wf; reflexivity |].
  split; [lia |]. split; [reflexivity |].
  apply (ring_holds_last_saves fresh_context calls 1 (7, blank_snapshot, fresh_state));
    [apply selfHealInit_wf; reflexivity | lia | reflexivity].
Defined.

(** ** Part A of the recovery: partial healing *)

Lemma partial_heal_at_eq (shadow : StateSnapshot) (qs : QFState) (k : Z) (i : nat) :
  partial_heal_at shadow (qs, k) i =
  if word_suspect shadow qs i
  then (mkQFState (<[i := snap_state shadow !!! i]> (state qs)) (absorbedBytes qs), k + 1)
  else (qs, k).
Proof. unfold partial_heal_at, word_suspect. reflexivity. Qed.

Lemma partial_heal_prefix (shadow : StateSnapshot) (qs : QFState) (n : nat) :
  (n <= length (state qs))%nat ->
  let r := fold_left (partial_heal_at shadow) (seq 0 n) (qs, 0) in
  absorbedBytes r.1 = absorbedBytes qs /\
  length (state r.1) = length (state qs) /\
  (forall i : nat,
     state r.1 !!! i =
     if bool_decide (i < n)%nat && word_suspect shadow qs i
     then snap_state shadow !!! i else state qs !!! i) /\
  r.2 = Z.of_nat (length (filter (fun i => word_suspect shadow qs i = true) (seq 0 n))).
Proof.
  induction n as [|n IH]; intros Hn.
  - cbn. repeat split. 
  - destruct IH as (Hcount & Hlen & Hwords & Hfixed); [lia |].
    cbv zeta. rewrite seq_S, fold_left_app. cbn [fold_left Nat.add].
    destruct (fold_left (partial_heal_at shadow) (seq 0 n) (qs, 0)) as [qs1 k] eqn:Hr.
    cbn [fst snd] in *.
    assert (Hsame : word_suspect shadow qs1 n = word_suspect shadow qs n).
    { unfold word_suspect. rewrite Hwords.
      rewrite bool_decide_eq_false_2 by lia. reflexivity. }
    rewrite filter_app, length_app.
    rewrite partial_heal_at_eq, Hsame.
    destruct (word_suspect shadow qs n) eqn:Hsus; cbn [fst snd state absorbedBytes].
    + split; [exact Hcount |]. split; [rewrite length_insert; exact Hlen |].
      split.
      * intros i. destruct (decide (i = n)) as [-> | Hne].
        -- rewrite list_lookup_total_insert_eq by lia.
           rewrite bool_decide_eq_true_2 by lia. rewrite Hsus. reflexivity.
        -- rewrite list_lookup_total_insert_ne by congruence. rewrite Hwords.
           destruct (decide (i < n)%nat).
           ++ rewrite !bool_decide_eq_true_2 by lia. reflexivity.
           ++ rewrite !bool_decide_eq_false_2 by lia. reflexivity.
      * rewrite filter_cons_True by exact Hsus. rewrite filter_nil. cbn [length]. lia.
    + split; [exact Hcount |]. split; [exact Hlen |]. split.
      * intros i. rewrite Hwords. destruct (decide (i = n)) as [-> | Hne].
        -- rewrite bool_decide_eq_false_2 by lia.
           rewrite bool_decide_eq_true_2 by lia. rewrite Hsus. reflexivity.
        -- destruct (decide (i < n)%nat).
           ++ rewrite !bool_decide_eq_true_2 by lia. reflexivity.
           ++ rewrite !bool_decide_eq_false_2 by lia. reflexivity.
      * rewrite filter_cons_False by (rewrite Hsus; discriminate). rewrite filter_nil. cbn [length]. lia.
Qed.

(** X14: the partial healing of [selfHealAttemptRecovery] replaces, among
    the first eight words, exactly those that fail the shadow copy's tag by
    the shadow copy's word; words 8 to 31 and the byte counter are left as
    they are, and [wordsFixed] is the number of failing words. *)
Theorem partial_heal_spec (qs : QFState) (ctx : SelfHealContext) (i : nat)
  (Hlen : length (state qs) = STATE_WORDS) :
  let shadow := shadowCopy ctx in
  let r := partial_heal qs ctx in
  absorbedBytes r.1 = absorbedBytes qs /\
  length (state r.1) = STATE_WORDS /\
  state r.1 !!! i =
    (if bool_decide (i < 8)%nat && word_suspect shadow qs i
     then snap_state shadow !!! i else state qs !!! i) /\
  r.2 = Z.of_nat (length (filter (fun i => word_suspect shadow qs i = true) (seq 0 8))).
Proof.
  intros shadow r. subst shadow r. unfold partial_heal.
  destruct (partial_heal_prefix (shadowCopy ctx) qs 8) as (Hcount & Hlen' & Hwords & Hfixed);
    [rewrite Hlen; unfold STATE_WORDS; lia |].
  cbv zeta in Hcount, Hlen', Hwords, Hfixed.
  split; [exact Hcount |]. split; [rewrite Hlen'; exact Hlen |].
  split; [apply Hwords | exact Hfixed].
Qed.

Lemma partial_heal_spec_witness :
  length (state corrupted_word0_state) = STATE_WORDS /\
  state (partial_heal corrupted_word0_state fresh_context).1 !!! 0%nat
  = state fresh_state !!! 0%nat /\
  (partial_heal corrupted_word0_state fresh_context).2 = 1.
Proof.
  split; [reflexivity |].
  destruct (partial_heal_spec corrupted_word0_state fresh_context 0 eq_refl)
    as (_ & _ & Hword & Hfixed).
  cbv zeta in Hword, Hfixed. rewrite Hword, Hfixed. split; vm_compute; reflexivity.
Defined.

Lemma validateSnapshot_words (qs : QFState) (snap : StateSnapshot) (i : nat) :
  validateSnapshot qs snap = true -> (i < 8)%nat ->
  word_suspect snap qs i = false.
Proof.
  unfold validateSnapshot, word_suspect. intros Hval Hi.
  destruct (forallb _ (seq 0 8)) eqn:Hall; [| discriminate].
  rewrite forallb_forall in Hall. rewrite Hall; [reflexivity |].
  apply in_seq. lia.
Qed.

Lemma partial_heal_healthy (qs : QFState) (ctx : SelfHealContext) :
  validateSnapshot qs (shadowCopy ctx) = true -> partial_heal qs ctx = (qs, 0).
Proof.
  intros Hval. unfold partial_heal.
  assert (Hgen : forall n, (n <= 8)%nat ->
            fold_left (partial_heal_at (shadowCopy ctx)) (seq 0 n) (qs, 0) = (qs, 0)).
  { induction n as [|n IH]; intros Hn; [reflexivity |].
    rewrite seq_S, fold_left_app, IH by lia. cbn [fold_left Nat.add].
    rewrite partial_heal_at_eq.
    rewrite (validateSnapshot_words qs (shadowCopy ctx) n Hval) by lia.
    reflexivity. }
  apply Hgen. lia.
Qed.

(** X15: called on a state that the shadow copy validates, the recovery
    fixes no word and does not end in a partial repair: it goes on to the
    ring scan, and the call ends in a full revert or a reinitialization. *)
Theorem recover_healthy_state_not_partial (qs : QFState) (ctx : SelfHealContext)
  (Hval : validateSnapshot qs (shadowCopy ctx) = true) :
  selfHealDetect qs ctx = false /\
  partial_heal qs ctx = (qs, 0) /\
  recovery_path qs ctx <> PartialRepair.
Proof.
  split; [| split].
  - unfold selfHealDetect, selfHealDetect_probes. rewrite Hval. reflexivity.
  - apply partial_heal_healthy, Hval.
  - unfold recovery_path, partial_repair_succeeds.
    rewrite (partial_heal_healthy qs ctx Hval). cbn [Z.ltb Z.compare andb].
    destruct (revert_scan ctx (seq 0 MAX_SNAPSHOTS)); discriminate.
Qed.

Lemma recover_healthy_state_not_partial_witness :
  validateSnapshot fresh_state (shadowCopy fresh_context) = true /\
  recovery_path fresh_state fresh_context <> PartialRepair.
Proof.
  split; [vm_compute; reflexivity |].
  apply (recover_healthy_state_not_partial fresh_state fresh_context).
  vm_compute; reflexivity.
Defined.

(** ** Detection, in closed form *)

Lemma detect_ring_scan_found (qs : QFState) (ctx : SelfHealContext)
  (slots : list nat) (seen : list Probe) :
  (detect_ring_scan qs ctx slots seen).1 = true <->
  exists i, In i slots /\ validateSnapshot qs (snapshots ctx !!! i) = true.
Proof.
  revert seen. induction slots as [|i rest IH]; intros seen; cbn [detect_ring_scan].
  - cbn [fst]. split; [discriminate | intros (i & [] & _)].
  - destruct (validateSnapshot qs (snapshots ctx !!! i)) eqn:Hv; cbn [fst].
    + split; [| reflexivity]. intros _. exists i. split; [left; reflexivity | exact Hv].
    + rewrite IH. split.
      * intros (j & Hj & Hvj). exists j. split; [right; exact Hj | exact Hvj].
      * intros (j & [<- | Hj] & Hvj); [congruence |]. exists j. split; assumption.
Qed.

(** X16: [selfHealDetect] reports no anomaly exactly when the shadow copy
    validates the state, or the byte counter is at most 2^48 and one of the
    five ring slots validates it. *)
Theorem selfHealDetect_false_iff (qs : QFState) (ctx : SelfHealContext) :
  selfHealDetect qs ctx = false <->
  validateSnapshot qs (shadowCopy ctx) = true \/
  (absorbedBytes qs <= 2 ^ 48 /\
   exists i : nat, (i < 5)%nat /\ validateSnapshot qs (snapshots ctx !!! i) = true).
Proof.
  unfold selfHealDetect, selfHealDetect_probes.
  destruct (validateSnapshot qs (shadowCopy ctx)) eqn:Hshadow; cbn [fst].
  - split; [left; reflexivity | reflexivity].
  - destruct (MAX_LEN <? absorbedBytes qs) eqn:Hlen; cbn [fst].
    + apply Z.ltb_lt in Hlen. unfold MAX_LEN in Hlen. rewrite Z.shiftl_1_l in Hlen.
      split; [discriminate |]. intros [H | (H & _)]; [discriminate | lia].
    + apply Z.ltb_ge in Hlen. unfold MAX_LEN in Hlen. rewrite Z.shiftl_1_l in Hlen.
      pose proof (detect_ring_scan_found qs ctx (seq 0 MAX_SNAPSHOTS) [ProbeShadow])
        as Hscan.
      destruct (detect_ring_scan qs ctx (seq 0 MAX_SNAPSHOTS) [ProbeShadow])
        as [found seen]. cbn [fst] in *.
      rewrite negb_false_iff, Hscan. split.
      * intros (i & Hi%in_seq & Hv). right. split; [exact Hlen |].
        exists i. unfold MAX_SNAPSHOTS in Hi. split; [lia | exact Hv].
      * intros [H | (_ & i & Hi & Hv)]; [discriminate |].
        exists i. split; [apply in_seq; unfold MAX_SNAPSHOTS; lia | exact Hv].
Qed.

(** ** The tag function *)

Lemma mix_byte_loop (h v : Z) (n : nat) :
  fold_left mix_byte (seq 0 n) (h, v) =
  (fnv1a h (map (fun k => Z.land (Z.shiftr v (8 * Z.of_nat k)) 0xFF) (seq 0 n)),
   Z.shiftr v (8 * Z.of_nat n)).
Proof.
  induction n as [|n IH].
  - cbn [seq map fold_left fnv1a]. rewrite Z.shiftr_0_r. reflexivity.
  - rewrite seq_S, fold_left_app, IH. cbn [Nat.add fold_left].
    rewrite map_app. unfold fnv1a. rewrite fold_left_app. cbn [map fold_left].
    unfold mix_byte. f_equal.
    rewrite Z.shiftr_shiftr by lia. f_equal. lia.
Qed.

Lemma mix_word_fnv1a (h v : Z) : mix_word h v = fnv1a h (word_octets v).
Proof. unfold mix_word. rewrite mix_byte_loop. reflexivity. Qed.

Lemma fnv1a_app (h : Z) (l1 l2 : list Z) :
  fnv1a h (l1 ++ l2) = fnv1a (fnv1a h l1) l2.
Proof. unfold fnv1a. apply fold_left_app. Qed.

Lemma flat_map_step {A B} (f : A -> list B) (x : A) (l : list A) :
  flat_map f (x :: l) = f x ++ flat_map f l.
Proof. reflexivity. Qed.

Lemma mix_words_fnv1a (data : list Z) :
  forall h, fold_left mix_word data h = fnv1a h (flat_map word_octets data).
Proof.
  induction data as [|v data IH]; intros h; [reflexivity |].
  rewrite fold_left_step, flat_map_step, fnv1a_app, IH, mix_word_fnv1a.
  reflexivity.
Qed.

Lemma fnv1a_u64 (octets : list Z) :
  forall h, u64 h -> u64 (fnv1a h octets).
Proof.
  induction octets as [|b l IH]; intros h Hh; [exact Hh |].
  cbn [fnv1a fold_left]. apply IH, u64_wrap64.
Qed.

(** X17: [miniHash] is 64-bit FNV-1a over the bytes of the words, least
    significant byte first, started from the FNV offset basis XORed with
    the key.  Hence it works incrementally over a concatenation, and its
    result fits 64 bits when the key does. *)
Theorem miniHash_fnv1a (data more : list Z) (key : Z) :
  miniHash data key
  = fnv1a (Z.lxor 0xcbf29ce484222325 key) (flat_map word_octets data) /\
  miniHash (data ++ more) key
  = fnv1a (miniHash data key) (flat_map word_octets more) /\
  (u64 key -> u64 (miniHash data key)).
Proof.
  unfold miniHash. split; [apply mix_words_fnv1a |]. split.
  - rewrite fold_left_app. apply mix_words_fnv1a.
  - intros Hkey. rewrite mix_words_fnv1a. apply fnv1a_u64, u64_lxor; [| exact Hkey].
    unfold u64. lia.
Qed.

Lemma miniHash_fnv1a_witness :
  u64 7 /\ u64 (miniHash [1; 2] 7).
Proof.
  split; [unfold u64; lia |].
  apply (miniHash_fnv1a [1; 2] [] 7). unfold u64; lia.
Defined.

(** * Properties of the input functions *)

Lemma byte_of_Z_val (b : byte) : byte_of_Z (byte_val b) = b.
Proof.
  unfold byte_of_Z, byte_val. rewrite N2Z.id, Byte.of_to_N. reflexivity.
Qed.

(** ** Bytes and words of a buffer *)

Ltac clear_bits Hhigh :=
  repeat match goal with H : ?x = _ |- _ => subst x end;
  repeat match goal with
    | |- context [Z.testbit ?x ?i] => rewrite (Z.testbit_neg_r x i) by lia
    | |- context [Z.testbit (?b ?j) ?i] => rewrite (Hhigh j i) by lia
    end;
  rewrite ?orb_false_r, ?andb_false_r, ?andb_true_r; cbn [orb andb];
  try reflexivity.

Lemma octets_join (order : ByteOrder) (b : nat -> Z) (k : nat) :
  (forall j, u8 (b j)) -> (k < 8)%nat ->
  octet order
    (fold_left (fun acc j => Z.lor acc (Z.shiftl (b j) (octet_shift order j)))
               (seq 0 8) 0) k
  = b k.
Proof.
  intros Hb Hk. unfold octet. change 0xFF with (Z.ones 8).
  cbn [seq fold_left].
  pose proof (fun j i => u8_testbit_high (b j) i (Hb j)) as Hhigh.
  do 8 (destruct k as [|k]; [destruct order; unfold octet_shift; cbn [Z.of_nat];
    Z.bitblast; clear_bits Hhigh |]).
  lia.
Qed.

Ltac mask_ones :=
  change 0x00000000000000FF with (Z.ones 8);
  change 0x000000000000FF00 with (Z.shiftl (Z.ones 8) 8);
  change 0x0000000000FF0000 with (Z.shiftl (Z.ones 8) 16);
  change 0x00000000FF000000 with (Z.shiftl (Z.ones 8) 24);
  change 0x000000FF00000000 with (Z.shiftl (Z.ones 8) 32);
  change 0x0000FF0000000000 with (Z.shiftl (Z.ones 8) 40);
  change 0x00FF000000000000 with (Z.shiftl (Z.ones 8) 48);
  change 0xFF00000000000000 with (Z.shiftl (Z.ones 8) 56).

Lemma u64_land a b : u64 a -> u64 (Z.land a b).
Proof.
  intros Ha.
  replace (Z.land a b) with (wrap64 (Z.land a b)); [apply u64_wrap64 |].
  unfold wrap64. Z.bitblast.
  rewrite (u64_testbit_high a) by (assumption || lia). reflexivity.
Qed.

(** One term of the byte swap that moves a byte up. *)
Lemma swap_up_testbit (x m s i : Z) :
  0 <= m -> 0 <= s -> m + s + 8 <= 64 -> 0 <= i ->
  Z.testbit (wrap64 (Z.shiftl (Z.land x (Z.shiftl (Z.ones 8) m)) s)) i
  = (m + s <=? i) && (i <? m + s + 8) && Z.testbit x (i - s).
Proof.
  intros Hm Hs Hms Hi. unfold wrap64.
  rewrite Z.testbit_mod_pow2 by lia.
  destruct (Z.ltb_spec i s) as [Hlt | Hge].
  - rewrite Z.shiftl_spec_low by lia.
    rewrite (proj2 (Z.leb_gt (m + s) i)) by lia.
    rewrite andb_false_r. reflexivity.
  - rewrite Z.shiftl_spec, Z.land_spec by lia.
    destruct (Z.ltb_spec (i - s) m) as [Hlow | Hhigh].
    + rewrite Z.shiftl_spec_low by lia.
      rewrite (proj2 (Z.leb_gt (m + s) i)) by lia.
      rewrite !andb_false_r. reflexivity.
    + rewrite Z.shiftl_spec, Z.testbit_ones_nonneg by lia.
      rewrite (proj2 (Z.leb_le (m + s) i)) by lia.
      destruct (Z.ltb_spec (i - s - m) 8), (Z.ltb_spec i (m + s + 8)),
        (Z.ltb_spec i 64); try lia;
        rewrite ?andb_true_r, ?andb_false_r; reflexivity.
Qed.

(** One term of the byte swap that moves a byte down. *)
Lemma swap_down_testbit (x m s i : Z) :
  0 <= s -> s <= m -> 0 <= i ->
  Z.testbit (Z.shiftr (Z.land x (Z.shiftl (Z.ones 8) m)) s) i
  = (m - s <=? i) && (i <? m - s + 8) && Z.testbit x (i + s).
Proof.
  intros Hs Hm Hi.
  rewrite Z.shiftr_spec, Z.land_spec by lia.
  destruct (Z.ltb_spec (i + s) m) as [Hlow | Hhigh].
  - rewrite Z.shiftl_spec_low by lia.
    rewrite (proj2 (Z.leb_gt (m - s) i)) by lia.
    rewrite !andb_false_r. reflexivity.
  - rewrite Z.shiftl_spec, Z.testbit_ones_nonneg by lia.
    rewrite (proj2 (Z.leb_le (m - s) i)) by lia.
    destruct (Z.ltb_spec (i + s - m) 8), (Z.ltb_spec i (m - s + 8)); try lia;
      rewrite ?andb_true_r, ?andb_false_r; reflexivity.
Qed.

Ltac decide_tests :=
  repeat match goal with
    | |- context [?a <=? ?b] =>
        first [rewrite (proj2 (Z.leb_le a b)) by lia
              | rewrite (proj2 (Z.leb_gt a b)) by lia]
    | |- context [?a <? ?b] =>
        first [rewrite (proj2 (Z.ltb_lt a b)) by lia
              | rewrite (proj2 (Z.ltb_ge a b)) by lia]
    end.

Lemma toLittleEndian64_testbit (x i : Z) :
  0 <= i < 64 ->
  Z.testbit (toLittleEndian64 BigEndian x) i
  = Z.testbit x (8 * (7 - i / 8) + i mod 8).
Proof.
  intros Hi. unfold toLittleEndian64. mask_ones.
  change (Z.ones 8) with (Z.shiftl (Z.ones 8) 0) at 1.
  rewrite !Z.lor_spec.
  rewrite !swap_up_testbit, !swap_down_testbit by lia.
  assert (Hcase : i / 8 = 0 \/ i / 8 = 1 \/ i / 8 = 2 \/ i / 8 = 3 \/
                  i / 8 = 4 \/ i / 8 = 5 \/ i / 8 = 6 \/ i / 8 = 7) by lia.
  destruct Hcase as [H | [H | [H | [H | [H | [H | [H | H]]]]]]];
    decide_tests; cbn [andb orb]; rewrite ?orb_false_r; f_equal; lia.
Qed.

Lemma toLittleEndian64_u64 (order : ByteOrder) (x : Z) :
  u64 x -> u64 (toLittleEndian64 order x).
Proof.
  intros Hx. destruct order; [exact Hx |]. unfold toLittleEndian64.
  repeat apply u64_lor; try apply u64_wrap64;
    apply u64_shiftr; try lia; apply u64_land, Hx.
Qed.

Lemma toLittleEndian64_involutive (x : Z) :
  u64 x -> toLittleEndian64 BigEndian (toLittleEndian64 BigEndian x) = x.
Proof.
  intros Hx. apply u64_eq_of_bits; [| exact Hx |].
  - apply toLittleEndian64_u64, toLittleEndian64_u64, Hx.
  - intros i Hi. rewrite toLittleEndian64_testbit by exact Hi.
    rewrite toLittleEndian64_testbit by lia. f_equal. lia.
Qed.

Lemma octet_testbit (order : ByteOrder) (x : Z) (k : nat) (n : Z) :
  0 <= n -> (k < 8)%nat ->
  Z.testbit (octet order x k) n = (n <? 8) && Z.testbit x (n + octet_shift order k).
Proof.
  intros Hn Hk. unfold octet. change 0xFF with (Z.ones 8).
  rewrite Z.land_spec, Z.testbit_ones_nonneg by lia.
  rewrite Z.shiftr_spec by exact Hn. apply andb_comm.
Qed.

Lemma octet_u8 (order : ByteOrder) (x : Z) (k : nat) : u8 (octet order x k).
Proof. unfold octet. apply u8_land_255. Qed.

Lemma toLittleEndian64_octet (x : Z) (k : nat) :
  (k < 8)%nat ->
  octet LittleEndian (toLittleEndian64 BigEndian x) k
  = octet LittleEndian x (7 - k).
Proof.
  intros Hk. apply Z.bits_inj'. intros n Hn.
  rewrite !octet_testbit by lia. unfold octet_shift.
  destruct (Z.ltb_spec n 8) as [Hlt | Hge]; [| reflexivity]. cbn [andb].
  rewrite toLittleEndian64_testbit by lia. f_equal. lia.
Qed.

Lemma octet_order (x : Z) (k : nat) :
  (k < 8)%nat -> octet BigEndian x k = octet LittleEndian x (7 - k).
Proof.
  intros Hk. unfold octet, octet_shift. do 2 f_equal. lia.
Qed.

(** *** Words of a byte buffer *)

Lemma load_word_octet (order : ByteOrder) (buf : list byte) (i k : nat) :
  (k < 8)%nat ->
  octet order (load_word order buf i) k = byte_val (buf !!! (8 * i + k)%nat).
Proof.
  intros Hk. unfold load_word.
  apply (octets_join order (fun j => byte_val (buf !!! (8 * i + j)%nat)) k);
    [| exact Hk].
  intros j. apply byte_val_u8.
Qed.

Lemma load_word_ext (order : ByteOrder) (buf1 buf2 : list byte) (i : nat) :
  (forall k, (k < 8)%nat -> buf1 !!! (8 * i + k)%nat = buf2 !!! (8 * i + k)%nat) ->
  load_word order buf1 i = load_word order buf2 i.
Proof.
  intros Hsame. unfold load_word. cbn [seq fold_left].
  rewrite !Hsame by lia. reflexivity.
Qed.

Lemma store_word_prefix (order : ByteOrder) (buf : list byte) (i : nat) (x : Z)
  (n : nat) :
  (8 * i + n <= length buf)%nat ->
  let out := fold_left
               (fun b k => <[(8 * i + k)%nat := byte_of_Z (octet order x k)]> b)
               (seq 0 n) buf in
  length out = length buf /\
  forall j : nat,
    out !!! j = if decide (8 * i <= j < 8 * i + n)%nat
                then byte_of_Z (octet order x (j - 8 * i)) else buf !!! j.
Proof.
  induction n as [|n IH]; intros Hn.
  - cbn [seq fold_left]. split; [reflexivity |]. intros j.
    rewrite decide_False by lia. reflexivity.
  - destruct IH as [Hlen Hget]; [lia |].
    cbv zeta. rewrite seq_S, fold_left_app. cbn [Nat.add fold_left].
    split; [rewrite length_insert; exact Hlen |]. intros j.
    destruct (decide (j = 8 * i + n)%nat) as [-> | Hne].
    + rewrite list_lookup_total_insert_eq by lia.
      rewrite decide_True by lia. do 2 f_equal. lia.
    + rewrite list_lookup_total_insert_ne by congruence. rewrite Hget.
      destruct (decide (8 * i <= j < 8 * i + n)%nat).
      * rewrite decide_True by lia. reflexivity.
      * rewrite decide_False by lia. reflexivity.
Qed.

Lemma store_word_spec (order : ByteOrder) (buf : list byte) (i : nat) (x : Z) :
  (8 * i + 8 <= length buf)%nat ->
  length (store_word order buf i x) = length buf /\
  forall j : nat,
    store_word order buf i x !!! j
    = if decide (8 * i <= j < 8 * i + 8)%nat
      then byte_of_Z (octet order x (j - 8 * i)) else buf !!! j.
Proof. intros Hlen. apply (store_word_prefix order buf i x 8 Hlen). Qed.

(** The buffer after the first [n] words have been converted. *)
Lemma convert_words_prefix (order : ByteOrder) (src : list byte) (n : nat) :
  (8 * n <= length src)%nat ->
  let out := fold_left
               (fun out i => store_word order out i
                               (toLittleEndian64 order (load_word order out i)))
               (seq 0 n) src in
  length out = length src /\
  forall j : nat,
    out !!! j = if decide (j < 8 * n)%nat
                then byte_of_Z (octet order
                       (toLittleEndian64 order (load_word order src (j / 8)))
                       (j mod 8))
                else src !!! j.
Proof.
  induction n as [|n IH]; intros Hn.
  - cbn [seq fold_left]. split; [reflexivity |]. intros j.
    rewrite decide_False by lia. reflexivity.
  - destruct IH as [Hlen Hget]; [lia |].
    cbv zeta. rewrite seq_S, fold_left_app. cbn [Nat.add fold_left].
    set (out := fold_left _ (seq 0 n) src) in *.
    assert (Hload : load_word order out n = load_word order src n).
    { apply load_word_ext. intros k Hk. rewrite Hget.
      rewrite decide_False by lia. reflexivity. }
    rewrite Hload.
    destruct (store_word_spec order out n
                (toLittleEndian64 order (load_word order src n)))
      as [Hlen' Hget']; [lia |].
    split; [rewrite Hlen'; exact Hlen |]. intros j. rewrite Hget'.
    destruct (decide (8 * n <= j < 8 * n + 8)%nat) as [Hin | Hout].
    + rewrite decide_True by lia.
      replace (j / 8)%nat with n by lia.
      replace (j mod 8)%nat with (j - 8 * n)%nat by lia. reflexivity.
    + rewrite Hget. destruct (decide (j < 8 * n)%nat).
      * rewrite decide_True by lia. reflexivity.
      * rewrite decide_False by lia. reflexivity.
Qed.

Lemma ensureLittleEndianBuffer_spec (order : ByteOrder) (src : list byte) :
  (length src mod 8 = 0)%nat ->
  length (ensureLittleEndianBuffer order src) = length src /\
  forall j : nat, (j < length src)%nat ->
    ensureLittleEndianBuffer order src !!! j
    = byte_of_Z (octet order
        (toLittleEndian64 order (load_word order src (j / 8))) (j mod 8)).
Proof.
  intros Hmod. unfold ensureLittleEndianBuffer.
  rewrite decide_True by exact Hmod.
  destruct (convert_words_prefix order src (length src / 8)) as [Hlen Hget];
    [lia |].
  split; [exact Hlen |]. intros j Hj. rewrite Hget.
  rewrite decide_True by lia. reflexivity.
Qed.

Lemma ensureLittleEndianBuffer_id (src : list byte) :
  ensureLittleEndianBuffer LittleEndian src = src.
Proof.
  destruct (decide (length src mod 8 = 0)%nat) as [Hmod | Hmod].
  - destruct (ensureLittleEndianBuffer_spec LittleEndian src Hmod) as [Hlen Hget].
    apply (list_eq_same_length _ _ (length src)); [reflexivity | exact Hlen |].
    intros j b1 b2 Hj H1 H2.
    apply list_lookup_total_correct in H1, H2. subst b1 b2.
    rewrite Hget by exact Hj. cbn [toLittleEndian64].
    rewrite load_word_octet by lia. rewrite byte_of_Z_val. f_equal. lia.
  - unfold ensureLittleEndianBuffer. rewrite decide_False by exact Hmod.
    reflexivity.
Qed.

(** X18: on a big-endian target [toLittleEndian64] reverses the eight
    bytes of a 64-bit word: byte [k] of the result is byte [7 - k] of the
    argument, the result fits 64 bits, and applying it twice gives the word
    back.  On a little-endian target it returns its argument. *)
Theorem toLittleEndian64_reverses_bytes (x : Z) (k : nat)
  (Hx : u64 x) (Hk : (k < 8)%nat) :
  octet LittleEndian (toLittleEndian64 BigEndian x) k
  = octet LittleEndian x (7 - k) /\
  u64 (toLittleEndian64 BigEndian x) /\
  toLittleEndian64 BigEndian (toLittleEndian64 BigEndian x) = x /\
  toLittleEndian64 LittleEndian x = x.
Proof.
  split; [apply toLittleEndian64_octet, Hk |].
  split; [apply toLittleEndian64_u64, Hx |].
  split; [apply toLittleEndian64_involutive, Hx | reflexivity].
Qed.

Lemma toLittleEndian64_reverses_bytes_witness :
  u64 0x0102030405060708 /\ (0 < 8)%nat /\
  toLittleEndian64 BigEndian (toLittleEndian64 BigEndian 0x0102030405060708)
  = 0x0102030405060708.
Proof.
  split; [unfold u64; lia |]. split; [lia |].
  apply (toLittleEndian64_reverses_bytes 0x0102030405060708 0);
    [unfold u64; lia | lia].
Defined.

(** X19: on a little-endian target [ensureLittleEndianBuffer] returns the
    bytes it was given, whatever their number, so [processRaw] is
    [qfAbsorb] on the caller's bytes. *)
Theorem processRaw_is_qfAbsorb (qs : QFState) (data : list byte) :
  ensureLittleEndianBuffer LittleEndian data = data /\
  processRaw qs data = qfAbsorb qs data.
Proof.
  split; [apply ensureLittleEndianBuffer_id |].
  unfold processRaw. rewrite ensureLittleEndianBuffer_id. reflexivity.
Qed.

(** X20: on a big-endian target [ensureLittleEndianBuffer] reverses every
    group of eight bytes of a buffer whose length is a multiple of 8, and
    returns a buffer of any other length unchanged. *)
Theorem ensureLittleEndianBuffer_big_endian (src : list byte) (j : nat)
  (Hj : (j < length src)%nat) :
  length (ensureLittleEndianBuffer BigEndian src) = length src /\
  ((length src mod 8 = 0)%nat ->
   ensureLittleEndianBuffer BigEndian src !!! j
   = src !!! (8 * (j / 8) + (7 - j mod 8))%nat) /\
  ((length src mod 8 <> 0)%nat -> ensureLittleEndianBuffer BigEndian src = src).
Proof.
  destruct (decide (length src mod 8 = 0)%nat) as [Hmod | Hmod].
  - destruct (ensureLittleEndianBuffer_spec BigEndian src Hmod) as [Hlen Hget].
    split; [exact Hlen |]. split; [| intros Hne; contradiction].
    intros _. rewrite Hget by exact Hj.
    rewrite octet_order, toLittleEndian64_octet by lia.
    replace (7 - (7 - j mod 8))%nat with (j mod 8)%nat by lia.
    rewrite <- (byte_of_Z_val (src !!! _)). f_equal.
    rewrite <- (load_word_octet BigEndian src (j / 8) (7 - j mod 8)) by lia.
    rewrite octet_order by lia. do 2 f_equal. lia.
  - unfold ensureLittleEndianBuffer. rewrite decide_False by exact Hmod.
    split; [reflexivity |]. split; [intros Heq; contradiction | reflexivity].
Qed.

Lemma ensureLittleEndianBuffer_big_endian_witness :
  (0 < length [x01; x02; x03; x04; x05; x06; x07; x08])%nat /\
  ensureLittleEndianBuffer BigEndian [x01; x02; x03; x04; x05; x06; x07; x08] !!! 0%nat
  = [x01; x02; x03; x04; x05; x06; x07; x08] !!! (8 * (0 / 8) + (7 - 0 mod 8))%nat.
Proof.
  split; [cbn; lia |].
  apply (ensureLittleEndianBuffer_big_endian
           [x01; x02; x03; x04; x05; x06; x07; x08] 0); [cbn; lia | reflexivity].
Defined.

(** ** The input functions *)

Lemma processRaw_qfAbsorb (qs : QFState) (data : list byte) :
  processRaw qs data = qfAbsorb qs data.
Proof. unfold processRaw. rewrite ensureLittleEndianBuffer_id. reflexivity. Qed.

Lemma object_bytes_length (x : Z) : length (object_bytes x) = 8%nat.
Proof. unfold object_bytes. rewrite length_map, length_seq. reflexivity. Qed.

Lemma qfAbsorb_absorbedBytes (qs : QFState) (data : list byte) :
  absorbedBytes (qfAbsorb qs data)
  = wrap64 (absorbedBytes qs + Z.of_nat (length data)).
Proof. unfold qfAbsorb. rewrite qfAbsorb_counted_eq. reflexivity. Qed.

Lemma processString_qfAbsorb (qs : QFState) (str : list byte) :
  processString qs str
  = qfAbsorb (qfAbsorb qs (object_bytes (wrap64 (Z.of_nat (length str))))) str.
Proof. unfold processString. rewrite !processRaw_qfAbsorb. reflexivity. Qed.

(** X21: [processString] absorbs the 8-byte length of the string, least
    significant byte first, and then the string, in two separate calls of
    [qfAbsorb]; [processBytes] does the same.  The byte counter grows by 8
    plus the length.  For a string shorter than 128 bytes both calls XOR at
    offset 0 of the state, so the length field and the first bytes of the
    string land on the same state bytes. *)
Theorem processString_spec (qs : QFState) (str : list byte) (j : nat) :
  let lengthField := object_bytes (wrap64 (Z.of_nat (length str))) in
  processString qs str = qfAbsorb (qfAbsorb qs lengthField) str /\
  processBytes qs str = processString qs str /\
  absorbedBytes (processString qs str)
  = wrap64 (absorbedBytes qs + 8 + Z.of_nat (length str)) /\
  (length (state qs) = STATE_WORDS -> (length str < 128)%nat ->
   get_byte (state (processString qs str)) j
   = Z.lxor (Z.lxor (get_byte (state qs) j) (byte_or_zero lengthField j))
            (byte_or_zero str j)).
Proof.
  intros lengthField. subst lengthField.
  split; [apply processString_qfAbsorb |]. split; [reflexivity |].
  rewrite processString_qfAbsorb. split.
  - rewrite !qfAbsorb_absorbedBytes, object_bytes_length.
    unfold wrap64. rewrite Zplus_mod_idemp_l. reflexivity.
  - intros Hlen Hshort. apply qfAbsorb_short_twice;
      [exact Hlen | rewrite object_bytes_length; lia | exact Hshort].
Qed.

Lemma processString_spec_witness :
  length (state fresh_state) = STATE_WORDS /\ (length [x61] < 128)%nat /\
  get_byte (state (processString fresh_state [x61])) 0
  = Z.lxor (Z.lxor (get_byte (state fresh_state) 0)
              (byte_or_zero (object_bytes (wrap64 (Z.of_nat (length [x61])))) 0))
           (byte_or_zero [x61] 0).
Proof.
  split; [reflexivity |]. split; [cbn; lia |].
  apply (processString_spec fresh_state [x61] 0); [reflexivity | cbn; lia].
Defined.

Lemma processString_short_state (qs : QFState) (s1 s2 : list byte) :
  state_wf qs -> (length s1 < 128)%nat -> (length s2 < 128)%nat ->
  (forall j : nat, (j < 128)%nat ->
     Z.lxor (byte_or_zero (object_bytes (wrap64 (Z.of_nat (length s1)))) j)
            (byte_or_zero s1 j)
     = Z.lxor (byte_or_zero (object_bytes (wrap64 (Z.of_nat (length s2)))) j)
              (byte_or_zero s2 j)) ->
  state (processString qs s1) = state (processString qs s2).
Proof.
  intros Hwf H1 H2 Hxor.
  pose proof (qfAbsorb_wf _ s1 (qfAbsorb_wf qs
                (object_bytes (wrap64 (Z.of_nat (length s1)))) Hwf))
    as (Hlen1 & Hu1 & _).
  pose proof (qfAbsorb_wf _ s2 (qfAbsorb_wf qs
                (object_bytes (wrap64 (Z.of_nat (length s2)))) Hwf))
    as (Hlen2 & Hu2 & _).
  destruct Hwf as (Hlen & _ & _).
  rewrite !processString_qfAbsorb.
  apply words_eq_of_bytes; [congruence | assumption | assumption |].
  intros j Hj. rewrite Hlen1 in Hj. unfold STATE_WORDS in Hj.
  rewrite !qfAbsorb_short_twice
    by (assumption || rewrite object_bytes_length; lia).
  rewrite !Z.lxor_assoc. f_equal.
  destruct (decide (j < 128)%nat) as [Hlow | Hhigh]; [apply Hxor, Hlow |].
  unfold byte_or_zero. rewrite !object_bytes_length.
  rewrite !decide_False by lia. reflexivity.
Qed.

Lemma qfSqueeze_words (qs qs' : QFState) (n : nat) :
  state qs = state qs' -> qfSqueeze qs n = qfSqueeze qs' n.
Proof.
  intros Hst. rewrite <- (qfSqueeze_with_counter (absorbedBytes qs') qs).
  unfold with_counter. rewrite Hst. destruct qs'. reflexivity.
Qed.

(** X22: the length field does not separate short strings: two strings
    shorter than 128 bytes whose bytes, XORed with their own length fields,
    agree, leave the same 32 words and give the same digest of any length. *)
Theorem processString_short_collision (qs : QFState) (s1 s2 : list byte)
  (outLen : nat)
  (Hwf : state_wf qs)
  (H1 : (length s1 < 128)%nat) (H2 : (length s2 < 128)%nat)
  (Hxor : forall j : nat, (j < 128)%nat ->
     Z.lxor (byte_or_zero (object_bytes (wrap64 (Z.of_nat (length s1)))) j)
            (byte_or_zero s1 j)
     = Z.lxor (byte_or_zero (object_bytes (wrap64 (Z.of_nat (length s2)))) j)
              (byte_or_zero s2 j)) :
  state (processString qs s1) = state (processString qs s2) /\
  qfSqueeze (processString qs s1) outLen = qfSqueeze (processString qs s2) outLen.
Proof.
  pose proof (processString_short_state qs s1 s2 Hwf H1 H2 Hxor) as Hst.
  split; [exact Hst | apply qfSqueeze_words, Hst].
Qed.

Lemma xor_table_eq (f g : nat -> Z) (n : nat) :
  forallb (fun j => f j =? g j) (seq 0 n) = true ->
  forall j : nat, (j < n)%nat -> f j = g j.
Proof.
  intros Hall j Hj. rewrite forallb_forall in Hall.
  apply Z.eqb_eq, Hall, in_seq. lia.
Qed.

Lemma processString_short_collision_witness :
  state_wf fresh_state /\
  qfSqueeze (processString fresh_state []) 64
  = qfSqueeze (processString fresh_state [x01]) 64.
Proof.
  split; [apply qfInit_wf |].
  apply (processString_short_collision fresh_state [] [x01] 64);
    [apply qfInit_wf | cbn; lia | cbn; lia |].
  apply xor_table_eq. vm_compute. reflexivity.
Defined.

(** ** processFile *)

Lemma read_loop_eq (chunkSize : nat) (qs : QFState) (rest : list byte) :
  read_loop chunkSize qs rest =
  if decide (length (take chunkSize rest) <= 0)%nat then qs
  else if decide (length (take chunkSize rest) < chunkSize)%nat
       then processRaw qs (take chunkSize rest)
       else read_loop chunkSize (processRaw qs (take chunkSize rest))
                      (drop chunkSize rest).
Proof.
  rewrite read_loop_equation_1. cbv zeta.
  destruct (decide (length (take chunkSize rest) <= 0)%nat); [reflexivity |].
  destruct (decide (length (take chunkSize rest) < chunkSize)%nat); reflexivity.
Qed.

Lemma qfAbsorb_nil (qs : QFState) : state_wf qs -> qfAbsorb qs [] = qs.
Proof.
  intros (_ & _ & Ha). unfold qfAbsorb.
  rewrite qfAbsorb_counted_eq, absorb_loop_short by (unfold rateBytes; cbn; lia).
  cbn [fst snd length]. rewrite xor_window_nil, Z.add_0_r, u64_wrap64_id by exact Ha.
  apply with_counter_id.
Qed.

Lemma read_loop_whole_blocks (chunkSize : nat) :
  (0 < chunkSize)%nat -> (chunkSize mod 128 = 0)%nat ->
  forall (rest : list byte) (qs : QFState),
  state_wf qs -> read_loop chunkSize qs rest = qfAbsorb qs rest.
Proof.
  intros Hpos Hmod rest.
  remember (length rest) as n eqn:Hn. revert rest Hn.
  induction n as [n IH] using lt_wf_ind. intros rest Hn qs Hwf.
  rewrite read_loop_eq, length_take, processRaw_qfAbsorb.
  destruct (decide (chunkSize `min` length rest <= 0)%nat) as [Hempty | Hsome].
  - destruct rest; [| cbn [length] in Hempty; lia].
    symmetry. apply qfAbsorb_nil, Hwf.
  - destruct (decide (chunkSize `min` length rest < chunkSize)%nat) as [Hlast | Hfull].
    + rewrite take_ge by lia. reflexivity.
    + rewrite (IH (length (drop chunkSize rest))); [| rewrite length_drop; lia
        | reflexivity | apply qfAbsorb_wf, Hwf].
      rewrite qfAbsorb_concat by (rewrite length_take; lia).
      rewrite take_drop. reflexivity.
Qed.

(** X23: with a chunk size that is a positive multiple of 128, the
    default 4096 included, [processFile] on a file that opens returns [true]
    and leaves the state that one [qfAbsorb] of the whole content leaves;
    on a file that does not open it returns [false] and leaves the state
    untouched. *)
Theorem processFile_whole_blocks (qs : QFState) (contents : list byte)
  (chunkSize : nat)
  (Hwf : state_wf qs)
  (Hpos : (0 < chunkSize)%nat) (Hmod : (chunkSize mod 128 = 0)%nat) :
  processFile qs (Some contents) chunkSize = (true, qfAbsorb qs contents) /\
  processFile qs (Some contents) 4096 = (true, qfAbsorb qs contents) /\
  processFile qs None chunkSize = (false, qs).
Proof.
  unfold processFile. split; [| split; [| reflexivity]].
  - rewrite read_loop_whole_blocks by assumption. reflexivity.
  - rewrite read_loop_whole_blocks by (assumption || lia || reflexivity).
    reflexivity.
Qed.

Lemma processFile_whole_blocks_witness :
  state_wf fresh_state /\ (0 < 256)%nat /\ (256 mod 128 = 0)%nat /\
  processFile fresh_state (Some (repeat x61 300)) 256
  = (true, qfAbsorb fresh_state (repeat x61 300)).
Proof.
  split; [apply qfInit_wf |]. split; [lia |]. split; [reflexivity |].
  exact (proj1 (processFile_whole_blocks fresh_state (repeat x61 300) 256
                  (qfInit_wf _) ltac:(lia) eq_refl)).
Defined.

Lemma read_loop_small_chunks (chunkSize : nat) :
  (chunkSize < 128)%nat ->
  forall (rest : list byte) (qs : QFState),
  state_wf qs ->
  let r := read_loop chunkSize qs rest in
  state_wf r /\
  ((0 < chunkSize)%nat ->
   absorbedBytes r = wrap64 (absorbedBytes qs + Z.of_nat (length rest))) /\
  forall j : nat, (chunkSize <= j)%nat ->
    get_byte (state r) j = get_byte (state qs) j.
Proof.
  intros Hsmall rest.
  remember (length rest) as n eqn:Hn. revert rest Hn.
  induction n as [n IH] using lt_wf_ind. intros rest Hn qs Hwf. subst n.
  cbv zeta. rewrite read_loop_eq, length_take, processRaw_qfAbsorb.
  assert (Hchunk : forall j : nat, (chunkSize <= j)%nat ->
            get_byte (state (qfAbsorb qs (take chunkSize rest))) j
            = get_byte (state qs) j).
  { intros j Hj. destruct Hwf as (Hlen & _ & _).
    rewrite qfAbsorb_short_state by (unfold rateBytes; rewrite length_take; lia).
    rewrite xor_bytes_byte_or_zero
      by (rewrite length_take, Hlen; unfold STATE_WORDS; lia).
    unfold byte_or_zero. rewrite length_take, decide_False by lia.
    apply Z.lxor_0_r. }
  destruct (decide (chunkSize `min` length rest <= 0)%nat) as [Hempty | Hsome].
  - split; [exact Hwf |]. split; [| reflexivity].
    intros Hpos. destruct Hwf as (_ & _ & Ha).
    destruct rest; [| cbn [length] in Hempty; lia].
    cbn [length]. change (Z.of_nat 0) with 0.
    rewrite Z.add_0_r, u64_wrap64_id by exact Ha. reflexivity.
  - destruct (decide (chunkSize `min` length rest < chunkSize)%nat) as [Hlast | Hfull].
    + split; [apply qfAbsorb_wf, Hwf |]. split; [| exact Hchunk].
      intros _. rewrite qfAbsorb_absorbedBytes, length_take.
      do 2 f_equal. lia.
    + destruct (IH (length (drop chunkSize rest))
                  ltac:(rewrite length_drop; lia) (drop chunkSize rest) eq_refl
                  (qfAbsorb qs (take chunkSize rest)) (qfAbsorb_wf _ _ Hwf))
        as (Hwf' & Hcount & Hbytes).
      split; [exact Hwf' |]. split.
      * intros Hpos. rewrite Hcount by exact Hpos.
        rewrite qfAbsorb_absorbedBytes, length_take, length_drop.
        unfold wrap64. rewrite Zplus_mod_idemp_l. f_equal. lia.
      * intros j Hj. rewrite Hbytes by exact Hj. apply Hchunk, Hj.
Qed.

(** X24: with a chunk size below 128 every chunk is XORed at offset 0
    and none is followed by a permutation: the state bytes from [chunkSize]
    on keep their values whatever the file holds, while the byte counter
    grows by the file size; with chunk size 0 nothing is read and the state
    is returned as it was, with result [true]. *)
Theorem processFile_small_chunks (qs : QFState) (contents : list byte)
  (chunkSize j : nat)
  (Hwf : state_wf qs) (Hsmall : (chunkSize < 128)%nat) (Hj : (chunkSize <= j)%nat) :
  let r := processFile qs (Some contents) chunkSize in
  r.1 = true /\
  get_byte (state r.2) j = get_byte (state qs) j /\
  ((0 < chunkSize)%nat ->
   absorbedBytes r.2 = wrap64 (absorbedBytes qs + Z.of_nat (length contents))) /\
  (chunkSize = 0%nat -> r.2 = qs).
Proof.
  cbv zeta. unfold processFile. cbn [fst snd].
  destruct (read_loop_small_chunks chunkSize Hsmall contents qs Hwf)
    as (_ & Hcount & Hbytes).
  split; [reflexivity |]. split; [apply Hbytes, Hj |]. split; [exact Hcount |].
  intros ->. rewrite read_loop_eq. rewrite decide_True; [reflexivity |].
  rewrite length_take. lia.
Qed.

Lemma processFile_small_chunks_witness :
  state_wf fresh_state /\ (1 < 128)%nat /\ (1 <= 1)%nat /\
  get_byte (state (processFile fresh_state (Some [x61; x62; x63]) 1).2) 1
  = get_byte (state fresh_state) 1.
Proof.
  split; [apply qfInit_wf |]. split; [lia |]. split; [lia |].
  exact (proj1 (proj2 (processFile_small_chunks fresh_state [x61; x62; x63] 1 1
                         (qfInit_wf _) ltac:(lia) ltac:(lia)))).
Defined.

(** * Properties of speedOptimize *)

Lemma speed_scalar_at_word (ws : list Z) (i : nat) :
  (i < length ws)%nat ->
  speed_scalar_at ws i = <[i := speed_word i (ws !!! i)]> ws.
Proof.
  intros Hi. unfold speed_scalar_at, speed_word. cbv zeta.
  rewrite list_lookup_total_insert_eq by lia.
  rewrite list_insert_insert_eq. f_equal.
  change MAGIC_SCALAR with MAGIC. apply Z.lxor_comm.
Qed.

Lemma speed_avx2_at_words (ws : list Z) (i : nat) :
  (i + 4 <= length ws)%nat -> (i mod 4 = 0)%nat ->
  speed_avx2_at ws i
  = fold_left (fun ws j => <[j := speed_word j (ws !!! j)]> ws) (seq i 4) ws.
Proof.
  intros Hi Hmod. unfold speed_avx2_at, storeu_si256, loadu_si256, xor_si256,
    slli_epi64.
  cbn [seq map zip_with fold_left].
  rewrite !list_lookup_total_insert_ne by lia.
  unfold speed_word.
  replace ((i + 0) mod 4)%nat with 0%nat by lia.
  replace ((S i) mod 4)%nat with 1%nat by lia.
  replace ((S (S i)) mod 4)%nat with 2%nat by lia.
  replace ((S (S (S i))) mod 4)%nat with 3%nat by lia.
  replace (i + 0)%nat with i by lia.
  replace (i + 1)%nat with (S i) by lia.
  replace (i + 2)%nat with (S (S i)) by lia.
  replace (i + 3)%nat with (S (S (S i))) by lia.
  replace (i mod 4)%nat with 0%nat by lia.
  reflexivity.
Qed.

Lemma speed_words_prefix (ws : list Z) (n : nat) :
  (n <= length ws)%nat ->
  let out := fold_left (fun ws j => <[j := speed_word j (ws !!! j)]> ws)
                       (seq 0 n) ws in
  length out = length ws /\
  forall i : nat,
    out !!! i = if decide (i < n)%nat then speed_word i (ws !!! i) else ws !!! i.
Proof.
  induction n as [|n IH]; intros Hn.
  - cbn [seq fold_left]. split; [reflexivity |]. intros i.
    rewrite decide_False by lia. reflexivity.
  - destruct IH as [Hlen Hget]; [lia |].
    cbv zeta. rewrite seq_S, fold_left_app. cbn [Nat.add fold_left].
    split; [rewrite length_insert; exact Hlen |]. intros i.
    destruct (decide (i = n)) as [-> | Hne].
    + rewrite list_lookup_total_insert_eq by lia.
      rewrite decide_True by lia. rewrite Hget, decide_False by lia. reflexivity.
    + rewrite list_lookup_total_insert_ne by congruence. rewrite Hget.
      destruct (decide (i < n)%nat).
      * rewrite decide_True by lia. reflexivity.
      * rewrite decide_False by lia. reflexivity.
Qed.

Lemma speed_scalar_loop (ws : list Z) (n : nat) :
  (n <= length ws)%nat ->
  fold_left speed_scalar_at (seq 0 n) ws
  = fold_left (fun ws j => <[j := speed_word j (ws !!! j)]> ws) (seq 0 n) ws.
Proof.
  induction n as [|n IH]; intros Hn; [reflexivity |].
  rewrite seq_S, !fold_left_app, IH by lia. cbn [Nat.add fold_left].
  apply speed_scalar_at_word.
  destruct (speed_words_prefix ws n) as [Hlen _]; [lia |].
  cbv zeta in Hlen. rewrite Hlen. lia.
Qed.

Lemma speed_avx2_loop (ws : list Z) (n : nat) :
  (4 * n <= length ws)%nat ->
  fold_left speed_avx2_at (map (fun k => (4 * k)%nat) (seq 0 n)) ws
  = fold_left (fun ws j => <[j := speed_word j (ws !!! j)]> ws)
              (seq 0 (4 * n)) ws.
Proof.
  induction n as [|n IH]; intros Hn; [reflexivity |].
  rewrite seq_S, map_app, fold_left_app, IH by lia. cbn [Nat.add map fold_left].
  replace (4 * S n)%nat with (4 * n + 4)%nat by lia.
  rewrite seq_app, fold_left_app. cbn [Nat.add].
  apply speed_avx2_at_words; [| lia].
  destruct (speed_words_prefix ws (4 * n)) as [Hlen _]; [lia |].
  cbv zeta in Hlen. rewrite Hlen. lia.
Qed.

Lemma speedOptimize_words (build : Build) (qs : QFState) :
  length (state qs) = STATE_WORDS ->
  state (speedOptimize build qs)
  = fold_left (fun ws j => <[j := speed_word j (ws !!! j)]> ws)
              (seq 0 32) (state qs).
Proof.
  intros Hlen. unfold STATE_WORDS in Hlen. unfold speedOptimize. cbn [state].
  destruct build.
  - apply (speed_avx2_loop (state qs) 8). lia.
  - apply speed_scalar_loop. lia.
Qed.

Lemma speedOptimize_lookup (build : Build) (qs : QFState) (i : nat) :
  length (state qs) = STATE_WORDS -> (i < STATE_WORDS)%nat ->
  state (speedOptimize build qs) !!! i = speed_word i (state qs !!! i).
Proof.
  intros Hlen Hi. rewrite speedOptimize_words by exact Hlen.
  unfold STATE_WORDS in *.
  destruct (speed_words_prefix (state qs) 32) as [_ Hget]; [lia |].
  cbv zeta in Hget. rewrite Hget, decide_True by lia. reflexivity.
Qed.

Lemma speedOptimize_length (build : Build) (qs : QFState) :
  length (state qs) = STATE_WORDS ->
  length (state (speedOptimize build qs)) = STATE_WORDS.
Proof.
  intros Hlen. rewrite speedOptimize_words by exact Hlen.
  unfold STATE_WORDS in *.
  destruct (speed_words_prefix (state qs) 32) as [Hlen' _]; [lia |].
  cbv zeta in Hlen'. rewrite Hlen'. exact Hlen.
Qed.

(** X25: the AVX2 build and the scalar build of [speedOptimize] compute
    the same state from a state of 32 words: word [i] becomes
    [v ^ (v << 1)] for [v = state[i] ^ MAGIC[i % 4]], and the byte counter
    is XORed with 0xABCDEF. *)
Theorem speedOptimize_builds_agree (qs : QFState) (i : nat)
  (Hlen : length (state qs) = STATE_WORDS) (Hi : (i < STATE_WORDS)%nat) :
  speedOptimize AVX2 qs = speedOptimize Scalar qs /\
  state (speedOptimize Scalar qs) !!! i = speed_word i (state qs !!! i) /\
  absorbedBytes (speedOptimize Scalar qs) = Z.lxor (absorbedBytes qs) 0xABCDEF.
Proof.
  split; [| split; [apply speedOptimize_lookup; assumption | reflexivity]].
  pose proof (speedOptimize_words AVX2 qs Hlen) as Ha.
  pose proof (speedOptimize_words Scalar qs Hlen) as Hs.
  destruct (speedOptimize AVX2 qs) as [wa ca] eqn:Ea.
  destruct (speedOptimize Scalar qs) as [wsc cs] eqn:Es.
  cbn [state] in Ha, Hs. subst wa wsc. f_equal.
  apply (f_equal absorbedBytes) in Ea, Es. cbn [absorbedBytes] in Ea, Es.
  rewrite <- Ea, <- Es. reflexivity.
Qed.

Lemma speedOptimize_builds_agree_witness :
  length (state fresh_state) = STATE_WORDS /\ (0 < STATE_WORDS)%nat /\
  speedOptimize AVX2 fresh_state = speedOptimize Scalar fresh_state.
Proof.
  split; [reflexivity |]. split; [unfold STATE_WORDS; lia |].
  exact (proj1 (speedOptimize_builds_agree fresh_state 0 eq_refl
                  ltac:(unfold STATE_WORDS; lia))).
Defined.

(** *** No information is lost *)

Lemma lxor_cancel_r (a b m : Z) : Z.lxor a m = Z.lxor b m -> a = b.
Proof.
  intros H. apply (f_equal (fun z => Z.lxor z m)) in H.
  rewrite !Z.lxor_assoc, Z.lxor_nilpotent, !Z.lxor_0_r in H. exact H.
Qed.

Lemma shift_xor_testbit (a i : Z) :
  0 <= i < 64 ->
  Z.testbit (Z.lxor a (wrap64 (Z.shiftl a 1))) i
  = xorb (Z.testbit a i) (Z.testbit a (i - 1)).
Proof.
  intros Hi. unfold wrap64.
  rewrite Z.lxor_spec, Z.testbit_mod_pow2 by lia.
  rewrite (proj2 (Z.ltb_lt i 64)) by lia. cbn [andb].
  rewrite Z.shiftl_spec by lia. reflexivity.
Qed.

Lemma shift_xor_injective (a b : Z) :
  u64 a -> u64 b ->
  Z.lxor a (wrap64 (Z.shiftl a 1)) = Z.lxor b (wrap64 (Z.shiftl b 1)) ->
  a = b.
Proof.
  intros Ha Hb Heq. apply u64_eq_of_bits; [exact Ha | exact Hb |].
  assert (Hbits : forall i, 0 <= i -> i < 64 -> Z.testbit a i = Z.testbit b i).
  { apply (natlike_ind (fun i => i < 64 -> Z.testbit a i = Z.testbit b i)).
    - intros _.
      pose proof (f_equal (fun z => Z.testbit z 0) Heq) as H0. cbv beta in H0.
      rewrite !shift_xor_testbit in H0 by lia.
      rewrite !(Z.testbit_neg_r _ (0 - 1)) in H0 by lia.
      rewrite !xorb_false_r in H0. exact H0.
    - intros i Hi IH Hlt.
      pose proof (f_equal (fun z => Z.testbit z (Z.succ i)) Heq) as Hs.
      cbv beta in Hs. rewrite !shift_xor_testbit in Hs by lia.
      replace (Z.succ i - 1) with i in Hs by lia.
      rewrite IH in Hs by lia.
      destruct (Z.testbit a (Z.succ i)), (Z.testbit b (Z.succ i)),
        (Z.testbit b i); cbn in Hs; congruence. }
  intros i Hi. apply Hbits; lia.
Qed.

Lemma speed_word_injective (i : nat) (a b : Z) :
  u64 a -> u64 b -> speed_word i a = speed_word i b -> a = b.
Proof.
  intros Ha Hb Heq. unfold speed_word in Heq. cbv zeta in Heq.
  assert (Hm : u64 (MAGIC !!! (i mod 4)%nat)).
  { assert (Hlt : (i mod 4 < 4)%nat) by lia.
    destruct (i mod 4)%nat as [|[|[|[|k]]]]; [| | | | lia];
      unfold u64; cbn; lia. }
  apply shift_xor_injective in Heq; try (apply u64_lxor; assumption).
  apply lxor_cancel_r in Heq. exact Heq.
Qed.

Lemma speed_word_u64 (i : nat) (a : Z) : u64 a -> u64 (speed_word i a).
Proof.
  intros Ha. unfold speed_word. cbv zeta.
  assert (Hm : u64 (MAGIC !!! (i mod 4)%nat)).
  { assert (Hlt : (i mod 4 < 4)%nat) by lia.
    destruct (i mod 4)%nat as [|[|[|[|k]]]]; [| | | | lia];
      unfold u64; cbn; lia. }
  apply u64_lxor; [apply u64_lxor; assumption | apply u64_wrap64].
Qed.

Lemma speedOptimize_wf (build : Build) (qs : QFState) :
  state_wf qs -> state_wf (speedOptimize build qs).
Proof.
  intros (Hlen & Hu & Ha).
  split; [apply speedOptimize_length, Hlen |]. split.
  - apply Forall_lookup_2. intros i w Hw.
    pose proof (lookup_lt_Some _ _ _ Hw) as Hi.
    rewrite speedOptimize_length in Hi by exact Hlen.
    apply list_lookup_total_correct in Hw. subst w.
    rewrite speedOptimize_lookup by assumption.
    apply speed_word_u64. apply Forall_lookup_total_1; [exact Hu |].
    rewrite Hlen. exact Hi.
  - unfold speedOptimize. cbn [absorbedBytes].
    apply u64_lxor; [exact Ha | unfold u64; lia].
Qed.

Lemma speedOptimize_inj (build : Build) (qs qs' : QFState) :
  state_wf qs -> state_wf qs' ->
  speedOptimize build qs = speedOptimize build qs' -> qs = qs'.
Proof.
  intros (Hlen & Hu & _) (Hlen' & Hu' & _) Heq.
  assert (Hst : state qs = state qs').
  { apply (list_eq_same_length _ _ STATE_WORDS); [exact Hlen' | exact Hlen |].
    intros i w w' Hi Hw Hw'.
    apply list_lookup_total_correct in Hw, Hw'. subst w w'.
    apply (speed_word_injective i).
    - apply Forall_lookup_total_1; [exact Hu | rewrite Hlen; exact Hi].
    - apply Forall_lookup_total_1; [exact Hu' | rewrite Hlen'; exact Hi].
    - rewrite <- !(speedOptimize_lookup build) by assumption.
      rewrite Heq. reflexivity. }
  assert (Hc : absorbedBytes qs = absorbedBytes qs').
  { apply (f_equal absorbedBytes) in Heq. unfold speedOptimize in Heq.
    cbn [absorbedBytes] in Heq. apply lxor_cancel_r in Heq. exact Heq. }
  destruct qs as [w c], qs' as [w' c']. cbn [state absorbedBytes] in Hst, Hc.
  subst. reflexivity.
Qed.

(** X26: [speedOptimize] keeps a state well formed and loses no
    information: two well-formed states that it maps to the same state are
    equal. *)
Theorem speedOptimize_injective (build : Build) (qs qs' : QFState)
  (Hwf : state_wf qs) (Hwf' : state_wf qs') :
  state_wf (speedOptimize build qs) /\
  (speedOptimize build qs = speedOptimize build qs' -> qs = qs').
Proof.
  split; [apply speedOptimize_wf, Hwf | apply speedOptimize_inj; assumption].
Qed.

Lemma speedOptimize_injective_witness :
  state_wf fresh_state /\ state_wf (speedOptimize Scalar fresh_state).
Proof.
  split; [apply qfInit_wf |].
  exact (proj1 (speedOptimize_injective Scalar fresh_state fresh_state
                  (qfInit_wf _) (qfInit_wf _))).
Defined.

(** * Properties of the program *)

Lemma ingest_wf (env : Environment) (fortress qs : QFState)
  (argv : list (list byte)) :
  state_wf fortress -> ingest env fortress argv = Some qs -> state_wf qs.
Proof.
  intros Hwf. unfold ingest.
  destruct (decide (length argv < 2)%nat); [discriminate |].
  destruct (decide (argv !!! 1%nat = mode_file)).
  - destruct (decide (length argv < 3)%nat); [discriminate |].
    destruct (open_file env (argv !!! 2%nat)) as [contents |] eqn:Hopen.
    + unfold processFile. cbn [negb]. intros [= <-].
      rewrite read_loop_whole_blocks by (assumption || lia || reflexivity).
      apply qfAbsorb_wf, Hwf.
    + destruct (getline_after_ignore (stdin env)); [| discriminate].
      intros [= <-]. rewrite processString_qfAbsorb.
      apply qfAbsorb_wf, qfAbsorb_wf, Hwf.
  - destruct (decide (argv !!! 1%nat = mode_string)); [| discriminate].
    destruct (decide (length argv < 3)%nat); [discriminate |].
    intros [= <-]. rewrite processString_qfAbsorb.
    apply qfAbsorb_wf, qfAbsorb_wf, Hwf.
Qed.

Lemma ingest_ext (env env' : Environment) (fortress : QFState)
  (argv : list (list byte)) :
  open_file env (argv !!! 2%nat) = open_file env' (argv !!! 2%nat) ->
  stdin env = stdin env' ->
  ingest env fortress argv = ingest env' fortress argv.
Proof.
  intros Hopen Hin. unfold ingest. rewrite Hopen, Hin. reflexivity.
Qed.

Lemma main_eq (env : Environment) (argv : list (list byte)) :
  length (partialChecks (stack_snapshot env 1)) = SNAP_WORDS ->
  main env argv =
  match ingest env fresh_state argv with
  | None => ExitFailure
  | Some qs =>
      ExitSuccess
        (qfSqueeze (speedOptimize Scalar qs) 64)
        (speedOptimize Scalar qs)
        (selfHealSaveSnapshot
           (selfHealInit (stack_context env) (minted_key env 0)
                         (stack_snapshot env 0) fresh_state)
           (minted_key env 1) (stack_snapshot env 1) qs)
  end.
Proof.
  intros Hsize. unfold main.
  assert (Hinit : qfInit (stack_state env) = fresh_state)
    by (unfold fresh_state; rewrite !qfInit_value; reflexivity).
  rewrite Hinit.
  destruct (ingest env fresh_state argv) as [qs |] eqn:Hin; [| reflexivity].
  rewrite selfHealDetect_shadow.
  2: { destruct (selfHealSaveSnapshot_fields
                   (selfHealInit (stack_context env) (minted_key env 0)
                      (stack_snapshot env 0) fresh_state)
                   (minted_key env 1) (stack_snapshot env 1) qs)
         as (_ & _ & Hshadow).
       rewrite Hshadow. apply validateSnapshot_createSnapshot, Hsize. }
  pose proof (ingest_wf env fresh_state qs argv (qfInit_wf _) Hin) as (Hlen & _).
  assert (Hbuild : speedOptimize (build env) qs = speedOptimize Scalar qs).
  { destruct (build env); [| reflexivity].
    pose proof (speedOptimize_words AVX2 qs Hlen) as Ha.
    pose proof (speedOptimize_words Scalar qs Hlen) as Hs.
    destruct (speedOptimize AVX2 qs) as [wa ca] eqn:Ea.
    destruct (speedOptimize Scalar qs) as [wsc cs] eqn:Es.
    cbn [state] in Ha, Hs. subst wa wsc. f_equal.
    apply (f_equal absorbedBytes) in Ea, Es. cbn [absorbedBytes] in Ea, Es.
    rewrite <- Ea, <- Es. reflexivity. }
  rewrite Hbuild. reflexivity.
Qed.

(** X27: [main] never enters the recovery: the state it has just saved
    validates against the shadow copy.  The digest printed is 64 bytes
    squeezed from [speedOptimize] of the ingested state; it depends on the
    arguments, the file named and the standard input, and not on the keys
    minted, on what the uninitialised locals held, or on the build. *)
Theorem main_digest (env env' : Environment) (argv : list (list byte))
  (Hsize : length (partialChecks (stack_snapshot env 1)) = SNAP_WORDS)
  (Hsize' : length (partialChecks (stack_snapshot env' 1)) = SNAP_WORDS)
  (Hopen : open_file env (argv !!! 2%nat) = open_file env' (argv !!! 2%nat))
  (Hstdin : stdin env = stdin env') :
  printed_digest (main env argv)
  = option_map (fun qs => qfSqueeze (speedOptimize Scalar qs) 64)
               (ingest env fresh_state argv) /\
  printed_digest (main env argv) = printed_digest (main env' argv).
Proof.
  rewrite !main_eq by assumption.
  rewrite <- (ingest_ext env env' fresh_state argv Hopen Hstdin).
  destruct (ingest env fresh_state argv); split; reflexivity.
Qed.

Lemma main_digest_witness :
  let env' :=
    mkEnvironment (open_file sample_environment) (stdin sample_environment)
      (fun _ => 99) (fun _ => blank_snapshot) fresh_state fresh_context AVX2 in
  let argv := [[x68]; mode_string; [x61]; [x62]] in
  length (partialChecks (stack_snapshot sample_environment 1)) = SNAP_WORDS /\
  printed_digest (main sample_environment argv) = printed_digest (main env' argv).
Proof.
  intros env' argv. split; [reflexivity |].
  exact (proj2 (main_digest sample_environment env' argv eq_refl eq_refl
                  eq_refl eq_refl)).
Defined.

(** X28: [main] returns [EXIT_FAILURE] exactly when fewer than two
    arguments follow the program name, or the mode is neither "file" nor
    "string", or the mode is "file", the file does not open and no fallback
    line can be read from the standard input.  In particular a file that
    opens is never reported as failing to process. *)
Theorem main_fails_iff (env : Environment) (argv : list (list byte))
  (Hsize : length (partialChecks (stack_snapshot env 1)) = SNAP_WORDS) :
  main env argv = ExitFailure <->
  (length argv < 3)%nat \/
  (argv !!! 1%nat <> mode_file /\ argv !!! 1%nat <> mode_string) \/
  (argv !!! 1%nat = mode_file /\ open_file env (argv !!! 2%nat) = None /\
   getline_after_ignore (stdin env) = None).
Proof.
  rewrite main_eq by exact Hsize.
  assert (Hfail : ingest env fresh_state argv = None <->
    (length argv < 3)%nat \/
    (argv !!! 1%nat <> mode_file /\ argv !!! 1%nat <> mode_string) \/
    (argv !!! 1%nat = mode_file /\ open_file env (argv !!! 2%nat) = None /\
     getline_after_ignore (stdin env) = None)).
  { unfold ingest.
    destruct (decide (length argv < 2)%nat) as [H2 | H2].
    { split; [intros _; left; lia | reflexivity]. }
    destruct (decide (argv !!! 1%nat = mode_file)) as [Hfile | Hfile].
    - destruct (decide (length argv < 3)%nat) as [H3 | H3].
      { split; [intros _; left; lia | reflexivity]. }
      destruct (open_file env (argv !!! 2%nat)) as [contents |] eqn:Hopen.
      + unfold processFile. cbn [negb]. split; [discriminate |].
        intros [H | [[H _] | (_ & H & _)]]; [lia | contradiction | discriminate].
      + destruct (getline_after_ignore (stdin env)) as [line |].
        * split; [discriminate |].
          intros [H | [[H _] | (_ & _ & H)]]; [lia | contradiction | discriminate].
        * split; [intros _; right; right; auto | reflexivity].
    - destruct (decide (argv !!! 1%nat = mode_string)) as [Hstr | Hstr].
      + destruct (decide (length argv < 3)%nat) as [H3 | H3].
        { split; [intros _; left; lia | reflexivity]. }
        split; [discriminate |].
        intros [H | [[_ H] | (H & _)]]; [lia | contradiction | contradiction].
      + split; [intros _; right; left; auto | reflexivity]. }
  rewrite <- Hfail.
  destruct (ingest env fresh_state argv); split; intros H;
    (reflexivity || discriminate).
Qed.

Lemma main_fails_iff_witness :
  length (partialChecks (stack_snapshot sample_environment 1)) = SNAP_WORDS /\
  main sample_environment [[x68]; mode_file] = ExitFailure.
Proof.
  split; [reflexivity |].
  apply (main_fails_iff sample_environment [[x68]; mode_file] eq_refl).
  left. cbn. lia.
Defined.

Lemma cin_ignore_line (l rest : list byte) :
  ~ In x0a l -> cin_ignore (l ++ x0a :: rest) = Some rest.
Proof.
  induction l as [|b l IH]; intros Hnl; cbn [app cin_ignore].
  - rewrite decide_True by reflexivity. reflexivity.
  - rewrite decide_False by (intros ->; apply Hnl; left; reflexivity).
    apply IH. intros Hin. apply Hnl. right. exact Hin.
Qed.

Lemma line_of_line (l rest : list byte) :
  ~ In x0a l -> line_of (l ++ x0a :: rest) = l.
Proof.
  induction l as [|b l IH]; intros Hnl; cbn [app line_of].
  - rewrite decide_True by reflexivity. reflexivity.
  - rewrite decide_False by (intros ->; apply Hnl; left; reflexivity).
    f_equal. apply IH. intros Hin. apply Hnl. right. exact Hin.
Qed.

Lemma line_of_end (l : list byte) : ~ In x0a l -> line_of l = l.
Proof.
  induction l as [|b l IH]; intros Hnl; cbn [line_of]; [reflexivity |].
  rewrite decide_False by (intros ->; apply Hnl; left; reflexivity).
  f_equal. apply IH. intros Hin. apply Hnl. right. exact Hin.
Qed.

Lemma cin_ignore_end (l : list byte) : ~ In x0a l -> cin_ignore l = None.
Proof.
  induction l as [|b l IH]; intros Hnl; cbn [cin_ignore]; [reflexivity |].
  rewrite decide_False by (intros ->; apply Hnl; left; reflexivity).
  apply IH. intros Hin. apply Hnl. right. exact Hin.
Qed.

(** The line that [main] falls back to: what stands between the first
    newline of the input and the next newline or the end of the input. *)
Lemma getline_after_ignore_second (first second tail : list byte) :
  ~ In x0a first -> ~ In x0a second ->
  tail = [] \/ (exists rest, tail = x0a :: rest) ->
  getline_after_ignore (first ++ x0a :: second ++ tail)
  = match second ++ tail with [] => None | _ => Some second end.
Proof.
  intros Hfirst Hsecond Htail. unfold getline_after_ignore.
  rewrite cin_ignore_line by exact Hfirst.
  destruct Htail as [-> | (rest & ->)].
  - rewrite app_nil_r. destruct second as [|b second]; [reflexivity |].
    rewrite line_of_end by exact Hsecond. reflexivity.
  - rewrite line_of_line by exact Hsecond.
    destruct second; reflexivity.
Qed.

(** X29: in mode "file" with a file that does not open, [main] discards
    the standard input up to and including its first newline and hashes
    the line that follows, whether a newline or the end of the input ends
    it: the digest printed is that of [processString] of that line.  When
    the input has no newline, or nothing follows its first newline, [main]
    returns [EXIT_FAILURE]. *)
Theorem main_fallback_second_line (env : Environment) (argv : list (list byte))
  (first second tail : list byte)
  (Hsize : length (partialChecks (stack_snapshot env 1)) = SNAP_WORDS)
  (Hargc : (3 <= length argv)%nat)
  (Hmode : argv !!! 1%nat = mode_file)
  (Hopen : open_file env (argv !!! 2%nat) = None)
  (Hfirst : ~ In x0a first) (Hsecond : ~ In x0a second)
  (Htail : tail = [] \/ exists rest, tail = x0a :: rest) :
  (stdin env = first ++ x0a :: second ++ tail -> second ++ tail <> [] ->
   main env argv
   = ExitSuccess
       (qfSqueeze (speedOptimize Scalar (processString fresh_state second)) 64)
       (speedOptimize Scalar (processString fresh_state second))
       (selfHealSaveSnapshot
          (selfHealInit (stack_context env) (minted_key env 0)
                        (stack_snapshot env 0) fresh_state)
          (minted_key env 1) (stack_snapshot env 1)
          (processString fresh_state second)) /\
   printed_digest (main env argv)
   = Some (qfSqueeze (speedOptimize Scalar (processString fresh_state second)) 64)) /\
  (stdin env = first ++ [x0a] -> main env argv = ExitFailure) /\
  (stdin env = first -> main env argv = ExitFailure).
Proof.
  assert (Hin : ingest env fresh_state argv
                = match getline_after_ignore (stdin env) with
                  | None => None
                  | Some line => Some (processString fresh_state line)
                  end).
  { unfold ingest.
    rewrite decide_False by lia. rewrite decide_True by exact Hmode.
    rewrite decide_False by lia. rewrite Hopen. reflexivity. }
  rewrite !main_eq by exact Hsize. rewrite Hin.
  split; [| split].
  - intros Hstdin Hsome. rewrite Hstdin.
    rewrite getline_after_ignore_second by assumption.
    destruct (second ++ tail); [contradiction |]. split; reflexivity.
  - intros Hstdin. rewrite Hstdin.
    unfold getline_after_ignore.
    rewrite cin_ignore_line by exact Hfirst. reflexivity.
  - intros Hstdin. rewrite Hstdin. unfold getline_after_ignore.
    rewrite cin_ignore_end by exact Hfirst. reflexivity.
Qed.

Lemma main_fallback_second_line_witness :
  let env :=
    mkEnvironment (fun _ => None) [x61; x0a; x68; x69]
      (fun _ => 5) (fun _ => blank_snapshot) fresh_state blank_context Scalar in
  let argv := [[x68]; mode_file; [x7a]] in
  length (partialChecks (stack_snapshot env 1)) = SNAP_WORDS /\
  (3 <= length argv)%nat /\
  stdin env = [x61] ++ x0a :: [x68; x69] ++ [] /\
  printed_digest (main env argv)
  = Some (qfSqueeze (speedOptimize Scalar (processString fresh_state [x68; x69])) 64).
Proof.
  intros env argv. split; [reflexivity |]. split; [cbn; lia |].
  split; [reflexivity |].
  refine (proj2 (proj1 (main_fallback_second_line env argv [x61] [x68; x69] []
                          eq_refl _ eq_refl eq_refl _ _ (or_introl eq_refl))
                   eq_refl _)).
  - cbn. lia.
  - intros [H | []]. discriminate.
  - intros [H | [H | []]]; discriminate.
  - discriminate.
Defined.
